(** * GB_add_phase2: C=A+B or C<M>=A+B

    A shallow embedding of [GraphBLAS/Source/GB_add_phase2.c] and of the
    collaborators it calls, followed by the properties of the phase.

    The build that is embedded is the one without [GB_DEBUG]: every [ASSERT]
    of the file (lines 69-92, 168, 240 and 277) expands to nothing and is
    not part of the code.  What the ASSERTs of lines 69-84 check is
    [GB_ASSERT_inputs] below; a theorem that needs it assumes it. *)

From Stdlib Require Import ZArith Lia QArith_base.
From Stdlib.Strings Require Import Byte.
From stdpp Require Import base tactics option list numbers sorting.

Local Open Scope Z_scope.
Local Open Scope nat_scope.

(** ** Codes, run-time types and operators *)

(** [GB_Type_code] and [GB_Opcode] are C enumerations. *)
Definition GB_Type_code := Z.
Definition GB_Opcode := Z.

(** [GrB_Type]: the fields of the type descriptor this phase reads. *)
Record GrB_Type := mkType {
  ty_code : GB_Type_code ;
  ty_size : nat
}.

(** One element of a [GB_void *] value array: the [size] bytes at
    [Xx + p*size]. *)
Definition GB_void := list byte.

(** [void f (void *z, const void *x, const void *y)] *)
Definition GxB_binary_function := GB_void -> GB_void -> GB_void.

(** [void cast (void *z, const void *x, size_t s)] *)
Definition GB_cast_function := GB_void -> nat -> GB_void.

Record GrB_BinaryOp := mkBinaryOp {
  op_xtype : GrB_Type ;
  op_ytype : GrB_Type ;
  op_ztype : GrB_Type ;
  op_function : GxB_binary_function ;
  op_opcode : GB_Opcode
}.

Inductive GrB_Info :=
  | GrB_SUCCESS
  | GrB_NO_VALUE
  | GrB_OUT_OF_MEMORY.

Global Instance GrB_Info_eq_dec : EqDecision GrB_Info.
Proof. solve_decision. Defined.

(** ** Memory blocks

    A non-NULL pointer is a block of the heap together with the cells it
    holds; [None] is NULL. *)
Record GB_array (T : Type) := mkArray {
  blk : nat ;
  cells : list T
}.
Arguments mkArray {T} _ _.
Arguments blk {T} _.
Arguments cells {T} _.

Definition GB_cells {T} (a : option (GB_array T)) : list T :=
  match a with Some b => cells b | None => [] end.

(** The allocator: the next unused block and the blocks handed to
    [GB_FREE], in the order of the calls. *)
Record GB_heap := mkHeap {
  heap_next : nat ;
  heap_freed : list nat
}.

(** [GB_FREE (p)]: frees the block unless [p] is NULL. *)
Definition GB_FREE {T} (p : option (GB_array T)) (hp : GB_heap) : GB_heap :=
  match p with
  | None => hp
  | Some a => mkHeap (heap_next hp) (heap_freed hp ++ [blk a])
  end.

(** ** Matrices *)

Inductive GB_magic_t :=
  | GB_MAGIC     (* the object is valid *)
  | GB_MAGIC2    (* allocated, still under construction *)
  | GB_FREED.

Global Instance GB_magic_eq_dec : EqDecision GB_magic_t.
Proof. solve_decision. Defined.

Record GrB_Matrix := mkMatrix {
  mat_magic : GB_magic_t ;
  mat_type : GrB_Type ;
  mat_hyper_ratio : Q ;
  mat_plen : nat ;
  mat_vlen : Z ;
  mat_vdim : Z ;
  mat_nvec : nat ;
  mat_nvec_nonempty : Z ;
  mat_h : option (GB_array Z) ;
  mat_p : option (GB_array nat) ;
  mat_i : option (GB_array Z) ;
  mat_x : option (GB_array GB_void) ;
  mat_is_hyper : bool ;
  mat_is_csc : bool ;
  mat_hdr : nat
}.

(** ** Tasks *)

(** Modelled from the spec: [GB_task_struct] is declared outside this file.
    A task is one output vector, or a contiguous sub-range of one, with the
    offsets into the storage of C, M, A and B where the unit begins and
    ends. *)
Record GB_task_struct := mkTask {
  t_kfirst : nat ;
  t_pC : nat ; t_pC_end : nat ;
  t_pM : nat ; t_pM_end : nat ;
  t_pA : nat ; t_pA_end : nat ;
  t_pB : nat ; t_pB_end : nat
}.

(** ** Results of code that can call a NULL function

    One step of the function is not defined for every input: [fadd] is NULL
    when [op] is (line 189), and [GB_BINOP] calls it (line 242).  A
    computation that gets there has no result, [GB_null_call]: the call of
    [GB_add_phase2] does not return.  (With [GB_DEBUG] it is the ASSERT of
    line 240 that stops the call, at the same place.) *)

Inductive GB_result (T : Type) :=
  | GB_ok (v : T)
  | GB_null_call.
Arguments GB_ok {T} _.
Arguments GB_null_call {T}.

Definition GB_bind {T U} (r : GB_result T) (k : T -> GB_result U) : GB_result U :=
  match r with
  | GB_ok v => k v
  | GB_null_call => GB_null_call
  end.

Definition GB_fmap {T U} (f : T -> U) (r : GB_result T) : GB_result U :=
  GB_bind r (fun v => GB_ok (f v)).

Notation "'let*' x := r 'in' k" := (GB_bind r (fun x => k))
  (at level 10, x name, r at level 200, k at level 200, only parsing).

(** ** The generic worker: casts and macros (lines 177-250) *)

(** The plan the generic worker sets up before it includes the template. *)
Record GB_plan := mkPlan {
  fadd : option GxB_binary_function ;
  csize : nat ; asize : nat ; bsize : nat ;
  xsize : nat ; ysize : nat ; zsize : nat ;
  cast_A_to_X : GB_cast_function ;
  cast_B_to_Y : GB_cast_function ;
  cast_A_to_C : GB_cast_function ;
  cast_B_to_C : GB_cast_function ;
  cast_Z_to_C : GB_cast_function
}.

(** Modelled from the spec: [GB_copy_user_user] is defined elsewhere; it is
    the direct copy of the [s] bytes of the operand that is present. *)
Definition GB_copy_user_user : GB_cast_function :=
  fun x s => take s x.

Section generic_plan.

(** [GB_cast_factory (code1, code2)]: the conversion from [code2] to
    [code1], from the type catalog. *)
Variable GB_cast_factory : GB_Type_code -> GB_Type_code -> GB_cast_function.

Definition GB_generic_plan (ctype : GrB_Type) (op : option GrB_BinaryOp)
    (A B : GrB_Matrix) : GB_plan :=
  let ccode := ty_code ctype in
  match op with
  | None =>
      (* implicit GB_SECOND_[type] operator with no typecasting *)
      let csize := ty_size ctype in
      mkPlan None csize csize csize csize csize csize
        GB_copy_user_user GB_copy_user_user GB_copy_user_user
        GB_copy_user_user GB_copy_user_user
  | Some op =>
      (* normal case, C = A + B with optional typecasting *)
      mkPlan (Some (op_function op))
        (ty_size ctype)
        (ty_size (mat_type A))
        (ty_size (mat_type B))
        (ty_size (op_xtype op))
        (ty_size (op_ytype op))
        (ty_size (op_ztype op))
        (GB_cast_factory (ty_code (op_xtype op)) (ty_code (mat_type A)))
        (GB_cast_factory (ty_code (op_ytype op)) (ty_code (mat_type B)))
        (GB_cast_factory ccode (ty_code (mat_type A)))
        (GB_cast_factory ccode (ty_code (mat_type B)))
        (GB_cast_factory ccode (ty_code (op_ztype op)))
  end.

End generic_plan.

Section macros.

Variable plan : GB_plan.

(** [C(i,j) = (ctype) A(i,j)], located in [Ax [pA]] *)
Definition GB_COPY_A_TO_C (Ax : list GB_void) (pA : nat) : GB_void :=
  cast_A_to_C plan (Ax !!! pA) (asize plan).

(** [C(i,j) = (ctype) B(i,j)], located in [Bx [pB]] *)
Definition GB_COPY_B_TO_C (Bx : list GB_void) (pB : nat) : GB_void :=
  cast_B_to_C plan (Bx !!! pB) (bsize plan).

(** [aij = (xtype) A(i,j)], located in [Ax [pA]] *)
Definition GB_GETA (Ax : list GB_void) (pA : nat) : GB_void :=
  cast_A_to_X plan (Ax !!! pA) (asize plan).

(** [bij = (ytype) B(i,j)], located in [Bx [pB]] *)
Definition GB_GETB (Bx : list GB_void) (pB : nat) : GB_void :=
  cast_B_to_Y plan (Bx !!! pB) (bsize plan).

(** [C(i,j) = (ctype) (A(i,j) + B(i,j))]; not used if op is null:
    [fadd (z, aij, bij)] with [fadd == NULL] is a call of no function. *)
Definition GB_BINOP (aij bij : GB_void) : GB_result GB_void :=
  match fadd plan with
  | None => GB_null_call
  | Some f => GB_ok (cast_Z_to_C plan (f aij bij) (csize plan))
  end.

End macros.

(** ** The merge of one task

    Modelled from the spec: [GB_add_template.c] is included, not shown.  For
    its range of one output vector a task walks A's and B's row indices with
    two pointers, in ascending order; a candidate row index is emitted only
    if the mask (when there is one) has a qualifying entry at that row. *)

(** Modelled from the spec: the mask cast is defined with the template; a
    mask value is truthy when one of its [msize] bytes is not zero. *)
Definition GB_mcast (Mx : list GB_void) (pM : nat) (msize : nat) : bool :=
  existsb (fun b => negb (Byte.eqb b x00)) (take msize (Mx !!! pM)).

(** The position of row [i] in [Mi [pM .. pM+n-1]], if any. *)
Fixpoint GB_mask_find (Mi : list Z) (i : Z) (n pM : nat) : option nat :=
  match n with
  | 0 => None
  | S n' =>
      if decide (Mi !!! pM = i) then Some pM
      else GB_mask_find Mi i n' (S pM)
  end.

Definition GB_mij (M : option GrB_Matrix) (Mask_struct : bool)
    (pM pM_end : nat) (i : Z) : bool :=
  match M with
  | None => true
  | Some m =>
      match GB_mask_find (GB_cells (mat_i m)) i (pM_end - pM) pM with
      | None => false
      | Some p =>
          Mask_struct || GB_mcast (GB_cells (mat_x m)) p (ty_size (mat_type m))
      end
  end.

Definition GB_entry := (Z * GB_void)%type.

Definition GB_emit (keep : bool) (e : GB_entry) (rest : list GB_entry) :
    list GB_entry :=
  if keep then e :: rest else rest.

Section merge.

Variable plan : GB_plan.
Variable mij : Z -> bool.
Variables (Ai : list Z) (Ax : list GB_void) (Bi : list Z) (Bx : list GB_void).
Variables (pA_end pB_end : nat).

(** The entries the task writes at [pC], [pC+1], ..., in this order.
    [fuel] bounds the iterations: each one advances [pA] or [pB]. *)
Fixpoint GB_add_merge (fuel pA pB : nat) : GB_result (list GB_entry) :=
  match fuel with
  | 0 => GB_ok []
  | S fuel =>
      if decide (pA < pA_end) then
        if decide (pB < pB_end) then
          let iA := Ai !!! pA in
          let iB := Bi !!! pB in
          if decide (iA < iB)%Z then
            (* C (iA,j) = A (iA,j) *)
            GB_fmap (GB_emit (mij iA) (iA, GB_COPY_A_TO_C plan Ax pA))
              (GB_add_merge fuel (S pA) pB)
          else if decide (iB < iA)%Z then
            (* C (iB,j) = B (iB,j) *)
            GB_fmap (GB_emit (mij iB) (iB, GB_COPY_B_TO_C plan Bx pB))
              (GB_add_merge fuel pA (S pB))
          else if mij iB then
            (* C (i,j) = A (i,j) + B (i,j) *)
            let* cij := GB_BINOP plan (GB_GETA plan Ax pA) (GB_GETB plan Bx pB) in
            GB_fmap (cons (iB, cij)) (GB_add_merge fuel (S pA) (S pB))
          else GB_add_merge fuel (S pA) (S pB)
        else
          (* B (:,j) is exhausted *)
          GB_fmap (GB_emit (mij (Ai !!! pA))
                     (Ai !!! pA, GB_COPY_A_TO_C plan Ax pA))
            (GB_add_merge fuel (S pA) pB)
      else if decide (pB < pB_end) then
        (* A (:,j) is exhausted *)
        GB_fmap (GB_emit (mij (Bi !!! pB))
                   (Bi !!! pB, GB_COPY_B_TO_C plan Bx pB))
          (GB_add_merge fuel pA (S pB))
      else GB_ok []
  end.

End merge.

(** ** Running the tasks *)

Record GB_store := mkStore {
  Ci : list Z ;
  Cx : list GB_void
}.

(** [Ci [pC] = i ; Cx [pC] = cij ; pC++] for each entry.  The counting stage
    sized the storage for the writes of every task; a position outside the
    storage is not written here. *)
Fixpoint GB_write (pC : nat) (es : list GB_entry) (C : GB_store) : GB_store :=
  match es with
  | [] => C
  | (i, cij) :: es =>
      GB_write (S pC) es (mkStore (<[pC:=i]> (Ci C)) (<[pC:=cij]> (Cx C)))
  end.

Section template.

Variable plan : GB_plan.
Variables (M : option GrB_Matrix) (Mask_struct : bool) (A B : GrB_Matrix).

Definition GB_task_entries (t : GB_task_struct) : GB_result (list GB_entry) :=
  GB_add_merge plan
    (GB_mij M Mask_struct (t_pM t) (t_pM_end t))
    (GB_cells (mat_i A)) (GB_cells (mat_x A))
    (GB_cells (mat_i B)) (GB_cells (mat_x B))
    (t_pA_end t) (t_pB_end t)
    ((t_pA_end t - t_pA t) + (t_pB_end t - t_pB t))
    (t_pA t) (t_pB t).

Definition GB_run_task (t : GB_task_struct) (C : GB_store) : GB_result GB_store :=
  let* es := GB_task_entries t in
  GB_ok (GB_write (t_pC t) es C).

(** The tasks [taskid < ntasks] of [TaskList], run in the order [sched] in
    which the threads take them up. *)
Fixpoint GB_run_tasks (TaskList : list GB_task_struct) (sched : list nat)
    (C : GB_store) : GB_result GB_store :=
  match sched with
  | [] => GB_ok C
  | taskid :: sched =>
      match TaskList !! taskid with
      | None => GB_run_tasks TaskList sched C
      | Some t =>
          let* C' := GB_run_task t C in
          GB_run_tasks TaskList sched C'
      end
  end.

End template.

(** ** The collaborators of the phase *)

(** What is fixed when the library is built. *)
Record GB_build := mkBuild {
  (** [#ifndef GBCOMPACT] guards the specialized kernels. *)
  GBCOMPACT : bool ;
  (** The fixed catalog of built-in combinators. *)
  GB_catalog : GB_Opcode -> bool ;
  (** A kernel that is compiled out returns [GrB_NO_VALUE]. *)
  GB_disabled : GB_Opcode -> GB_Type_code -> bool ;
  (** The type catalog's conversion routines. *)
  GB_cast_factory : GB_Type_code -> GB_Type_code -> GB_cast_function
}.

(** What the run-time environment decides during one call. *)
Record GB_env := mkEnv {
  (** the heap before the call *)
  env_heap : GB_heap ;
  (** whether the allocator satisfies the requests of [GB_create] *)
  env_create_ok : bool ;
  (** whether the allocator satisfies the request of the pruning step *)
  env_prune_ok : bool ;
  (** the order in which the threads take up the task ids *)
  env_sched : list nat
}.

(** The arguments of [GB_add_phase2], under the names of the C parameters
    ([*Chandle] is part of the state below). *)
Record GB_add_phase2_args := mkArgs {
  in_ctype : GrB_Type ;                 (* type of output matrix C *)
  in_C_is_csc : bool ;                  (* format of output matrix C *)
  in_op : option GrB_BinaryOp ;         (* op to perform, or NULL if no op *)
  in_Cp : option (GB_array nat) ;       (* vector pointers for C *)
  in_Cnvec_nonempty : Z ;               (* # of non-empty vectors in C *)
  in_TaskList : list GB_task_struct ;   (* array of structs *)
  in_ntasks : nat ;                     (* # of tasks *)
  in_nthreads : nat ;                   (* # of threads to use *)
  in_Cnvec : nat ;
  in_Ch : option (GB_array Z) ;
  in_C_to_M : option (GB_array Z) ;
  in_C_to_A : option (GB_array Z) ;
  in_C_to_B : option (GB_array Z) ;
  in_Ch_is_Mh : bool ;                  (* if true, then Ch == M->h *)
  in_M : option GrB_Matrix ;            (* optional mask, may be NULL *)
  in_Mask_struct : bool ;               (* if true, use only the structure of M *)
  in_A : GrB_Matrix ;
  in_B : GrB_Matrix
}.

(** Modelled from the spec: [GB_binop_builtin] is defined elsewhere.  An
    operator is recognized when it is one of the fixed catalog of built-in
    combinators; the codes it reports are those of the operator's types. *)
Definition GB_binop_builtin (cfg : GB_build)
    (A_type : GrB_Type) (A_is_pattern : bool)
    (B_type : GrB_Type) (B_is_pattern : bool)
    (op : option GrB_BinaryOp) (flipxy : bool) :
    option (GB_Opcode * GB_Type_code * GB_Type_code * GB_Type_code) :=
  match op with
  | None => None
  | Some o =>
      if GB_catalog cfg (op_opcode o)
      then Some (op_opcode o, ty_code (op_xtype o), ty_code (op_ytype o),
                 ty_code (op_ztype o))
      else None
  end.

(** Modelled from the spec: [GB_create] is the sparse-matrix allocator.  It
    allocates the header and, with [GB_Ap_null], neither [p] nor [h]; the
    row-index and value storage is sized to [anz].  The matrix it returns is
    under construction.  Any allocation failure is out of memory and leaves
    nothing allocated. *)
Definition GB_new (type : GrB_Type) (vlen vdim : Z)
    (is_csc is_hyper : bool) (hyper_ratio : Q) (plen anz : nat)
    (b : nat) : GrB_Matrix :=
  {| mat_magic := GB_MAGIC2 ;
     mat_type := type ;
     mat_hyper_ratio := hyper_ratio ;
     mat_plen := plen ;
     mat_vlen := vlen ;
     mat_vdim := vdim ;
     mat_nvec := if is_hyper then 0 else Z.to_nat vdim ;
     mat_nvec_nonempty := 0 ;
     mat_h := None ;
     mat_p := None ;
     mat_i := Some (mkArray (S b) (replicate anz 0%Z)) ;
     mat_x := Some (mkArray (S (S b)) (replicate anz [])) ;
     mat_is_hyper := is_hyper ;
     mat_is_csc := is_csc ;
     mat_hdr := b |}.

Definition GB_create (ok : bool) (type : GrB_Type) (vlen vdim : Z)
    (is_csc is_hyper : bool) (hyper_ratio : Q) (plen anz : nat)
    (hp : GB_heap) : GrB_Info * option GrB_Matrix * GB_heap :=
  if ok then
    (GrB_SUCCESS,
     Some (GB_new type vlen vdim is_csc is_hyper hyper_ratio plen anz
             (heap_next hp)),
     mkHeap (3 + heap_next hp) (heap_freed hp))
  else (GrB_OUT_OF_MEMORY, None, hp).

(** [GB_MATRIX_FREE (&C)]: frees the content of C and its header. *)
Definition GB_MATRIX_FREE (C : GrB_Matrix) (hp : GB_heap) : GB_heap :=
  let hp := GB_FREE (mat_p C) hp in
  let hp := GB_FREE (mat_h C) hp in
  let hp := GB_FREE (mat_i C) hp in
  let hp := GB_FREE (mat_x C) hp in
  mkHeap (heap_next hp) (heap_freed hp ++ [mat_hdr C]).

(** Vector [k] is kept when it has entries: [p [k] < p [k+1]]. *)
Fixpoint GB_hyper_prune (h : list Z) (p : list nat) : list Z * list nat :=
  match h, p with
  | j :: h', pk :: ((pk1 :: _) as p') =>
      let r := GB_hyper_prune h' p' in
      if decide (pk < pk1) then (j :: r.1, pk :: r.2) else r
  | _, _ => ([], p)
  end.

Definition GB_set_cells {T} (a : option (GB_array T)) (l : list T) :
    option (GB_array T) :=
  match a with
  | None => None
  | Some b => Some (mkArray (blk b) l)
  end.

(** Modelled from the spec: [GB_hypermatrix_prune] is defined elsewhere.  If
    the matrix is in the vector-identity-list representation, the vectors
    with no entries are removed from the list and the vector-pointer array
    is compacted; the row-index and value storage is not touched.  Pruning a
    matrix with no empty vector is a no-op.  The compaction is an
    allocation: the compacted vector pointers and list are built in two new
    blocks, which take the place of [C->p] and [C->h], and the old blocks
    are freed.  When the allocation fails the step is out of memory and
    leaves C and the heap as they are. *)
Definition GB_hypermatrix_prune (ok : bool) (C : GrB_Matrix) (hp : GB_heap) :
    GrB_Info * GrB_Matrix * GB_heap :=
  if mat_is_hyper C then
    let r := GB_hyper_prune (GB_cells (mat_h C)) (GB_cells (mat_p C)) in
    if decide (length r.1 = length (GB_cells (mat_h C)))
    then (GrB_SUCCESS, C, hp)
    else if ok then
      (GrB_SUCCESS,
       {| mat_magic := mat_magic C ;
          mat_type := mat_type C ;
          mat_hyper_ratio := mat_hyper_ratio C ;
          mat_plen := length r.1 ;
          mat_vlen := mat_vlen C ;
          mat_vdim := mat_vdim C ;
          mat_nvec := length r.1 ;
          mat_nvec_nonempty := Z.of_nat (length r.1) ;
          mat_h := Some (mkArray (S (heap_next hp)) r.1) ;
          mat_p := Some (mkArray (heap_next hp) r.2) ;
          mat_i := mat_i C ;
          mat_x := mat_x C ;
          mat_is_hyper := mat_is_hyper C ;
          mat_is_csc := mat_is_csc C ;
          mat_hdr := mat_hdr C |},
       GB_FREE (mat_h C)
         (GB_FREE (mat_p C) (mkHeap (2 + heap_next hp) (heap_freed hp))))
    else (GrB_OUT_OF_MEMORY, C, hp)
  else (GrB_SUCCESS, C, hp).

(** C with the cells of [C->i] and [C->x] as the tasks leave them. *)
Definition GB_with_storage (C : GrB_Matrix) (s : GB_store) : GrB_Matrix :=
  {| mat_magic := mat_magic C ;
     mat_type := mat_type C ;
     mat_hyper_ratio := mat_hyper_ratio C ;
     mat_plen := mat_plen C ;
     mat_vlen := mat_vlen C ;
     mat_vdim := mat_vdim C ;
     mat_nvec := mat_nvec C ;
     mat_nvec_nonempty := mat_nvec_nonempty C ;
     mat_h := mat_h C ;
     mat_p := mat_p C ;
     mat_i := GB_set_cells (mat_i C) (Ci s) ;
     mat_x := GB_set_cells (mat_x C) (Cx s) ;
     mat_is_hyper := mat_is_hyper C ;
     mat_is_csc := mat_is_csc C ;
     mat_hdr := mat_hdr C |}.

(** The template, run on the storage of C: [Ci = C->i], [Cx = C->x]. *)
Definition GB_add_template (plan : GB_plan) (a : GB_add_phase2_args)
    (sched : list nat) (C : GrB_Matrix) : GB_result GrB_Matrix :=
  let* s := GB_run_tasks plan (in_M a) (in_Mask_struct a) (in_A a) (in_B a)
              (take (in_ntasks a) (in_TaskList a)) sched
              (mkStore (GB_cells (mat_i C)) (GB_cells (mat_x C))) in
  GB_ok (GB_with_storage C s).

(** Modelled from the spec: the kernels [GB_AaddB__*] are generated files.  A
    specialized kernel is compiled for one (operator, types) combination and
    computes, with the template, what the generic plan computes for it; one
    that is compiled out does nothing and returns [GrB_NO_VALUE]. *)
Definition GB_AaddB (cfg : GB_build) (opcode : GB_Opcode) (xcode : GB_Type_code)
    (a : GB_add_phase2_args) (sched : list nat) (C : GrB_Matrix) :
    GB_result (GrB_Info * GrB_Matrix) :=
  if GB_disabled cfg opcode xcode then GB_ok (GrB_NO_VALUE, C)
  else
    let* C' := GB_add_template
                 (GB_generic_plan (GB_cast_factory cfg) (in_ctype a) (in_op a)
                    (in_A a) (in_B a))
                 a sched C in
    GB_ok (GrB_SUCCESS, C').

(** ** GB_add_phase2 *)

(** Lines 120-128: add [Cp] as the vector pointers of C and, if C is
    hypersparse, [Ch] as its hypersparse list. *)
Definition GB_transplant (a : GB_add_phase2_args) (C_is_hyper : bool)
    (C : GrB_Matrix) : GrB_Matrix :=
  {| mat_magic := mat_magic C ;
     mat_type := mat_type C ;
     mat_hyper_ratio := mat_hyper_ratio C ;
     mat_plen := mat_plen C ;
     mat_vlen := mat_vlen C ;
     mat_vdim := mat_vdim C ;
     mat_nvec := if C_is_hyper then in_Cnvec a else mat_nvec C ;
     mat_nvec_nonempty := mat_nvec_nonempty C ;
     mat_h := if C_is_hyper then in_Ch a else mat_h C ;
     mat_p := in_Cp a ;
     mat_i := mat_i C ;
     mat_x := mat_x C ;
     mat_is_hyper := mat_is_hyper C ;
     mat_is_csc := mat_is_csc C ;
     mat_hdr := mat_hdr C |}.

(** Lines 132-133: [C->nvec_nonempty = Cnvec_nonempty ; C->magic = GB_MAGIC]. *)
Definition GB_set_magic (a : GB_add_phase2_args) (C : GrB_Matrix) : GrB_Matrix :=
  {| mat_magic := GB_MAGIC ;
     mat_type := mat_type C ;
     mat_hyper_ratio := mat_hyper_ratio C ;
     mat_plen := mat_plen C ;
     mat_vlen := mat_vlen C ;
     mat_vdim := mat_vdim C ;
     mat_nvec := mat_nvec C ;
     mat_nvec_nonempty := in_Cnvec_nonempty a ;
     mat_h := mat_h C ;
     mat_p := mat_p C ;
     mat_i := mat_i C ;
     mat_x := mat_x C ;
     mat_is_hyper := mat_is_hyper C ;
     mat_is_csc := mat_is_csc C ;
     mat_hdr := mat_hdr C |}.

(** Lines 142-171: the kernel to launch, if any.  Nothing is launched in a
    GBCOMPACT build. *)
Definition GB_launch (cfg : GB_build) (a : GB_add_phase2_args) :
    option (GB_Opcode * GB_Type_code) :=
  if GBCOMPACT cfg then None
  else
    match GB_binop_builtin cfg (mat_type (in_A a)) false
            (mat_type (in_B a)) false (in_op a) false with
    | Some (opcode, xcode, ycode, zcode) =>
        if decide (ty_code (in_ctype a) = zcode)
        then Some (opcode, xcode)
        else None
    | None => None
    end.

(** [GB_BINOP_WORKER]: [info = GB_AaddB (...) ; done = (info != GrB_NO_VALUE)]. *)
Definition GB_BINOP_WORKER (cfg : GB_build) (opcode : GB_Opcode)
    (xcode : GB_Type_code) (a : GB_add_phase2_args) (sched : list nat)
    (C : GrB_Matrix) : GB_result (GrB_Info * bool * GrB_Matrix) :=
  let* r := GB_AaddB cfg opcode xcode a sched C in
  GB_ok (r.1, bool_decide (r.1 <> GrB_NO_VALUE), r.2).

(** Lines 177-258: the generic worker. *)
Definition GB_generic_worker (cfg : GB_build) (a : GB_add_phase2_args)
    (sched : list nat) (C : GrB_Matrix) : GB_result GrB_Matrix :=
  GB_add_template
    (GB_generic_plan (GB_cast_factory cfg) (in_ctype a) (in_op a)
       (in_A a) (in_B a))
    a sched C.

(** The places of the function at which the state is observed. *)
Inductive GB_point :=
  | at_entry            (* line 99, after [( *Chandle) = NULL] *)
  | at_create_failed    (* line 117, before [return (info)] *)
  | at_created          (* line 119, C allocated *)
  | at_transplanted     (* line 130 *)
  | at_magic            (* line 134 *)
  | at_kernel           (* line 152, a specialized kernel is called *)
  | at_generic          (* line 179, the generic worker is entered *)
  | at_pruned           (* line 265, [GB_hypermatrix_prune] has returned *)
  | at_prune_failed     (* line 269, before [return (info)] *)
  | at_return.          (* line 279, before [return (GrB_SUCCESS)] *)

Global Instance GB_point_eq_dec : EqDecision GB_point.
Proof. solve_decision. Defined.

(** The state of the call: the caller's [*Chandle], the local [C], [info]
    and [done], and the heap. *)
Record GB_frame := mkFrame {
  fr_point : GB_point ;
  fr_Chandle : option GrB_Matrix ;
  fr_C : option GrB_Matrix ;
  fr_info : GrB_Info ;
  fr_done : bool ;
  fr_heap : GB_heap
}.

(** How the call ends: it returns [info], or it does not return. *)
Definition GB_end := GB_result GrB_Info.

(** The second half of the function, from line 260: prune and return. *)
Definition GB_phase2_finish (env : GB_env) (done : bool) (hp : GB_heap)
    (C : GrB_Matrix) : list GB_frame * GB_end :=
  let r := GB_hypermatrix_prune (env_prune_ok env) C hp in
  let info := r.1.1 in
  let C := r.1.2 in
  let hp := r.2 in
  let f_pruned := mkFrame at_pruned None (Some C) info done hp in
  if decide (info <> GrB_SUCCESS) then
    (* out of memory *)
    ([f_pruned ;
      mkFrame at_prune_failed None None info done (GB_MATRIX_FREE C hp)],
     GB_ok info)
  else
    ([f_pruned ;
      mkFrame at_return (Some C) (Some C) info done hp],
     GB_ok GrB_SUCCESS).

(** Lines 136-258: the switch factory, then the generic worker if not
    [done].  A kernel that is compiled out returns [GrB_NO_VALUE] and leaves
    [done] false: the generic worker then does the work. *)
Definition GB_phase2_work (cfg : GB_build) (env : GB_env)
    (a : GB_add_phase2_args) (hp : GB_heap) (C : GrB_Matrix) :
    list GB_frame * GB_end :=
  let factory : list GB_frame * GB_result (GrB_Info * bool * GrB_Matrix) :=
    match GB_launch cfg a with
    | Some (opcode, xcode) =>
        ([mkFrame at_kernel None (Some C) GrB_SUCCESS false hp],
         GB_BINOP_WORKER cfg opcode xcode a (env_sched env) C)
    | None => ([], GB_ok (GrB_SUCCESS, false, C))
    end in
  match factory.2 with
  | GB_null_call => (factory.1, GB_null_call)
  | GB_ok (info, true, C) =>
      let r := GB_phase2_finish env true hp C in
      (factory.1 ++ r.1, r.2)
  | GB_ok (info, false, C) =>
      let f_generic := mkFrame at_generic None (Some C) info false hp in
      match GB_generic_worker cfg a (env_sched env) C with
      | GB_null_call => (factory.1 ++ [f_generic], GB_null_call)
      | GB_ok C =>
          let r := GB_phase2_finish env false hp C in
          (factory.1 ++ f_generic :: r.1, r.2)
      end
  end.

(** [GB_add_phase2]: the states the call goes through, in order, and how it
    ends.  [Cp [Cnvec]] is read inside [Cp] when [Cp] has its [Cnvec+1]
    cells, as the counting stage leaves it; a read outside gives 0 here. *)
Definition GB_add_phase2_run (cfg : GB_build) (env : GB_env)
    (a : GB_add_phase2_args) : list GB_frame * GB_end :=
  let cnz := GB_cells (in_Cp a) !!! in_Cnvec a in
  (* ( *Chandle) = NULL *)
  let f_entry := mkFrame at_entry None None GrB_SUCCESS false (env_heap env) in
  let C_is_hyper := bool_decide (in_Ch a <> None) in
  (* allocate the result C (but do not allocate C->p or C->h) *)
  match GB_create (env_create_ok env) (in_ctype a)
          (mat_vlen (in_A a)) (mat_vdim (in_A a)) (in_C_is_csc a) C_is_hyper
          (mat_hyper_ratio (in_A a)) (in_Cnvec a) cnz (env_heap env) with
  | (GrB_SUCCESS, Some C, hp) =>
      let f_created := mkFrame at_created None (Some C) GrB_SUCCESS false hp in
      let C := GB_transplant a C_is_hyper C in
      let f_transplanted :=
        mkFrame at_transplanted None (Some C) GrB_SUCCESS false hp in
      let C := GB_set_magic a C in
      let f_magic := mkFrame at_magic None (Some C) GrB_SUCCESS false hp in
      let r := GB_phase2_work cfg env a hp C in
      (f_entry :: f_created :: f_transplanted :: f_magic :: r.1, r.2)
  | (info, C, hp) =>
      (* out of memory; caller must free C_to_M, C_to_A, C_to_B *)
      let hp := GB_FREE (in_Ch a) (GB_FREE (in_Cp a) hp) in
      ([f_entry ; mkFrame at_create_failed None C info false hp], GB_ok info)
  end.

(** What the caller observes: the state at the last place reached. *)
Definition GB_last_frame (r : list GB_frame * GB_end) : GB_frame :=
  List.last r.1 (mkFrame at_entry None None GrB_SUCCESS false (mkHeap 0 [])).

(** [GB_add_phase2]: the value returned, with [*Chandle] and the heap as the
    call leaves them. *)
Definition GB_add_phase2 (cfg : GB_build) (env : GB_env)
    (a : GB_add_phase2_args) :
    GB_result (GrB_Info * option GrB_Matrix * GB_heap) :=
  let r := GB_add_phase2_run cfg env a in
  let* info := r.2 in
  GB_ok (info, fr_Chandle (GB_last_frame r), fr_heap (GB_last_frame r)).

(** ** The vocabulary of the specification *)

(** The cells [X [p .. p_end-1]]. *)
Definition GB_slice {T} (X : list T) (p p_end : nat) : list T :=
  take (p_end - p) (drop p X).

(** The entries (row index, value) stored at [p .. p_end-1]. *)
Definition GB_entries (Xi : list Z) (Xx : list GB_void) (p p_end : nat) :
    list GB_entry :=
  zip (GB_slice Xi p p_end) (GB_slice Xx p p_end).

(** The value stored at row [i], if the row is present. *)
Fixpoint GB_lookup (i : Z) (es : list GB_entry) : option GB_void :=
  match es with
  | [] => None
  | e :: es => if decide (e.1 = i) then Some e.2 else GB_lookup i es
  end.

(** Row indices strictly ascending. *)
Fixpoint GB_ascending (l : list Z) : bool :=
  match l with
  | i :: l' =>
      match l' with
      | j :: _ => bool_decide (i < j)%Z && GB_ascending l'
      | [] => true
      end
  | [] => true
  end.

(** No row index present in both lists. *)
Definition GB_disjoint (a b : list Z) : bool :=
  forallb (fun i => bool_decide (i ∉ b)) a.

Section merge_spec.

Variable plan : GB_plan.
Variable mij : Z -> bool.

Definition GB_cast_A (e : GB_entry) : GB_entry :=
  (e.1, cast_A_to_C plan e.2 (asize plan)).

Definition GB_cast_B (e : GB_entry) : GB_entry :=
  (e.1, cast_B_to_C plan e.2 (bsize plan)).

Definition GB_masked (es : list GB_entry) : list GB_entry :=
  filter (fun e => mij e.1 = true) es.

(** The merge of section 4.3 of the specification on two entry lists:
    a row only in A is copied from A, a row only in B from B, a row in both
    is combined; only the rows the mask lets through are emitted. *)
Fixpoint GB_merge_spec (a : list GB_entry) :
    list GB_entry -> GB_result (list GB_entry) :=
  fix merge_b (b : list GB_entry) : GB_result (list GB_entry) :=
    match a, b with
    | [], _ => GB_ok (GB_masked (GB_cast_B <$> b))
    | _, [] => GB_ok (GB_masked (GB_cast_A <$> a))
    | ea :: a', eb :: b' =>
        if decide (ea.1 < eb.1)%Z then
          GB_fmap (GB_emit (mij ea.1) (GB_cast_A ea)) (GB_merge_spec a' b)
        else if decide (eb.1 < ea.1)%Z then
          GB_fmap (GB_emit (mij eb.1) (GB_cast_B eb)) (merge_b b')
        else if mij eb.1 then
          let* cij := GB_BINOP plan
                        (cast_A_to_X plan ea.2 (asize plan))
                        (cast_B_to_Y plan eb.2 (bsize plan)) in
          GB_fmap (cons (eb.1, cij)) (GB_merge_spec a' b')
        else GB_merge_spec a' b'
    end.

End merge_spec.

(** The value the rules of section 4.3 give row [i], from what A and B hold
    there. *)
Definition GB_rule (plan : GB_plan) (f : GxB_binary_function)
    (a b : option GB_void) : option GB_void :=
  match a, b with
  | Some aij, Some bij =>
      Some (cast_Z_to_C plan
              (f (cast_A_to_X plan aij (asize plan))
                 (cast_B_to_Y plan bij (bsize plan)))
              (csize plan))
  | Some aij, None => Some (cast_A_to_C plan aij (asize plan))
  | None, Some bij => Some (cast_B_to_C plan bij (bsize plan))
  | None, None => None
  end.

(** ** Well-formed inputs *)

Definition GB_Ai (A : GrB_Matrix) : list Z := GB_cells (mat_i A).
Definition GB_Ax (A : GrB_Matrix) : list GB_void := GB_cells (mat_x A).

(** The part of A (or B) a task reads, and the part of C it writes. *)
Definition GB_task_A (A : GrB_Matrix) (t : GB_task_struct) : list GB_entry :=
  GB_entries (GB_Ai A) (GB_Ax A) (t_pA t) (t_pA_end t).

Definition GB_task_B (B : GrB_Matrix) (t : GB_task_struct) : list GB_entry :=
  GB_entries (GB_Ai B) (GB_Ax B) (t_pB t) (t_pB_end t).

Definition GB_task_M (M : GrB_Matrix) (t : GB_task_struct) : list GB_entry :=
  GB_entries (GB_Ai M) (GB_Ax M) (t_pM t) (t_pM_end t).

Definition GB_task_C (C : GrB_Matrix) (t : GB_task_struct) : list GB_entry :=
  GB_entries (GB_Ai C) (GB_Ax C) (t_pC t) (t_pC_end t).

(** An entry of the mask qualifies when it is present and, for a value mask
    ([Mask_struct] false), its value is truthy. *)
Definition GB_mask_spec (Mask_struct : bool) (msize : nat)
    (m : list GB_entry) (i : Z) : bool :=
  match GB_lookup i m with
  | None => false
  | Some v =>
      Mask_struct || existsb (fun b => negb (Byte.eqb b x00)) (take msize v)
  end.

(** Whether the mask of the call lets row [i] of a task through. *)
Definition GB_task_mask (M : option GrB_Matrix) (Mask_struct : bool)
    (t : GB_task_struct) (i : Z) : bool :=
  match M with
  | None => true
  | Some m => GB_mask_spec Mask_struct (ty_size (mat_type m)) (GB_task_M m t) i
  end.

(** The offsets of a task lie inside the arrays of A, B and M. *)
Definition GB_task_in_bounds (M : option GrB_Matrix) (A B : GrB_Matrix)
    (t : GB_task_struct) : bool :=
  bool_decide (t_pA t <= t_pA_end t <= length (GB_Ai A)) &&
  bool_decide (t_pA_end t <= length (GB_Ax A)) &&
  bool_decide (t_pB t <= t_pB_end t <= length (GB_Ai B)) &&
  bool_decide (t_pB_end t <= length (GB_Ax B)) &&
  match M with
  | None => true
  | Some m =>
      bool_decide (t_pM t <= t_pM_end t <= length (GB_Ai m)) &&
      bool_decide (t_pM_end t <= length (GB_Ax m))
  end.

(** The data-model invariant on the part of A and B a task reads: row
    indices strictly ascending. *)
Definition GB_task_sorted (A B : GrB_Matrix) (t : GB_task_struct) : bool :=
  GB_ascending (GB_task_A A t).*1 && GB_ascending (GB_task_B B t).*1.

(** The number of entries a task emits (0 if it calls the NULL [fadd]). *)
Definition GB_task_len (plan : GB_plan) (M : option GrB_Matrix)
    (Mask_struct : bool) (A B : GrB_Matrix) (t : GB_task_struct) : nat :=
  match GB_task_entries plan M Mask_struct A B t with
  | GB_ok es => length es
  | GB_null_call => 0
  end.

(** The counting stage: the output range of a task is exactly as long as
    what the task emits, and lies inside the storage of C. *)
Definition GB_task_counted (plan : GB_plan) (M : option GrB_Matrix)
    (Mask_struct : bool) (A B : GrB_Matrix) (cnz : nat)
    (t : GB_task_struct) : bool :=
  bool_decide (t_pC_end t = t_pC t + GB_task_len plan M Mask_struct A B t) &&
  bool_decide (t_pC_end t <= cnz).

(** No two tasks own a common output position. *)
Fixpoint GB_tasks_disjoint (ts : list GB_task_struct) : bool :=
  match ts with
  | [] => true
  | t :: ts =>
      forallb (fun u => bool_decide (t_pC_end t <= t_pC u \/ t_pC_end u <= t_pC t)) ts
      && GB_tasks_disjoint ts
  end.

(** The ranges the tasks write do not overlap. *)
Definition GB_writes_disjoint (plan : GB_plan) (M : option GrB_Matrix)
    (Mask_struct : bool) (A B : GrB_Matrix) (ts : list GB_task_struct) : Prop :=
  forall i j t u es eu, i <> j -> ts !! i = Some t -> ts !! j = Some u ->
    GB_task_entries plan M Mask_struct A B t = GB_ok es ->
    GB_task_entries plan M Mask_struct A B u = GB_ok eu ->
    t_pC t + length es <= t_pC u \/ t_pC u + length eu <= t_pC t.

(** The plan both workers run the template with. *)
Definition GB_plan_of (cfg : GB_build) (a : GB_add_phase2_args) : GB_plan :=
  GB_generic_plan (GB_cast_factory cfg) (in_ctype a) (in_op a) (in_A a) (in_B a).

Definition GB_tasks_of (a : GB_add_phase2_args) : list GB_task_struct :=
  take (in_ntasks a) (in_TaskList a).

(** The tasks partition the output: each range is as long as what the task
    emits, and no two ranges overlap. *)
Definition GB_tasks_partition (cfg : GB_build) (a : GB_add_phase2_args) : bool :=
  forallb (GB_task_counted (GB_plan_of cfg a) (in_M a) (in_Mask_struct a)
             (in_A a) (in_B a) (GB_cells (in_Cp a) !!! in_Cnvec a))
    (GB_tasks_of a) &&
  GB_tasks_disjoint (GB_tasks_of a).

(** The data-model invariant on what the tasks read: offsets inside the
    arrays, row indices ascending. *)
Definition GB_inputs_ok (a : GB_add_phase2_args) : bool :=
  forallb (GB_task_in_bounds (in_M a) (in_A a) (in_B a)) (GB_tasks_of a) &&
  forallb (GB_task_sorted (in_A a) (in_B a)) (GB_tasks_of a).

(** The upstream contract on the tasks of a call. *)
Definition GB_tasks_ok (cfg : GB_build) (a : GB_add_phase2_args) : bool :=
  GB_inputs_ok a && GB_tasks_partition cfg a.

(** The same call with another number of threads, and the same environment
    with another order of the tasks. *)
Definition GB_with_nthreads (a : GB_add_phase2_args) (nthreads : nat) :
    GB_add_phase2_args :=
  {| in_ctype := in_ctype a ;
     in_C_is_csc := in_C_is_csc a ;
     in_op := in_op a ;
     in_Cp := in_Cp a ;
     in_Cnvec_nonempty := in_Cnvec_nonempty a ;
     in_TaskList := in_TaskList a ;
     in_ntasks := in_ntasks a ;
     in_nthreads := nthreads ;
     in_Cnvec := in_Cnvec a ;
     in_Ch := in_Ch a ;
     in_C_to_M := in_C_to_M a ;
     in_C_to_A := in_C_to_A a ;
     in_C_to_B := in_C_to_B a ;
     in_Ch_is_Mh := in_Ch_is_Mh a ;
     in_M := in_M a ;
     in_Mask_struct := in_Mask_struct a ;
     in_A := in_A a ;
     in_B := in_B a |}.

Definition GB_with_sched (env : GB_env) (sched : list nat) : GB_env :=
  mkEnv (env_heap env) (env_create_ok env) (env_prune_ok env) sched.

(** Every value of a matrix has the size of the type of the matrix. *)
Definition GB_sized (A : GrB_Matrix) : bool :=
  forallb (fun v => bool_decide (length v = ty_size (mat_type A))) (GB_Ax A).

(** [op] may be NULL; in this case the intersection of A and B must be
    empty: no task finds a row in both. *)
Definition GB_op_null_ok (a : GB_add_phase2_args) : bool :=
  match in_op a with
  | Some _ => true
  | None =>
      forallb (fun t => GB_disjoint (GB_task_A (in_A a) t).*1
                          (GB_task_B (in_B a) t).*1)
        (GB_tasks_of a)
  end.

(** A schedule runs every task once: it is a permutation of the task ids
    (sorted, it is [0, 1, ..., ntasks-1]). *)
Definition GB_sched_ok (a : GB_add_phase2_args) (sched : list nat) : bool :=
  bool_decide (merge_sort Nat.le sched = seq 0 (length (GB_tasks_of a))).

(** The rule of section 4.3 with the combinator as the generic worker calls
    it: with no operator, a row in both A and B is where the NULL [fadd] is
    called. *)
Definition GB_rule_result (plan : GB_plan) (a b : option GB_void) :
    GB_result (option GB_void) :=
  match a, b with
  | Some aij, Some bij =>
      GB_fmap Some
        (GB_BINOP plan (cast_A_to_X plan aij (asize plan))
           (cast_B_to_Y plan bij (bsize plan)))
  | Some aij, None => GB_ok (Some (cast_A_to_C plan aij (asize plan)))
  | None, Some bij => GB_ok (Some (cast_B_to_C plan bij (bsize plan)))
  | None, None => GB_ok None
  end.

(** ** The stages of a call *)

(** [cnz = Cp [Cnvec]] *)
Definition GB_cnz (a : GB_add_phase2_args) : nat :=
  GB_cells (in_Cp a) !!! in_Cnvec a.

Definition GB_C_is_hyper (a : GB_add_phase2_args) : bool :=
  bool_decide (in_Ch a <> None).

(** C at line 134, when [GB_create] has succeeded: allocated, [Cp] and [Ch]
    transplanted, marked valid. *)
Definition GB_shell (env : GB_env) (a : GB_add_phase2_args) : GrB_Matrix :=
  GB_set_magic a
    (GB_transplant a (GB_C_is_hyper a)
       (GB_new (in_ctype a) (mat_vlen (in_A a)) (mat_vdim (in_A a))
          (in_C_is_csc a) (GB_C_is_hyper a) (mat_hyper_ratio (in_A a))
          (in_Cnvec a) (GB_cnz a) (heap_next (env_heap env)))).

(** The heap once [GB_create] has succeeded. *)
Definition GB_shell_heap (env : GB_env) : GB_heap :=
  mkHeap (3 + heap_next (env_heap env)) (heap_freed (env_heap env)).

(** A place of the function is on the trace of a call. *)
Definition GB_reaches (r : list GB_frame * GB_end) (pt : GB_point) : Prop :=
  exists f, f ∈ r.1 /\ fr_point f = pt.

(** The places at which [GB_hypermatrix_prune] has returned. *)
Definition GB_after_prune (pt : GB_point) : bool :=
  match pt with
  | at_pruned | at_prune_failed | at_return => true
  | _ => false
  end.

(** The states up to line 134, when [GB_create] has succeeded. *)
Definition GB_prefix (env : GB_env) (a : GB_add_phase2_args) : list GB_frame :=
  let C := GB_new (in_ctype a) (mat_vlen (in_A a)) (mat_vdim (in_A a))
             (in_C_is_csc a) (GB_C_is_hyper a) (mat_hyper_ratio (in_A a))
             (in_Cnvec a) (GB_cnz a) (heap_next (env_heap env)) in
  [ mkFrame at_entry None None GrB_SUCCESS false (env_heap env) ;
    mkFrame at_created None (Some C) GrB_SUCCESS false (GB_shell_heap env) ;
    mkFrame at_transplanted None (Some (GB_transplant a (GB_C_is_hyper a) C))
      GrB_SUCCESS false (GB_shell_heap env) ;
    mkFrame at_magic None (Some (GB_shell env a)) GrB_SUCCESS false
      (GB_shell_heap env) ].

(** Whether a specialized kernel does the work of the call. *)
Definition GB_kernel_done (cfg : GB_build) (a : GB_add_phase2_args) : bool :=
  match GB_launch cfg a with
  | Some (opcode, xcode) => negb (GB_disabled cfg opcode xcode)
  | None => false
  end.

(** The states at which the workers are called. *)
Definition GB_work_frames (cfg : GB_build) (env : GB_env)
    (a : GB_add_phase2_args) : list GB_frame :=
  match GB_launch cfg a with
  | Some _ =>
      [mkFrame at_kernel None (Some (GB_shell env a)) GrB_SUCCESS false
         (GB_shell_heap env)]
  | None => []
  end ++
  (if GB_kernel_done cfg a then []
   else [mkFrame at_generic None (Some (GB_shell env a))
           (match GB_launch cfg a with
            | Some _ => GrB_NO_VALUE
            | None => GrB_SUCCESS
            end) false
           (GB_shell_heap env)]).

(** What the template makes of C, whichever worker runs it. *)
Definition GB_merged (cfg : GB_build) (env : GB_env) (a : GB_add_phase2_args) :
    GB_result GrB_Matrix :=
  GB_add_template (GB_plan_of cfg a) a (env_sched env) (GB_shell env a).

(** The condition of line 164-165: the operator is recognized as built-in
    and the type code of C is the code of the operator's result. *)
Definition GB_kernel_cond (cfg : GB_build) (a : GB_add_phase2_args) : Prop :=
  exists opcode xcode ycode zcode,
    GB_binop_builtin cfg (mat_type (in_A a)) false (mat_type (in_B a)) false
      (in_op a) false = Some (opcode, xcode, ycode, zcode) /\
    ty_code (in_ctype a) = zcode.

(** The dispatch as the specification words it: a specialized kernel is
    selected if and only if the condition holds; in every other case the
    generic worker is executed. *)
Definition GB_dispatch_by_cond (cfg : GB_build) (env : GB_env)
    (a : GB_add_phase2_args) : Prop :=
  (GB_reaches (GB_add_phase2_run cfg env a) at_kernel <-> GB_kernel_cond cfg a) /\
  (~ GB_kernel_cond cfg a -> GB_reaches (GB_add_phase2_run cfg env a) at_generic).

(** The promotion as the specification words it: at every place where C is
    marked valid, the pruning step has completed. *)
Definition GB_valid_only_after_prune (r : list GB_frame * GB_end) : Prop :=
  forall f C, f ∈ r.1 -> fr_C f = Some C -> mat_magic C = GB_MAGIC ->
    GB_after_prune (fr_point f) = true.

(** The places of a trace, in order. *)
Definition GB_points (r : list GB_frame * GB_end) : list GB_point :=
  fr_point <$> r.1.

(** ** Blocks and preconditions *)

(** The block a pointer holds, if it is not NULL. *)
Definition GB_ptr_blocks {T} (p : option (GB_array T)) : list nat :=
  match p with
  | Some a => [blk a]
  | None => []
  end.

(** Whether the pruning step has something to remove: C is hypersparse and
    some vector of the layout is empty. *)
Definition GB_compacts (a : GB_add_phase2_args) : bool :=
  GB_C_is_hyper a &&
  negb (bool_decide
          (length (GB_hyper_prune (GB_cells (in_Ch a)) (GB_cells (in_Cp a))).1
           = length (GB_cells (in_Ch a)))).

(** What the call adds to the log of freed blocks, by outcome.  On success:
    nothing, or [Cp] and [Ch] when the pruning step has put the compacted
    arrays in their place.  On a failure: [Cp], [Ch] when [GB_create]
    fails; [Cp], [Ch] and the storage and header of C when the pruning step
    fails. *)
Definition GB_freed_by_call (env : GB_env) (a : GB_add_phase2_args)
    (info : GrB_Info) : list nat :=
  if decide (info = GrB_SUCCESS) then
    if GB_compacts a
    then GB_ptr_blocks (in_Cp a) ++ GB_ptr_blocks (in_Ch a)
    else []
  else
    GB_ptr_blocks (in_Cp a) ++ GB_ptr_blocks (in_Ch a) ++
    (if env_create_ok env
     then [S (heap_next (env_heap env)); S (S (heap_next (env_heap env)));
           heap_next (env_heap env)]
     else []).

(** The blocks the call has allocated when it returns: the header and the
    storage of C, and the two arrays of a compaction. *)
Definition GB_allocated_by_call (env : GB_env) (a : GB_add_phase2_args)
    (info : GrB_Info) : nat :=
  (if env_create_ok env then 3 else 0) +
  (if decide (info = GrB_SUCCESS) then if GB_compacts a then 2 else 0 else 0).

(** Lines 69, 74 and 76-84: the inputs the ASSERTs let through
    ([ASSERT_MATRIX_OK] and [GB_Type_compatible] are checked elsewhere). *)
Definition GB_ASSERT_inputs (a : GB_add_phase2_args) : Prop :=
  in_Cp a <> None /\
  mat_vdim (in_A a) = mat_vdim (in_B a) /\
  match in_op a with
  | None =>
      in_ctype a = mat_type (in_A a) /\
      in_ctype a = mat_type (in_B a) /\
      in_M a = None
  | Some _ => True
  end.

(** What a state of the call can be: nothing built; C under construction; C
    valid and still local; C valid and handed to the caller. *)
Definition GB_frame_kind (f : GB_frame) : Prop :=
  (fr_Chandle f = None /\ fr_C f = None /\
   (fr_point f = at_entry \/ fr_point f = at_create_failed \/
    fr_point f = at_prune_failed)) \/
  (fr_Chandle f = None /\
   (exists C, fr_C f = Some C /\ mat_magic C = GB_MAGIC2) /\
   (fr_point f = at_created \/ fr_point f = at_transplanted)) \/
  (fr_Chandle f = None /\
   (exists C, fr_C f = Some C /\ mat_magic C = GB_MAGIC) /\
   (fr_point f = at_magic \/ fr_point f = at_kernel \/
    fr_point f = at_generic \/ fr_point f = at_pruned)) \/
  ((exists C, fr_Chandle f = Some C /\ fr_C f = Some C /\
      mat_magic C = GB_MAGIC) /\
   fr_point f = at_return).


(** ** Vectors

    Modelled from the spec (section 3): the entries between pointer [k] and
    pointer [k+1] of the vector-pointer array belong to the vector in slot
    [k]; the vector has the identity [h [k]] in the hypersparse
    representation and [k] otherwise. *)

Global Instance GB_byte_eq_dec : EqDecision byte.
Proof.
  intros x y. destruct (Byte.eqb x y) eqn:Heq.
  - left. by apply Byte.byte_dec_bl.
  - right. intros ->. by rewrite Byte.byte_dec_lb in Heq.
Defined.

(** The slots of a matrix: identity, first position, position after the
    last. *)
Definition GB_ranges (ids : list Z) (p : list nat) : list (Z * (nat * nat)) :=
  zip ids (zip p (tail p)).

(** The data-model invariant on the vector pointers: they do not
    decrease. *)
Definition GB_pointers_ok (p : list nat) : bool :=
  forallb (fun r => bool_decide (r.1 <= r.2)) (zip p (tail p)).

Definition GB_identities (is_hyper : bool) (h : list Z) (nvec : nat) : list Z :=
  if is_hyper then h else Z.of_nat <$> seq 0 nvec.

(** The entries of a slot, under the identity of the vector. *)
Definition GB_slot_entries (Xi : list Z) (Xx : list GB_void)
    (r : Z * (nat * nat)) : Z * list GB_entry :=
  (r.1, GB_entries Xi Xx r.2.1 r.2.2).

(** The vectors of a matrix, in the order of the slots. *)
Definition GB_vectors (C : GrB_Matrix) : list (Z * list GB_entry) :=
  GB_slot_entries (GB_Ai C) (GB_Ax C) <$>
  GB_ranges
    (GB_identities (mat_is_hyper C) (GB_cells (mat_h C))
       (length (GB_cells (mat_p C)) - 1))
    (GB_cells (mat_p C)).

Fixpoint GB_find_vector (j : Z) (vs : list (Z * list GB_entry)) :
    list GB_entry :=
  match vs with
  | [] => []
  | v :: vs => if decide (v.1 = j) then v.2 else GB_find_vector j vs
  end.

(** [A(:,j)]: the entries of vector [j], none if the matrix holds no such
    vector. *)
Definition GB_vector_at (A : GrB_Matrix) (j : Z) : list GB_entry :=
  GB_find_vector j (GB_vectors A).

(** C has an entry at (row [i], vector [j]). *)
Definition GB_has_entry (C : GrB_Matrix) (i j : Z) : Prop :=
  exists Cj, (j, Cj) ∈ GB_vectors C /\ i ∈ Cj.*1.

(** The data-model invariant: the row indices of every vector are strictly
    ascending. *)
Definition GB_matrix_sorted (A : GrB_Matrix) : bool :=
  forallb (fun v => GB_ascending v.2.*1) (GB_vectors A).

(** Whether [M(i,j)] is an entry that qualifies. *)
Definition GB_vector_mask (M : option GrB_Matrix) (Mask_struct : bool)
    (j i : Z) : bool :=
  match M with
  | None => true
  | Some m =>
      GB_mask_spec Mask_struct (ty_size (mat_type m)) (GB_vector_at m j) i
  end.

(** ** The layout of C and the tasks

    Modelled from the spec (sections 3 and 6): the upstream stages hand
    over the layout of C, slot [k] being the vector [Ch [k]] ([k] if there
    is no [Ch]) in the positions [Cp [k] .. Cp [k+1]-1], and the tasks, each
    one a whole vector of the layout or a contiguous part of one. *)

Definition GB_layout (a : GB_add_phase2_args) : list (Z * (nat * nat)) :=
  GB_ranges
    (GB_identities (GB_C_is_hyper a) (GB_cells (in_Ch a)) (in_Cnvec a))
    (GB_cells (in_Cp a)).

(** The tasks of slot [k], in the order of the task list. *)
Definition GB_pieces (a : GB_add_phase2_args) (k : nat) : list GB_task_struct :=
  filter (fun t => t_kfirst t = k) (GB_tasks_of a).

(** The row indices a task reads. *)
Definition GB_task_rows (A B : GrB_Matrix) (t : GB_task_struct) : list Z :=
  (GB_task_A A t ++ GB_task_B B t).*1.

(** The ranges follow one another from [s] to [e]. *)
Fixpoint GB_chain (rs : list (nat * nat)) (s e : nat) : bool :=
  match rs with
  | [] => bool_decide (s = e)
  | r :: rs =>
      bool_decide (r.1 = s) && bool_decide (r.1 <= r.2) && GB_chain rs r.2 e
  end.

(** A vector is cut at row indices: the rows of a piece are below the rows
    of the pieces after it. *)
Fixpoint GB_rows_split (ls : list (list Z)) : bool :=
  match ls with
  | [] => true
  | l :: ls =>
      forallb (fun i =>
                 forallb (fun l' => forallb (fun i' => bool_decide (i < i')%Z) l')
                   ls) l
      && GB_rows_split ls
  end.

(** The tasks of slot [k] cover the vector: their output ranges follow one
    another from [Cp [k]] to [Cp [k+1]]; together they read the whole of
    [A(:,j)] and of [B(:,j)], cut at row indices; and each one looks the
    rows it reads up in the part of [M(:,j)] where they can be. *)
Definition GB_slot_ok (a : GB_add_phase2_args) (k : nat) : bool :=
  match GB_layout a !! k with
  | None => false
  | Some r =>
      let ts := GB_pieces a k in
      GB_chain ((fun t => (t_pC t, t_pC_end t)) <$> ts) r.2.1 r.2.2 &&
      bool_decide (concat (GB_task_A (in_A a) <$> ts)
                   = GB_vector_at (in_A a) r.1) &&
      bool_decide (concat (GB_task_B (in_B a) <$> ts)
                   = GB_vector_at (in_B a) r.1) &&
      GB_rows_split (GB_task_rows (in_A a) (in_B a) <$> ts) &&
      forallb
        (fun t =>
           forallb
             (fun i =>
                bool_decide
                  (GB_task_mask (in_M a) (in_Mask_struct a) t i
                   = GB_vector_mask (in_M a) (in_Mask_struct a) r.1 i))
             (GB_task_rows (in_A a) (in_B a) t))
        ts
  end.

(** The upstream contract on the layout and the tasks: [Cp] has [Cnvec+1]
    cells, every slot is covered by its tasks, and every task belongs to a
    slot and has its offsets inside the arrays of A, B and M. *)
Definition GB_tasks_cover (a : GB_add_phase2_args) : bool :=
  bool_decide (length (GB_cells (in_Cp a)) = S (in_Cnvec a)) &&
  forallb (GB_slot_ok a) (seq 0 (in_Cnvec a)) &&
  forallb (fun t => bool_decide (t_kfirst t < in_Cnvec a) &&
                    GB_task_in_bounds (in_M a) (in_A a) (in_B a) t)
    (GB_tasks_of a).

(** The upstream contract of a call: the layout, the tasks, and the counts
    of the counting stage. *)
Definition GB_upstream_ok (cfg : GB_build) (a : GB_add_phase2_args) : bool :=
  GB_tasks_cover a && GB_tasks_partition cfg a.

(** [op] may be NULL; in this case the intersection of A and B must be
    empty: no vector of the layout has a row index in both. *)
Definition GB_no_op_ok (a : GB_add_phase2_args) : bool :=
  match in_op a with
  | Some _ => true
  | None =>
      forallb (fun r => GB_disjoint (GB_vector_at (in_A a) r.1).*1
                          (GB_vector_at (in_B a) r.1).*1)
        (GB_layout a)
  end.

(** Some vector of the layout has a row index in both A and B. *)
Definition GB_overlap (a : GB_add_phase2_args) : Prop :=
  exists j i, j ∈ (GB_layout a).*1 /\
    i ∈ (GB_vector_at (in_A a) j).*1 /\ i ∈ (GB_vector_at (in_B a) j).*1.

(** The call with no operator on overlapping matrices, as the specification
    words it: the contract violation is signalled, the call does not
    return a value. *)
Definition GB_violation_signalled (cfg : GB_build) (env : GB_env)
    (a : GB_add_phase2_args) : Prop :=
  in_op a = None -> GB_overlap a -> GB_add_phase2 cfg env a = GB_null_call.

(** ** The rules of the merge, conversions written out

    The rules of section 4.3 of the specification with the conversions of
    section 4.1: a value only in A is converted from the type of A to the
    type of C, a value only in B from the type of B to the type of C; values
    in both are converted to the operand types of the operator, combined,
    and the result is converted from the result type of the operator to the
    type of C. *)
Definition GB_add_rule (cfg : GB_build) (ctype : GrB_Type) (o : GrB_BinaryOp)
    (A B : GrB_Matrix) (a b : option GB_void) : option GB_void :=
  let acode := ty_code (mat_type A) in
  let bcode := ty_code (mat_type B) in
  let asize := ty_size (mat_type A) in
  let bsize := ty_size (mat_type B) in
  match a, b with
  | Some aij, Some bij =>
      let x := GB_cast_factory cfg (ty_code (op_xtype o)) acode aij asize in
      let y := GB_cast_factory cfg (ty_code (op_ytype o)) bcode bij bsize in
      Some (GB_cast_factory cfg (ty_code ctype) (ty_code (op_ztype o))
              (op_function o x y) (ty_size ctype))
  | Some aij, None =>
      Some (GB_cast_factory cfg (ty_code ctype) acode aij asize)
  | None, Some bij =>
      Some (GB_cast_factory cfg (ty_code ctype) bcode bij bsize)
  | None, None => None
  end.

(** The vector is what the two-pointer loops of its tasks emit, one task
    after the other. *)
Definition GB_emitted (cfg : GB_build) (a : GB_add_phase2_args) (k : nat)
    (Cj : list GB_entry) : Prop :=
  exists outs,
    Forall2 (fun t es =>
               GB_task_entries (GB_plan_of cfg a) (in_M a) (in_Mask_struct a)
                 (in_A a) (in_B a) t = GB_ok es)
      (GB_pieces a k) outs /\
    Cj = concat outs.

(** ** Concrete calls

    The scenarios of section 8 of the specification, over a one-byte type. *)

Definition ex_type : GrB_Type := mkType 2%Z 1.

Definition ex_bool : GrB_Type := mkType 0%Z 1.

(** Byte addition, modulo 256. *)
Definition ex_plus_f : GxB_binary_function :=
  fun x y =>
    match x, y with
    | [a], [b] =>
        [default x00 (Byte.of_N ((Byte.to_N a + Byte.to_N b) mod 256))]
    | _, _ => []
    end.

Definition ex_plus : GrB_BinaryOp := mkBinaryOp ex_type ex_type ex_type ex_plus_f 7%Z.

(** A user-defined operator: not in the catalog. *)
Definition ex_user_op : GrB_BinaryOp :=
  mkBinaryOp ex_type ex_type ex_type ex_plus_f 99%Z.

(** The catalog holds the opcodes below 50; every kernel is compiled in; the
    one conversion between one-byte types is the copy. *)
Definition ex_build (compact : bool) : GB_build :=
  mkBuild compact (fun opcode => bool_decide (opcode < 50)%Z)
    (fun _ _ => false) (fun _ _ => GB_copy_user_user).

Definition ex_matrix (p : list nat) (h : option (list Z)) (i : list Z)
    (x : list GB_void) (b : nat) : GrB_Matrix :=
  {| mat_magic := GB_MAGIC ;
     mat_type := ex_type ;
     mat_hyper_ratio := 0%Q ;
     mat_plen := length p - 1 ;
     mat_vlen := 4%Z ;
     mat_vdim := 2%Z ;
     mat_nvec := length p - 1 ;
     mat_nvec_nonempty := (-1)%Z ;
     mat_h := mkArray (b + 1) <$> h ;
     mat_p := Some (mkArray (b + 2) p) ;
     mat_i := Some (mkArray (b + 3) i) ;
     mat_x := Some (mkArray (b + 4) x) ;
     mat_is_hyper := bool_decide (h <> None) ;
     mat_is_csc := true ;
     mat_hdr := b |}.

(** A: vector 0 = {row 1: 10}, vector 1 = {row 2: 20}. *)
Definition ex_A : GrB_Matrix :=
  ex_matrix [0; 1; 2] None [1; 2]%Z [[x0a]; [x14]] 10.

(** B: vector 0 = {row 1: 5, row 3: 7}, vector 1 = {}. *)
Definition ex_B : GrB_Matrix :=
  ex_matrix [0; 2; 2] None [1; 3]%Z [[x05]; [x07]] 20.

(** M: vector 0 = {row 1: 0, row 3: 1}, vector 1 = {row 2: 1}. *)
Definition ex_M : GrB_Matrix :=
  ex_matrix [0; 2; 3] None [1; 3; 2]%Z [[x00]; [x01]; [x01]] 30.

Definition ex_heap : GB_heap := mkHeap 100 [].

Definition ex_env (create_ok prune_ok : bool) (sched : list nat) : GB_env :=
  mkEnv ex_heap create_ok prune_ok sched.

(** C = A + B: Cp = [0,2,3], one task per vector. *)
Definition ex_add_args (op : option GrB_BinaryOp) : GB_add_phase2_args :=
  {| in_ctype := ex_type ;
     in_C_is_csc := true ;
     in_op := op ;
     in_Cp := Some (mkArray 50 [0; 2; 3]) ;
     in_Cnvec_nonempty := 2%Z ;
     in_TaskList := [ mkTask 0 0 2 0 0 0 1 0 2 ; mkTask 1 2 3 0 0 1 2 2 2 ] ;
     in_ntasks := 2 ;
     in_nthreads := 2 ;
     in_Cnvec := 2 ;
     in_Ch := None ;
     in_C_to_M := None ;
     in_C_to_A := None ;
     in_C_to_B := None ;
     in_Ch_is_Mh := false ;
     in_M := None ;
     in_Mask_struct := false ;
     in_A := ex_A ;
     in_B := ex_B |}.

(** C<M> = A + B with the value mask M: row 1 of vector 0 is suppressed, its
    mask value is zero.  Cp = [0,1,2]. *)
Definition ex_masked_args (Mask_struct : bool) : GB_add_phase2_args :=
  {| in_ctype := ex_type ;
     in_C_is_csc := true ;
     in_op := Some ex_plus ;
     in_Cp := Some (mkArray 50
                (if Mask_struct then [0; 2; 3] else [0; 1; 2])) ;
     in_Cnvec_nonempty := 2%Z ;
     in_TaskList :=
       if Mask_struct
       then [ mkTask 0 0 2 0 2 0 1 0 2 ; mkTask 1 2 3 2 3 1 2 2 2 ]
       else [ mkTask 0 0 1 0 2 0 1 0 2 ; mkTask 1 1 2 2 3 1 2 2 2 ] ;
     in_ntasks := 2 ;
     in_nthreads := 2 ;
     in_Cnvec := 2 ;
     in_Ch := None ;
     in_C_to_M := None ;
     in_C_to_A := None ;
     in_C_to_B := None ;
     in_Ch_is_Mh := false ;
     in_M := Some ex_M ;
     in_Mask_struct := Mask_struct ;
     in_A := ex_A ;
     in_B := ex_B |}.

(** B': vector 0 = {row 0: 5, row 3: 7}, vector 1 = {}: no row in common
    with A. *)
Definition ex_B_disjoint : GrB_Matrix :=
  ex_matrix [0; 2; 2] None [0; 3]%Z [[x05]; [x07]] 20.

(** C = A + B' with no operator: Cp = [0,3,4]. *)
Definition ex_wait_args : GB_add_phase2_args :=
  {| in_ctype := ex_type ;
     in_C_is_csc := true ;
     in_op := None ;
     in_Cp := Some (mkArray 50 [0; 3; 4]) ;
     in_Cnvec_nonempty := 2%Z ;
     in_TaskList := [ mkTask 0 0 3 0 0 0 1 0 2 ; mkTask 1 3 4 0 0 1 2 2 2 ] ;
     in_ntasks := 2 ;
     in_nthreads := 2 ;
     in_Cnvec := 2 ;
     in_Ch := None ;
     in_C_to_M := None ;
     in_C_to_A := None ;
     in_C_to_B := None ;
     in_Ch_is_Mh := false ;
     in_M := None ;
     in_Mask_struct := false ;
     in_A := ex_A ;
     in_B := ex_B_disjoint |}.

(** M': vector 0 = {row 1: 0, row 3: 1}, vector 1 = {row 2: 0}. *)
Definition ex_M_empty : GrB_Matrix :=
  ex_matrix [0; 2; 3] (Some [0; 1]%Z) [1; 3; 2]%Z [[x00]; [x01]; [x00]] 30.

(** C<M'> = A + B, hypersparse: Ch = [0,1], Cp = [0,1,1]; vector 1 of C is
    empty. *)
Definition ex_hyper_args : GB_add_phase2_args :=
  {| in_ctype := ex_type ;
     in_C_is_csc := true ;
     in_op := Some ex_plus ;
     in_Cp := Some (mkArray 50 [0; 1; 1]) ;
     in_Cnvec_nonempty := 1%Z ;
     in_TaskList := [ mkTask 0 0 1 0 2 0 1 0 2 ; mkTask 1 1 1 2 3 1 2 2 2 ] ;
     in_ntasks := 2 ;
     in_nthreads := 2 ;
     in_Cnvec := 2 ;
     in_Ch := Some (mkArray 51 [0; 1]%Z) ;
     in_C_to_M := Some (mkArray 52 [0; 1]%Z) ;
     in_C_to_A := Some (mkArray 53 [0; 1]%Z) ;
     in_C_to_B := Some (mkArray 54 [0; 1]%Z) ;
     in_Ch_is_Mh := true ;
     in_M := Some ex_M_empty ;
     in_Mask_struct := false ;
     in_A := ex_A ;
     in_B := ex_B |}.

(** A build in which every specialized kernel is compiled out. *)
Definition ex_build_no_kernels : GB_build :=
  mkBuild false (fun opcode => bool_decide (opcode < 50)%Z)
    (fun _ _ => true) (fun _ _ => GB_copy_user_user).

(** The sum of section 8: vector 0 = {row 1: 15, row 3: 7}, vector 1 =
    {row 2: 20}, vector pointers [0,2,3]. *)
Definition ex_sum : GrB_Matrix :=
  {| mat_magic := GB_MAGIC ;
     mat_type := ex_type ;
     mat_hyper_ratio := 0%Q ;
     mat_plen := 2 ;
     mat_vlen := 4%Z ;
     mat_vdim := 2%Z ;
     mat_nvec := 2 ;
     mat_nvec_nonempty := 2%Z ;
     mat_h := None ;
     mat_p := Some (mkArray 50 [0; 2; 3]) ;
     mat_i := Some (mkArray 101 [1; 3; 2]%Z) ;
     mat_x := Some (mkArray 102 [[x0f]; [x07]; [x14]]) ;
     mat_is_hyper := false ;
     mat_is_csc := true ;
     mat_hdr := 100 |}.

(** A'': vector 0 = {row 1: 10, row 5: 1}, vector 1 = {row 2: 20}. *)
Definition ex_A_long : GrB_Matrix :=
  ex_matrix [0; 2; 3] None [1; 5; 2]%Z [[x0a]; [x01]; [x14]] 10.

(** B'': vector 0 = {row 3: 7, row 6: 2}, vector 1 = {}. *)
Definition ex_B_long : GrB_Matrix :=
  ex_matrix [0; 2; 2] None [3; 6]%Z [[x07]; [x02]] 20.

(** C = A'' + B'', vector 0 cut at row 4 into two tasks: Cp = [0,4,5]. *)
Definition ex_split_args : GB_add_phase2_args :=
  {| in_ctype := ex_type ;
     in_C_is_csc := true ;
     in_op := Some ex_plus ;
     in_Cp := Some (mkArray 50 [0; 4; 5]) ;
     in_Cnvec_nonempty := 2%Z ;
     in_TaskList := [ mkTask 0 0 2 0 0 0 1 0 1 ; mkTask 0 2 4 0 0 1 2 1 2 ;
                      mkTask 1 4 5 0 0 2 3 2 2 ] ;
     in_ntasks := 3 ;
     in_nthreads := 2 ;
     in_Cnvec := 2 ;
     in_Ch := None ;
     in_C_to_M := None ;
     in_C_to_A := None ;
     in_C_to_B := None ;
     in_Ch_is_Mh := false ;
     in_M := None ;
     in_Mask_struct := false ;
     in_A := ex_A_long ;
     in_B := ex_B_long |}.

(** What the call on [ex_split_args] returns: vector 0 = {row 1: 10,
    row 3: 7, row 5: 1, row 6: 2}, vector 1 = {row 2: 20}. *)
Definition ex_split_sum : GrB_Matrix :=
  {| mat_magic := GB_MAGIC ;
     mat_type := ex_type ;
     mat_hyper_ratio := 0%Q ;
     mat_plen := 2 ;
     mat_vlen := 4%Z ;
     mat_vdim := 2%Z ;
     mat_nvec := 2 ;
     mat_nvec_nonempty := 2%Z ;
     mat_h := None ;
     mat_p := Some (mkArray 50 [0; 4; 5]) ;
     mat_i := Some (mkArray 101 [1; 3; 5; 6; 2]%Z) ;
     mat_x := Some (mkArray 102 [[x0a]; [x07]; [x01]; [x02]; [x14]]) ;
     mat_is_hyper := false ;
     mat_is_csc := true ;
     mat_hdr := 100 |}.

(** What the call on [ex_masked_args false] returns: vector 0 = {row 3: 7},
    vector 1 = {row 2: 20}. *)
Definition ex_masked_sum : GrB_Matrix :=
  {| mat_magic := GB_MAGIC ;
     mat_type := ex_type ;
     mat_hyper_ratio := 0%Q ;
     mat_plen := 2 ;
     mat_vlen := 4%Z ;
     mat_vdim := 2%Z ;
     mat_nvec := 2 ;
     mat_nvec_nonempty := 2%Z ;
     mat_h := None ;
     mat_p := Some (mkArray 50 [0; 1; 2]) ;
     mat_i := Some (mkArray 101 [3; 2]%Z) ;
     mat_x := Some (mkArray 102 [[x07]; [x14]]) ;
     mat_is_hyper := false ;
     mat_is_csc := true ;
     mat_hdr := 100 |}.

(** What the call on [ex_wait_args] returns: vector 0 = {row 0: 5,
    row 1: 10, row 3: 7}, vector 1 = {row 2: 20}. *)
Definition ex_wait_sum : GrB_Matrix :=
  {| mat_magic := GB_MAGIC ;
     mat_type := ex_type ;
     mat_hyper_ratio := 0%Q ;
     mat_plen := 2 ;
     mat_vlen := 4%Z ;
     mat_vdim := 2%Z ;
     mat_nvec := 2 ;
     mat_nvec_nonempty := 2%Z ;
     mat_h := None ;
     mat_p := Some (mkArray 50 [0; 3; 4]) ;
     mat_i := Some (mkArray 101 [0; 1; 3; 2]%Z) ;
     mat_x := Some (mkArray 102 [[x05]; [x0a]; [x07]; [x14]]) ;
     mat_is_hyper := false ;
     mat_is_csc := true ;
     mat_hdr := 100 |}.

(** What the call on [ex_hyper_args] returns: the empty vector 1 is pruned,
    the compacted list and vector pointers are in new blocks. *)
Definition ex_hyper_sum : GrB_Matrix :=
  {| mat_magic := GB_MAGIC ;
     mat_type := ex_type ;
     mat_hyper_ratio := 0%Q ;
     mat_plen := 1 ;
     mat_vlen := 4%Z ;
     mat_vdim := 2%Z ;
     mat_nvec := 1 ;
     mat_nvec_nonempty := 1%Z ;
     mat_h := Some (mkArray 104 [0]%Z) ;
     mat_p := Some (mkArray 103 [0; 1]) ;
     mat_i := Some (mkArray 101 [3]%Z) ;
     mat_x := Some (mkArray 102 [[x07]]) ;
     mat_is_hyper := true ;
     mat_is_csc := true ;
     mat_hdr := 100 |}.

(** * Properties *)

(** ** Slices *)

Lemma GB_slice_nil {T} (X : list T) (p p_end : nat) :
  p_end <= p -> GB_slice X p p_end = [].
Proof.
  intros Hle. unfold GB_slice.
  replace (p_end - p) with 0 by lia. reflexivity.
Qed.

Lemma GB_slice_cons {T} `{Inhabited T} (X : list T) (p p_end : nat) :
  p < p_end -> p_end <= length X ->
  GB_slice X p p_end = X !!! p :: GB_slice X (S p) p_end.
Proof.
  intros Hlt Hlen. unfold GB_slice.
  destruct (lookup_lt_is_Some_2 X p) as [x Hx]; [lia|].
  rewrite (drop_S _ _ _ Hx).
  replace (p_end - p) with (S (p_end - S p)) by lia.
  rewrite (list_lookup_total_correct _ _ _ Hx). reflexivity.
Qed.

Lemma GB_slice_length {T} (X : list T) (p p_end : nat) :
  p_end <= length X -> length (GB_slice X p p_end) = p_end - p.
Proof.
  intros Hlen. unfold GB_slice. rewrite length_take, length_drop. lia.
Qed.

Lemma GB_slice_lookup {T} (X : list T) (p p_end k : nat) :
  k < p_end - p -> GB_slice X p p_end !! k = X !! (p + k).
Proof.
  intros Hk. unfold GB_slice. rewrite lookup_take_lt by lia.
  apply lookup_drop.
Qed.

Lemma GB_entries_nil (Xi : list Z) (Xx : list GB_void) (p p_end : nat) :
  p_end <= p -> GB_entries Xi Xx p p_end = [].
Proof.
  intros Hle. unfold GB_entries. rewrite !GB_slice_nil by lia. reflexivity.
Qed.

Lemma GB_entries_cons (Xi : list Z) (Xx : list GB_void) (p p_end : nat) :
  p < p_end -> p_end <= length Xi -> p_end <= length Xx ->
  GB_entries Xi Xx p p_end
  = (Xi !!! p, Xx !!! p) :: GB_entries Xi Xx (S p) p_end.
Proof.
  intros Hlt Hi Hx. unfold GB_entries.
  rewrite (GB_slice_cons Xi), (GB_slice_cons Xx) by lia. reflexivity.
Qed.

(** ** The two-pointer loop refines the merge of the specification *)

Section refinement.

Variable plan : GB_plan.
Variable mij : Z -> bool.

Lemma GB_masked_cons (e : GB_entry) (es : list GB_entry) :
  GB_masked mij (e :: es) = GB_emit (mij e.1) e (GB_masked mij es).
Proof.
  unfold GB_masked, GB_emit. rewrite filter_cons. cbn beta.
  destruct (mij e.1) eqn:He; case_decide; first [reflexivity | congruence].
Qed.

Lemma GB_merge_spec_nil_l (b : list GB_entry) :
  GB_merge_spec plan mij [] b = GB_ok (GB_masked mij (GB_cast_B plan <$> b)).
Proof. destruct b; reflexivity. Qed.

Lemma GB_merge_spec_nil_r (a : list GB_entry) :
  GB_merge_spec plan mij a [] = GB_ok (GB_masked mij (GB_cast_A plan <$> a)).
Proof. destruct a; reflexivity. Qed.

Lemma GB_merge_spec_cons (ea eb : GB_entry) (a b : list GB_entry) :
  GB_merge_spec plan mij (ea :: a) (eb :: b) =
  if decide (ea.1 < eb.1)%Z then
    GB_fmap (GB_emit (mij ea.1) (GB_cast_A plan ea))
      (GB_merge_spec plan mij a (eb :: b))
  else if decide (eb.1 < ea.1)%Z then
    GB_fmap (GB_emit (mij eb.1) (GB_cast_B plan eb))
      (GB_merge_spec plan mij (ea :: a) b)
  else if mij eb.1 then
    let* cij := GB_BINOP plan
                  (cast_A_to_X plan ea.2 (asize plan))
                  (cast_B_to_Y plan eb.2 (bsize plan)) in
    GB_fmap (cons (eb.1, cij)) (GB_merge_spec plan mij a b)
  else GB_merge_spec plan mij a b.
Proof. reflexivity. Qed.

Variables (Ai : list Z) (Ax : list GB_void) (Bi : list Z) (Bx : list GB_void).
Variables (pA_end pB_end : nat).
Hypothesis HAi : pA_end <= length Ai.
Hypothesis HAx : pA_end <= length Ax.
Hypothesis HBi : pB_end <= length Bi.
Hypothesis HBx : pB_end <= length Bx.

Lemma GB_add_merge_refines (fuel pA pB : nat) :
  (pA_end - pA) + (pB_end - pB) <= fuel ->
  GB_add_merge plan mij Ai Ax Bi Bx pA_end pB_end fuel pA pB
  = GB_merge_spec plan mij
      (GB_entries Ai Ax pA pA_end) (GB_entries Bi Bx pB pB_end).
Proof.
  revert pA pB. induction fuel as [|fuel IH]; intros pA pB Hfuel.
  - rewrite !GB_entries_nil by lia. reflexivity.
  - cbn [GB_add_merge].
    destruct (decide (pA < pA_end)) as [HA|HA];
      destruct (decide (pB < pB_end)) as [HB|HB].
    + rewrite (GB_entries_cons Ai Ax pA), (GB_entries_cons Bi Bx pB) by lia.
      rewrite GB_merge_spec_cons. cbn [fst snd].
      rewrite <- (GB_entries_cons Ai Ax pA), <- (GB_entries_cons Bi Bx pB)
        by lia.
      repeat case_decide.
      * rewrite IH by lia. reflexivity.
      * rewrite IH by lia. reflexivity.
      * rewrite IH by lia. reflexivity.
    + rewrite IH by lia.
      rewrite (GB_entries_nil Bi) by lia.
      rewrite (GB_entries_cons Ai Ax pA) by lia.
      rewrite !GB_merge_spec_nil_r, fmap_cons, GB_masked_cons.
      reflexivity.
    + rewrite IH by lia.
      rewrite (GB_entries_nil Ai) by lia.
      rewrite (GB_entries_cons Bi Bx pB) by lia.
      rewrite !GB_merge_spec_nil_l, fmap_cons, GB_masked_cons.
      reflexivity.
    + rewrite !GB_entries_nil by lia. reflexivity.
Qed.

End refinement.

(** ** Ascending row indices *)

Lemma GB_ascending_Sorted (l : list Z) :
  GB_ascending l = true <-> Sorted Z.lt l.
Proof.
  induction l as [|i l IH]; [by split; [constructor|]|].
  destruct l as [|j l].
  - split; [intros _; by repeat constructor | done].
  - change (GB_ascending (i :: j :: l))
      with (bool_decide (i < j)%Z && GB_ascending (j :: l)).
    rewrite andb_true_iff, bool_decide_eq_true, IH. split.
    + intros [Hij Hs]. constructor; [done|]. by constructor.
    + intros Hs. apply Sorted_inv in Hs as [Hs Hhd].
      apply HdRel_inv in Hhd. done.
Qed.

Lemma GB_ascending_StronglySorted (l : list Z) :
  GB_ascending l = true <-> StronglySorted Z.lt l.
Proof.
  rewrite GB_ascending_Sorted. split.
  - apply Sorted_StronglySorted. apply _.
  - apply StronglySorted_Sorted.
Qed.

Lemma GB_StronglySorted_filter (P : Z -> Prop) `{!forall i, Decision (P i)}
    (l : list Z) :
  StronglySorted Z.lt l -> StronglySorted Z.lt (filter P l).
Proof.
  induction 1 as [|i l Hs IH Hall]; [constructor|].
  rewrite filter_cons. case_decide; [|done].
  constructor; [done|].
  rewrite Forall_forall in Hall |- *.
  intros j Hj. apply Hall. by apply list_elem_of_filter in Hj as [_ Hj].
Qed.

(** ** Looking a row up *)

Lemma GB_lookup_None (i : Z) (es : list GB_entry) :
  GB_lookup i es = None <-> i ∉ es.*1.
Proof.
  induction es as [|e es IH]; cbn [GB_lookup fmap list_fmap].
  - split; [intros _; apply not_elem_of_nil | done].
  - rewrite not_elem_of_cons. case_decide as He.
    + split; [done | intros [Hne _]; by destruct Hne].
    + rewrite IH. split; [intros Hn; split; [congruence | done] | by intros [_ Hn]].
Qed.

Lemma GB_lookup_is_Some (i : Z) (es : list GB_entry) :
  is_Some (GB_lookup i es) <-> i ∈ es.*1.
Proof.
  rewrite <- not_eq_None_Some, GB_lookup_None.
  destruct (decide (i ∈ es.*1)); naive_solver.
Qed.

Lemma GB_lookup_None_lt (i : Z) (es : list GB_entry) :
  Forall (Z.lt i) es.*1 -> GB_lookup i es = None.
Proof.
  intros Hall. apply GB_lookup_None. intros Hin.
  rewrite Forall_forall in Hall. specialize (Hall _ Hin). lia.
Qed.

Lemma GB_lookup_elem_of (i : Z) (v : GB_void) (es : list GB_entry) :
  GB_lookup i es = Some v -> (i, v) ∈ es.
Proof.
  induction es as [|[j w] es IH]; cbn [GB_lookup]; [done|].
  cbn [fst snd]. case_decide.
  - intros [= ->]. subst. apply list_elem_of_here.
  - intros Hl. apply list_elem_of_further. auto.
Qed.

Lemma GB_elem_of_lookup (i : Z) (v : GB_void) (es : list GB_entry) :
  StronglySorted Z.lt es.*1 -> (i, v) ∈ es -> GB_lookup i es = Some v.
Proof.
  induction es as [|[j w] es IH]; [by intros _ Hin; apply elem_of_nil in Hin|].
  cbn [fmap list_fmap fst]. intros Hs Hin.
  apply StronglySorted_inv in Hs as [Hs Hall].
  cbn [GB_lookup fst snd].
  apply elem_of_cons in Hin as [[= -> ->]|Hin].
  - by rewrite decide_True.
  - rewrite decide_False; [auto|].
    intros ->. rewrite Forall_forall in Hall.
    assert (i ∈ es.*1) as Hi by (apply (list_elem_of_fmap_2 fst) in Hin; done).
    specialize (Hall _ Hi). lia.
Qed.

(** ** The merge of the specification *)

Lemma GB_merge_ind (P : list GB_entry -> list GB_entry -> Prop) :
  (forall b, P [] b) ->
  (forall a, P a []) ->
  (forall ea a eb b,
     P a (eb :: b) -> P (ea :: a) b -> P a b -> P (ea :: a) (eb :: b)) ->
  forall a b, P a b.
Proof.
  intros Hl Hr Hc a. induction a as [|ea a IHa]; [done|].
  intros b. induction b as [|eb b IHb]; auto.
Qed.

Lemma GB_fmap_ok {T U} (f : T -> U) (r : GB_result T) (u : U) :
  GB_fmap f r = GB_ok u -> exists v, r = GB_ok v /\ u = f v.
Proof. destruct r as [v|]; [|done]. intros [= <-]. eauto. Qed.

Lemma GB_bind_ok {T U} (r : GB_result T) (k : T -> GB_result U) (u : U) :
  GB_bind r k = GB_ok u -> exists v, r = GB_ok v /\ k v = GB_ok u.
Proof. destruct r as [v|]; [|done]. intros Hk. eauto. Qed.

Section merge_properties.

Variable plan : GB_plan.
Variable mij : Z -> bool.

Lemma GB_masked_cast_fst (cast : GB_entry -> GB_entry) (es : list GB_entry) :
  (forall e, (cast e).1 = e.1) ->
  (GB_masked mij (cast <$> es)).*1 = filter (fun i => mij i = true) es.*1.
Proof.
  intros Hc. induction es as [|e es IH]; [done|].
  rewrite !fmap_cons, GB_masked_cons, filter_cons, Hc.
  unfold GB_emit. destruct (mij e.1) eqn:He; case_decide as Hd.
  - by rewrite fmap_cons, IH, Hc.
  - by destruct Hd.
  - discriminate Hd.
  - exact IH.
Qed.

Lemma GB_emit_fst (keep : bool) (e : GB_entry) (es : list GB_entry) (i : Z) :
  i ∈ (GB_emit keep e es).*1 -> i = e.1 \/ i ∈ es.*1.
Proof.
  destruct keep; cbn [GB_emit]; [|auto].
  rewrite fmap_cons, elem_of_cons. auto.
Qed.

Lemma GB_emit_sorted (keep : bool) (e : GB_entry) (es : list GB_entry) :
  StronglySorted Z.lt es.*1 -> Forall (Z.lt e.1) es.*1 ->
  StronglySorted Z.lt (GB_emit keep e es).*1.
Proof.
  intros Hs Hall. destruct keep; cbn [GB_emit]; [|done].
  rewrite fmap_cons. by constructor.
Qed.

(** The merge emits ascending row indices, all of them from A or B. *)
Lemma GB_merge_spec_sorted (a b out : list GB_entry) :
  StronglySorted Z.lt a.*1 -> StronglySorted Z.lt b.*1 ->
  GB_merge_spec plan mij a b = GB_ok out ->
  StronglySorted Z.lt out.*1 /\
  (forall i, i ∈ out.*1 -> i ∈ a.*1 \/ i ∈ b.*1).
Proof.
  revert out. pattern a, b. apply GB_merge_ind; clear a b.
  - intros b out _ Hb. rewrite GB_merge_spec_nil_l. intros [= <-].
    rewrite GB_masked_cast_fst by done. split.
    + by apply GB_StronglySorted_filter.
    + intros i Hi. apply list_elem_of_filter in Hi as [_ Hi]. auto.
  - intros a out Ha _. rewrite GB_merge_spec_nil_r. intros [= <-].
    rewrite GB_masked_cast_fst by done. split.
    + by apply GB_StronglySorted_filter.
    + intros i Hi. apply list_elem_of_filter in Hi as [_ Hi]. auto.
  - intros ea a eb b IH1 IH2 IH3 out Ha Hb.
    rewrite GB_merge_spec_cons.
    pose proof Ha as Ha'. pose proof Hb as Hb'.
    rewrite fmap_cons in Ha', Hb'.
    apply StronglySorted_inv in Ha' as [Hsa Hfa].
    apply StronglySorted_inv in Hb' as [Hsb Hfb].
    rewrite Forall_forall in Hfa, Hfb.
    repeat case_decide.
    + intros Hm. apply GB_fmap_ok in Hm as (out' & Hm & ->).
      destruct (IH1 _ Hsa Hb Hm) as [Hs Hsub]. split.
      * apply GB_emit_sorted; [done|]. apply Forall_forall. intros i Hi.
        cbn [GB_cast_A fst].
        destruct (Hsub _ Hi) as [Hi'|Hi']; [by apply Hfa|].
        rewrite fmap_cons in Hi'. apply elem_of_cons in Hi' as [->|Hi'];
          [done|]. specialize (Hfb _ Hi'). lia.
      * intros i Hi. apply GB_emit_fst in Hi as [->|Hi].
        -- left. rewrite fmap_cons. cbn. apply list_elem_of_here.
        -- destruct (Hsub _ Hi); [left|by right].
           rewrite fmap_cons. by apply list_elem_of_further.
    + intros Hm. apply GB_fmap_ok in Hm as (out' & Hm & ->).
      destruct (IH2 _ Ha Hsb Hm) as [Hs Hsub]. split.
      * apply GB_emit_sorted; [done|]. apply Forall_forall. intros i Hi.
        cbn [GB_cast_B fst].
        destruct (Hsub _ Hi) as [Hi'|Hi']; [|by apply Hfb].
        rewrite fmap_cons in Hi'. apply elem_of_cons in Hi' as [->|Hi'];
          [done|]. specialize (Hfa _ Hi'). lia.
      * intros i Hi. apply GB_emit_fst in Hi as [->|Hi].
        -- right. rewrite fmap_cons. cbn. apply list_elem_of_here.
        -- destruct (Hsub _ Hi); [by left|right].
           rewrite fmap_cons. by apply list_elem_of_further.
    + assert (ea.1 = eb.1) as Heq by lia.
      assert (forall out', GB_merge_spec plan mij a b = GB_ok out' ->
        StronglySorted Z.lt out'.*1 /\ Forall (Z.lt eb.1) out'.*1 /\
        (forall i, i ∈ out'.*1 -> i ∈ (ea :: a).*1 \/ i ∈ (eb :: b).*1))
        as Hboth.
      { intros out' Hm. destruct (IH3 _ Hsa Hsb Hm) as [Hs Hsub].
        split; [done|]. split.
        - apply Forall_forall. intros i Hi.
          destruct (Hsub _ Hi) as [Hi'|Hi'];
            [specialize (Hfa _ Hi'); lia | by apply Hfb].
        - intros i Hi. rewrite !fmap_cons.
          destruct (Hsub _ Hi); [left|right]; by apply list_elem_of_further. }
      destruct (mij eb.1).
      * intros Hm. apply GB_bind_ok in Hm as (cij & _ & Hm).
        apply GB_fmap_ok in Hm as (out' & Hm & ->).
        destruct (Hboth _ Hm) as (Hs & Hall & Hsub). split.
        -- rewrite fmap_cons. by constructor.
        -- intros i Hi. rewrite fmap_cons in Hi.
           apply elem_of_cons in Hi as [->|Hi]; [|auto].
           right. rewrite fmap_cons. apply list_elem_of_here.
      * intros Hm. destruct (Hboth _ Hm) as (Hs & _ & Hsub). auto.
Qed.

End merge_properties.

Section merge_values.

Variable plan : GB_plan.
Variable mij : Z -> bool.

Lemma GB_lookup_emit_ne (keep : bool) (e : GB_entry) (es : list GB_entry)
    (i : Z) :
  e.1 <> i -> GB_lookup i (GB_emit keep e es) = GB_lookup i es.
Proof.
  intros Hne. destruct keep; cbn [GB_emit GB_lookup]; [|done].
  by rewrite decide_False.
Qed.

Lemma GB_lookup_masked_cast (g : GB_void -> GB_void) (es : list GB_entry)
    (i : Z) :
  GB_lookup i (GB_masked mij ((fun e => (e.1, g e.2)) <$> es))
  = if mij i then g <$> GB_lookup i es else None.
Proof.
  induction es as [|e es IH].
  - cbn. by destruct (mij i).
  - rewrite fmap_cons, GB_masked_cons. cbn [fst GB_lookup].
    destruct (decide (e.1 = i)) as [<-|Hne].
    + unfold GB_emit. destruct (mij e.1) eqn:He.
      * cbn [GB_lookup fst snd]. by rewrite decide_True.
      * exact IH.
    + rewrite GB_lookup_emit_ne by done. apply IH.
Qed.

(** What the merge stores at each row. *)
Lemma GB_merge_spec_lookup (a b out : list GB_entry) :
  StronglySorted Z.lt a.*1 -> StronglySorted Z.lt b.*1 ->
  GB_merge_spec plan mij a b = GB_ok out ->
  forall i,
    if mij i
    then GB_rule_result plan (GB_lookup i a) (GB_lookup i b)
         = GB_ok (GB_lookup i out)
    else GB_lookup i out = None.
Proof.
  revert out. pattern a, b. apply GB_merge_ind; clear a b.
  - intros b out _ _. rewrite GB_merge_spec_nil_l. intros [= <-] i.
    unfold GB_cast_B.
    rewrite (GB_lookup_masked_cast (fun v => cast_B_to_C plan v (bsize plan))).
    destruct (mij i); [|done]. cbn [GB_lookup].
    by destruct (GB_lookup i b).
  - intros a out _ _. rewrite GB_merge_spec_nil_r. intros [= <-] i.
    unfold GB_cast_A.
    rewrite (GB_lookup_masked_cast (fun v => cast_A_to_C plan v (asize plan))).
    destruct (mij i); [|done]. cbn [GB_lookup].
    by destruct (GB_lookup i a).
  - intros ea a eb b IH1 IH2 IH3 out Ha Hb.
    rewrite GB_merge_spec_cons.
    pose proof Ha as Ha'. pose proof Hb as Hb'.
    rewrite fmap_cons in Ha', Hb'.
    apply StronglySorted_inv in Ha' as [Hsa Hfa].
    apply StronglySorted_inv in Hb' as [Hsb Hfb].
    repeat case_decide.
    + intros Hm i. apply GB_fmap_ok in Hm as (out' & Hm & ->).
      specialize (IH1 _ Hsa Hb Hm i).
      cbn [GB_lookup] in *.
      destruct (decide (ea.1 = i)) as [<-|Hne].
      * assert (GB_lookup ea.1 a = None) as Hna by by apply GB_lookup_None_lt.
        assert (GB_lookup ea.1 b = None) as Hnb.
        { apply GB_lookup_None_lt. eapply Forall_impl; [exact Hfb|].
          cbn. intros; lia. }
        rewrite decide_False in * by lia. rewrite Hnb in *.
        unfold GB_emit. destruct (mij ea.1).
        -- cbn [GB_lookup GB_cast_A fst snd]. by rewrite decide_True.
        -- done.
      * by rewrite GB_lookup_emit_ne.
    + intros Hm i. apply GB_fmap_ok in Hm as (out' & Hm & ->).
      specialize (IH2 _ Ha Hsb Hm i).
      cbn [GB_lookup] in *.
      destruct (decide (eb.1 = i)) as [<-|Hne].
      * assert (GB_lookup eb.1 b = None) as Hnb by by apply GB_lookup_None_lt.
        assert (GB_lookup eb.1 a = None) as Hna.
        { apply GB_lookup_None_lt. eapply Forall_impl; [exact Hfa|].
          cbn. intros; lia. }
        rewrite decide_False in * by lia. rewrite Hna in *.
        unfold GB_emit. destruct (mij eb.1).
        -- cbn [GB_lookup GB_cast_B fst snd]. by rewrite decide_True.
        -- done.
      * by rewrite GB_lookup_emit_ne.
    + assert (ea.1 = eb.1) as Heq by lia.
      intros Hm i. cbn [GB_lookup]. rewrite Heq.
      destruct (decide (eb.1 = i)) as [<-|Hne].
      * assert (GB_lookup eb.1 b = None) as Hnb by by apply GB_lookup_None_lt.
        assert (GB_lookup eb.1 a = None) as Hna.
        { apply GB_lookup_None_lt. by rewrite <- Heq. }
        destruct (mij eb.1) eqn:He.
        -- apply GB_bind_ok in Hm as (cij & Hc & Hm).
           apply GB_fmap_ok in Hm as (out' & Hm & ->).
           cbn [GB_rule_result GB_lookup fst snd].
           rewrite decide_True by done. by rewrite Hc.
        -- specialize (IH3 _ Hsa Hsb Hm eb.1). by rewrite He in IH3.
      * destruct (mij eb.1) eqn:He.
        -- apply GB_bind_ok in Hm as (cij & Hc & Hm).
           apply GB_fmap_ok in Hm as (out' & Hm & ->).
           specialize (IH3 _ Hsa Hsb Hm i).
           cbn [GB_lookup fst snd]. by rewrite decide_False.
        -- exact (IH3 _ Hsa Hsb Hm i).
Qed.

(** The merge completes unless it meets, with no operator, a row that A
    and B both hold and the mask lets through. *)
Lemma GB_merge_spec_total (a b : list GB_entry) :
  (forall i, i ∈ a.*1 -> i ∈ b.*1 -> mij i = true -> is_Some (fadd plan)) ->
  exists out, GB_merge_spec plan mij a b = GB_ok out.
Proof.
  pattern a, b. apply GB_merge_ind; clear a b.
  - intros b _. rewrite GB_merge_spec_nil_l. eauto.
  - intros a _. rewrite GB_merge_spec_nil_r. eauto.
  - intros ea a eb b IH1 IH2 IH3 Hop. rewrite GB_merge_spec_cons.
    rewrite !fmap_cons in Hop.
    repeat case_decide.
    + destruct IH1 as [out ->]; [|cbn; eauto].
      intros i Hi1 Hi2. apply Hop; [by apply list_elem_of_further | done].
    + destruct IH2 as [out ->]; [|cbn; eauto].
      intros i Hi1 Hi2. apply Hop; [done | by apply list_elem_of_further].
    + assert (ea.1 = eb.1) as Heq by lia.
      destruct IH3 as [out Hout].
      { intros i Hi1 Hi2. apply Hop; by apply list_elem_of_further. }
      rewrite Hout. destruct (mij eb.1) eqn:He; [|eauto].
      destruct (Hop eb.1) as [f Hf]; [rewrite <- Heq| |done|];
        try apply list_elem_of_here.
      unfold GB_BINOP. rewrite Hf. cbn. eauto.
Qed.

End merge_values.

Lemma GB_masked_true (es : list GB_entry) :
  GB_masked (fun _ => true) es = es.
Proof.
  induction es as [|e es IH]; [done|].
  rewrite GB_masked_cons. cbn [GB_emit]. by rewrite IH.
Qed.

(** With a mask the merge emits what it emits without one, filtered. *)
Lemma GB_merge_spec_masked (plan : GB_plan) (mij : Z -> bool)
    (a b outU : list GB_entry) :
  GB_merge_spec plan (fun _ => true) a b = GB_ok outU ->
  GB_merge_spec plan mij a b = GB_ok (GB_masked mij outU).
Proof.
  revert outU. pattern a, b. apply GB_merge_ind; clear a b.
  - intros b outU. rewrite !GB_merge_spec_nil_l. intros [= <-]. f_equal.
    by rewrite GB_masked_true.
  - intros a outU. rewrite !GB_merge_spec_nil_r. intros [= <-]. f_equal.
    by rewrite GB_masked_true.
  - intros ea a eb b IH1 IH2 IH3 outU. rewrite !GB_merge_spec_cons.
    repeat case_decide.
    + intros Hm. apply GB_fmap_ok in Hm as (out' & Hm & ->).
      rewrite (IH1 _ Hm). cbn [GB_fmap GB_bind GB_emit].
      by rewrite GB_masked_cons.
    + intros Hm. apply GB_fmap_ok in Hm as (out' & Hm & ->).
      rewrite (IH2 _ Hm). cbn [GB_fmap GB_bind GB_emit].
      by rewrite GB_masked_cons.
    + intros Hm. apply GB_bind_ok in Hm as (cij & Hc & Hm).
      apply GB_fmap_ok in Hm as (out' & Hm & ->).
      rewrite GB_masked_cons. cbn [fst GB_emit].
      destruct (mij eb.1); [|by apply IH3].
      rewrite Hc. cbn [GB_bind]. by rewrite (IH3 _ Hm).
Qed.

(** ** Writing into the storage of C *)

Lemma GB_lookup_inserts {T} (l : list T) (i : nat) (k : list T) (j : nat) :
  list_inserts i k l !! j
  = if decide (i <= j < i + length k /\ j < length l)
    then k !! (j - i) else l !! j.
Proof.
  case_decide as Hj.
  - destruct Hj. by apply list_lookup_inserts.
  - destruct (decide (j < i)); [by apply list_lookup_inserts_lt|].
    destruct (decide (i + length k <= j)); [by apply list_lookup_inserts_ge|].
    rewrite !lookup_ge_None_2; [done| |rewrite length_inserts]; lia.
Qed.

Lemma GB_inserts_comm {T} (l : list T) (i1 : nat) (k1 : list T) (i2 : nat)
    (k2 : list T) :
  i1 + length k1 <= i2 \/ i2 + length k2 <= i1 ->
  list_inserts i1 k1 (list_inserts i2 k2 l)
  = list_inserts i2 k2 (list_inserts i1 k1 l).
Proof.
  intros Hd. apply list_eq. intros j.
  rewrite !GB_lookup_inserts, !length_inserts.
  repeat case_decide; first [done | lia].
Qed.

Lemma GB_write_Ci (pC : nat) (es : list GB_entry) (C : GB_store) :
  Ci (GB_write pC es C) = list_inserts pC es.*1 (Ci C).
Proof.
  revert pC C. induction es as [|[i cij] es IH]; intros pC C; [done|].
  cbn [GB_write]. rewrite IH. cbn [Ci fmap list_fmap fst list_inserts].
  by rewrite list_insert_inserts_lt by lia.
Qed.

Lemma GB_write_Cx (pC : nat) (es : list GB_entry) (C : GB_store) :
  Cx (GB_write pC es C) = list_inserts pC es.*2 (Cx C).
Proof.
  revert pC C. induction es as [|[i cij] es IH]; intros pC C; [done|].
  cbn [GB_write]. rewrite IH. cbn [Cx fmap list_fmap snd list_inserts].
  by rewrite list_insert_inserts_lt by lia.
Qed.

Lemma GB_store_eq (C1 C2 : GB_store) :
  Ci C1 = Ci C2 -> Cx C1 = Cx C2 -> C1 = C2.
Proof. destruct C1, C2. cbn. by intros -> ->. Qed.

(** Two tasks with disjoint output ranges can write in either order. *)
Lemma GB_write_comm (p1 : nat) (es1 : list GB_entry) (p2 : nat)
    (es2 : list GB_entry) (C : GB_store) :
  p1 + length es1 <= p2 \/ p2 + length es2 <= p1 ->
  GB_write p1 es1 (GB_write p2 es2 C) = GB_write p2 es2 (GB_write p1 es1 C).
Proof.
  intros Hd. apply GB_store_eq.
  - rewrite !GB_write_Ci. apply GB_inserts_comm. by rewrite !length_fmap.
  - rewrite !GB_write_Cx. apply GB_inserts_comm. by rewrite !length_fmap.
Qed.

Lemma GB_write_length (pC : nat) (es : list GB_entry) (C : GB_store) :
  length (Ci (GB_write pC es C)) = length (Ci C) /\
  length (Cx (GB_write pC es C)) = length (Cx C).
Proof. by rewrite GB_write_Ci, GB_write_Cx, !length_inserts. Qed.

(** ** Running the tasks in some order *)

Lemma GB_tasks_disjoint_lookup (ts : list GB_task_struct) :
  GB_tasks_disjoint ts = true ->
  forall i j t u, i <> j -> ts !! i = Some t -> ts !! j = Some u ->
    t_pC_end t <= t_pC u \/ t_pC_end u <= t_pC t.
Proof.
  induction ts as [|t0 ts IH]; [by intros _ i j t u _ Hi|].
  cbn [GB_tasks_disjoint]. rewrite andb_true_iff, forallb_forall.
  intros [Hhd Htl] i j t u Hne Hi Hj.
  destruct i as [|i], j as [|j]; cbn in Hi, Hj; simplify_eq.
  - eapply bool_decide_eq_true_1. apply Hhd. apply list_elem_of_In.
    by eapply list_elem_of_lookup_2.
  - assert (t_pC_end u <= t_pC t \/ t_pC_end t <= t_pC u) as Hd; [|lia].
    eapply bool_decide_eq_true_1. apply Hhd. apply list_elem_of_In.
    by eapply list_elem_of_lookup_2.
  - eapply (IH Htl i j); [congruence|done..].
Qed.

Lemma GB_slice_inserts {T} (l k : list T) (p : nat) :
  p + length k <= length l ->
  GB_slice (list_inserts p k l) p (p + length k) = k.
Proof.
  intros Hlen. apply list_eq. intros j.
  destruct (decide (j < length k)) as [Hj|Hj].
  - rewrite GB_slice_lookup by lia. rewrite GB_lookup_inserts.
    rewrite decide_True by lia. f_equal. lia.
  - rewrite !lookup_ge_None_2; [done|lia|].
    rewrite GB_slice_length by (rewrite length_inserts; lia). lia.
Qed.

Lemma GB_entries_write (pC : nat) (es : list GB_entry) (C : GB_store) :
  pC + length es <= length (Ci C) -> pC + length es <= length (Cx C) ->
  GB_entries (Ci (GB_write pC es C)) (Cx (GB_write pC es C))
    pC (pC + length es) = es.
Proof.
  intros Hi Hx. unfold GB_entries. rewrite GB_write_Ci, GB_write_Cx.
  pose proof (GB_slice_inserts (Ci C) es.*1 pC) as Hsi.
  pose proof (GB_slice_inserts (Cx C) es.*2 pC) as Hsx.
  rewrite !length_fmap in Hsi. rewrite !length_fmap in Hsx.
  transitivity (zip es.*1 es.*2); [|apply zip_fst_snd].
  f_equal; [by apply Hsi | by apply Hsx].
Qed.

Section schedule.

Variable plan : GB_plan.
Variables (M : option GrB_Matrix) (Mask_struct : bool) (A B : GrB_Matrix).
Variable ts : list GB_task_struct.

Local Abbreviation entries := (GB_task_entries plan M Mask_struct A B).
Local Abbreviation run := (GB_run_tasks plan M Mask_struct A B ts).

Local Abbreviation GB_writes_disjoint :=
  (GB_writes_disjoint plan M Mask_struct A B ts).

Lemma GB_run_tasks_app (s1 s2 : list nat) (C : GB_store) :
  run (s1 ++ s2) C = GB_bind (run s1 C) (run s2).
Proof.
  revert C. induction s1 as [|id s1 IH]; intros C; [done|].
  cbn [app GB_run_tasks]. destruct (ts !! id) as [t|]; [|apply IH].
  destruct (GB_run_task plan M Mask_struct A B t C) as [C'|]; [|done].
  cbn [GB_bind]. apply IH.
Qed.

Lemma GB_run_tasks_total (sched : list nat) :
  (forall id t, id ∈ sched -> ts !! id = Some t ->
     exists es, entries t = GB_ok es) ->
  forall C, exists Cf, run sched C = GB_ok Cf /\
    length (Ci Cf) = length (Ci C) /\ length (Cx Cf) = length (Cx C).
Proof.
  induction sched as [|id sched IH]; intros Hok C; [by exists C|].
  cbn [GB_run_tasks].
  assert (forall id t, id ∈ sched -> ts !! id = Some t ->
            exists es, entries t = GB_ok es) as Hok'.
  { intros id' t' Hin. apply Hok. by apply list_elem_of_further. }
  destruct (ts !! id) as [t|] eqn:Ht; [|by apply IH].
  destruct (Hok id t) as [es Hes]; [apply list_elem_of_here|done|].
  unfold GB_run_task. rewrite Hes. cbn [GB_bind].
  destruct (IH Hok' (GB_write (t_pC t) es C)) as (Cf & Hrun & Hli & Hlx).
  exists Cf. destruct (GB_write_length (t_pC t) es C) as [Hwi Hwx].
  split; [done|]. split; congruence.
Qed.

Lemma GB_run_tasks_fail (sched : list nat) (id : nat) (t : GB_task_struct) :
  id ∈ sched -> ts !! id = Some t -> entries t = GB_null_call ->
  forall C, run sched C = GB_null_call.
Proof.
  intros Hin Ht Hfail.
  induction sched as [|id' sched IH]; intros C;
    [by apply elem_of_nil in Hin|].
  cbn [GB_run_tasks]. apply elem_of_cons in Hin as [<-|Hin].
  - rewrite Ht. unfold GB_run_task. by rewrite Hfail.
  - destruct (ts !! id') as [t'|]; [|by apply IH].
    destruct (GB_run_task plan M Mask_struct A B t' C); [|done].
    cbn [GB_bind]. by apply IH.
Qed.

(** The order in which the tasks run does not change the result. *)
Lemma GB_run_tasks_perm (s1 s2 : list nat) :
  GB_writes_disjoint -> s1 ≡ₚ s2 -> forall C, run s1 C = run s2 C.
Proof.
  intros Hd Hperm. induction Hperm as [|x s1 s2 _ IH|x y s|s1 s2 s3 _ IH1 _ IH2];
    intros C.
  - done.
  - cbn [GB_run_tasks]. destruct (ts !! x) as [t|]; [|apply IH].
    destruct (GB_run_task plan M Mask_struct A B t C); [|done].
    cbn [GB_bind]. apply IH.
  - cbn [GB_run_tasks].
    destruct (decide (x = y)) as [->|Hne]; [done|].
    destruct (ts !! x) as [t|] eqn:Hx, (ts !! y) as [u|] eqn:Hy; try done.
    unfold GB_run_task.
    destruct (entries t) as [es|] eqn:Het, (entries u) as [eu|] eqn:Heu;
      cbn [GB_bind]; rewrite ?Het, ?Heu; cbn [GB_bind]; try done.
    rewrite GB_write_comm; [done|].
    destruct (Hd x y t u es eu Hne Hx Hy Het Heu); lia.
  - by rewrite IH1, IH2.
Qed.

(** After every task has run, the range of each one holds what it
    emitted. *)
Lemma GB_run_tasks_entries (sched : list nat) (C Cf : GB_store) (id : nat)
    (t : GB_task_struct) (es : list GB_entry) :
  GB_writes_disjoint ->
  run sched C = GB_ok Cf ->
  id ∈ sched -> ts !! id = Some t -> entries t = GB_ok es ->
  t_pC t + length es <= length (Ci C) ->
  t_pC t + length es <= length (Cx C) ->
  GB_entries (Ci Cf) (Cx Cf) (t_pC t) (t_pC t + length es) = es.
Proof.
  intros Hd Hrun Hin Ht Hes Hli Hlx.
  apply elem_of_Permutation in Hin as [rest Hperm].
  assert (sched ≡ₚ rest ++ [id]) as Hperm'.
  { rewrite Hperm. apply Permutation_cons_append. }
  rewrite (GB_run_tasks_perm _ _ Hd Hperm'), GB_run_tasks_app in Hrun.
  apply GB_bind_ok in Hrun as (C' & Hrest & Hlast).
  cbn [GB_run_tasks] in Hlast. rewrite Ht in Hlast.
  unfold GB_run_task in Hlast. rewrite Hes in Hlast. cbn [GB_bind] in Hlast.
  injection Hlast as <-.
  assert (length (Ci C') = length (Ci C) /\ length (Cx C') = length (Cx C))
    as [Hci Hcx].
  { clear -Hrest. revert C Hrest.
    induction rest as [|id' rest IH]; intros C Hrest.
    - cbn in Hrest. by injection Hrest as ->.
    - cbn [GB_run_tasks] in Hrest.
      destruct (ts !! id') as [t'|]; [|by apply IH].
      apply GB_bind_ok in Hrest as (C1 & Hone & Hrest).
      unfold GB_run_task in Hone.
      apply GB_bind_ok in Hone as (es' & _ & [= <-]).
      destruct (GB_write_length (t_pC t') es' C) as [Hwi Hwx].
      destruct (IH _ Hrest) as [H1 H2]. split; congruence. }
  apply GB_entries_write; lia.
Qed.

End schedule.

(** ** One task against the specification *)

Lemma GB_masked_ext (m1 m2 : Z -> bool) (es : list GB_entry) :
  (forall i, m1 i = m2 i) -> GB_masked m1 es = GB_masked m2 es.
Proof.
  intros Hext. induction es as [|e es IH]; [done|].
  by rewrite !GB_masked_cons, IH, Hext.
Qed.

Lemma GB_merge_spec_ext (plan : GB_plan) (m1 m2 : Z -> bool)
    (a b : list GB_entry) :
  (forall i, m1 i = m2 i) ->
  GB_merge_spec plan m1 a b = GB_merge_spec plan m2 a b.
Proof.
  intros Hext. pattern a, b. apply GB_merge_ind; clear a b.
  - intros b. by rewrite !GB_merge_spec_nil_l, (GB_masked_ext m1 m2).
  - intros a. by rewrite !GB_merge_spec_nil_r, (GB_masked_ext m1 m2).
  - intros ea a eb b IH1 IH2 IH3.
    by rewrite !GB_merge_spec_cons, IH1, IH2, IH3, !Hext.
Qed.

Lemma GB_mask_find_spec (Mi : list Z) (Mx : list GB_void) (i : Z)
    (n pM : nat) :
  pM + n <= length Mi -> pM + n <= length Mx ->
  GB_lookup i (GB_entries Mi Mx pM (pM + n))
  = (fun p => Mx !!! p) <$> GB_mask_find Mi i n pM.
Proof.
  revert pM. induction n as [|n IH]; intros pM Hi Hx.
  - by rewrite GB_entries_nil by lia.
  - rewrite GB_entries_cons by lia. cbn [GB_lookup GB_mask_find fst snd].
    case_decide; [done|].
    replace (pM + S n) with (S pM + n) by lia. apply IH; lia.
Qed.

Lemma GB_mij_spec (M : option GrB_Matrix) (Mask_struct : bool)
    (A B : GrB_Matrix) (t : GB_task_struct) (i : Z) :
  GB_task_in_bounds M A B t = true ->
  GB_mij M Mask_struct (t_pM t) (t_pM_end t) i = GB_task_mask M Mask_struct t i.
Proof.
  unfold GB_task_in_bounds, GB_mij, GB_task_mask. destruct M as [m|]; [|done].
  rewrite !andb_true_iff, !bool_decide_eq_true.
  intros (_ & [HMi] & HMx). unfold GB_mask_spec, GB_task_M, GB_mcast.
  replace (t_pM_end t) with (t_pM t + (t_pM_end t - t_pM t)) at 2 by lia.
  unfold GB_Ai, GB_Ax in *. rewrite GB_mask_find_spec by lia.
  by destruct (GB_mask_find _ _ _ _).
Qed.

Lemma GB_task_entries_spec (plan : GB_plan) (M : option GrB_Matrix)
    (Mask_struct : bool) (A B : GrB_Matrix) (t : GB_task_struct) :
  GB_task_in_bounds M A B t = true ->
  GB_task_entries plan M Mask_struct A B t
  = GB_merge_spec plan (GB_task_mask M Mask_struct t)
      (GB_task_A A t) (GB_task_B B t).
Proof.
  intros Hb. unfold GB_task_entries.
  pose proof Hb as Hb'. unfold GB_task_in_bounds in Hb'.
  rewrite !andb_true_iff, !bool_decide_eq_true in Hb'.
  destruct Hb' as (((([_ HAi] & HAx) & [_ HBi]) & HBx) & _).
  unfold GB_Ai, GB_Ax in *.
  rewrite GB_add_merge_refines by (done || lia).
  apply GB_merge_spec_ext. intros i. by eapply GB_mij_spec.
Qed.

(** ** The stages of a call *)

Lemma GB_run_created (cfg : GB_build) (env : GB_env) (a : GB_add_phase2_args) :
  env_create_ok env = true ->
  GB_add_phase2_run cfg env a
  = (GB_prefix env a
       ++ (GB_phase2_work cfg env a (GB_shell_heap env) (GB_shell env a)).1,
     (GB_phase2_work cfg env a (GB_shell_heap env) (GB_shell env a)).2).
Proof.
  intros Hok. unfold GB_add_phase2_run, GB_create. rewrite Hok. reflexivity.
Qed.

Lemma GB_run_create_failed (cfg : GB_build) (env : GB_env)
    (a : GB_add_phase2_args) :
  env_create_ok env = false ->
  GB_add_phase2_run cfg env a
  = ([ mkFrame at_entry None None GrB_SUCCESS false (env_heap env) ;
       mkFrame at_create_failed None None GrB_OUT_OF_MEMORY false
         (GB_FREE (in_Ch a) (GB_FREE (in_Cp a) (env_heap env))) ],
     GB_ok GrB_OUT_OF_MEMORY).
Proof.
  intros Hok. unfold GB_add_phase2_run, GB_create. rewrite Hok. reflexivity.
Qed.

Lemma GB_phase2_work_eq (cfg : GB_build) (env : GB_env)
    (a : GB_add_phase2_args) :
  GB_phase2_work cfg env a (GB_shell_heap env) (GB_shell env a)
  = match GB_merged cfg env a with
    | GB_null_call => (GB_work_frames cfg env a, GB_null_call)
    | GB_ok C =>
        let r := GB_phase2_finish env (GB_kernel_done cfg a)
                   (GB_shell_heap env) C in
        (GB_work_frames cfg env a ++ r.1, r.2)
    end.
Proof.
  unfold GB_phase2_work, GB_work_frames, GB_kernel_done, GB_merged,
    GB_BINOP_WORKER, GB_AaddB, GB_generic_worker, GB_plan_of.
  destruct (GB_launch cfg a) as [[opcode xcode]|]; cbn [fst snd].
  - destruct (GB_disabled cfg opcode xcode); cbn [GB_bind fst snd negb].
    + by destruct (GB_add_template _ _ _ _).
    + by destruct (GB_add_template _ _ _ _).
  - by destruct (GB_add_template _ _ _ _).
Qed.

Lemma GB_sched_ok_perm (a : GB_add_phase2_args) (sched : list nat) :
  GB_sched_ok a sched = true -> sched ≡ₚ seq 0 (length (GB_tasks_of a)).
Proof.
  unfold GB_sched_ok. rewrite bool_decide_eq_true. intros <-.
  symmetry. apply merge_sort_Permutation.
Qed.

(** ** The merge of a call *)

Section call.

Variables (cfg : GB_build) (env : GB_env) (a : GB_add_phase2_args).

Local Abbreviation plan := (GB_plan_of cfg a).
Local Abbreviation entries :=
  (GB_task_entries plan (in_M a) (in_Mask_struct a) (in_A a) (in_B a)).

Lemma GB_fadd_plan :
  fadd plan = op_function <$> in_op a.
Proof. unfold GB_plan_of, GB_generic_plan. by destruct (in_op a). Qed.

Lemma GB_tasks_ok_task (t : GB_task_struct) :
  GB_tasks_ok cfg a = true -> t ∈ GB_tasks_of a ->
  GB_task_in_bounds (in_M a) (in_A a) (in_B a) t = true /\
  GB_task_sorted (in_A a) (in_B a) t = true /\
  t_pC_end t = t_pC t + GB_task_len plan (in_M a) (in_Mask_struct a)
                          (in_A a) (in_B a) t /\
  t_pC_end t <= GB_cnz a.
Proof.
  unfold GB_tasks_ok, GB_inputs_ok, GB_tasks_partition.
  rewrite !andb_true_iff, !forallb_forall.
  intros ((Hb & Hs) & Hc & _) Hin. apply list_elem_of_In in Hin.
  specialize (Hb _ Hin). specialize (Hs _ Hin). specialize (Hc _ Hin).
  unfold GB_task_counted in Hc.
  rewrite andb_true_iff, !bool_decide_eq_true in Hc. by destruct Hc.
Qed.

Lemma GB_partition_writes_disjoint :
  GB_tasks_partition cfg a = true ->
  GB_writes_disjoint plan (in_M a) (in_Mask_struct a) (in_A a) (in_B a)
    (GB_tasks_of a).
Proof.
  unfold GB_tasks_partition. rewrite andb_true_iff, forallb_forall.
  intros [Hc Hd] i j t u es eu Hne Hi Hj Het Heu.
  pose proof (GB_tasks_disjoint_lookup _ Hd i j t u Hne Hi Hj) as Hdis.
  assert (forall k v ev, GB_tasks_of a !! k = Some v -> entries v = GB_ok ev ->
            t_pC_end v = t_pC v + length ev) as Hlen.
  { intros k v ev Hk Hev.
    assert (In v (GB_tasks_of a)) as Hin.
    { apply list_elem_of_In. by eapply list_elem_of_lookup_2. }
    specialize (Hc _ Hin). unfold GB_task_counted, GB_task_len in Hc.
    rewrite Hev in Hc.
    rewrite andb_true_iff, !bool_decide_eq_true in Hc. by destruct Hc. }
  rewrite (Hlen _ _ _ Hi Het), (Hlen _ _ _ Hj Heu) in Hdis. lia.
Qed.

(** Every task completes when the contract of the call holds. *)
Lemma GB_task_entries_total (t : GB_task_struct) :
  GB_tasks_ok cfg a = true -> GB_op_null_ok a = true ->
  t ∈ GB_tasks_of a ->
  exists es, entries t = GB_ok es.
Proof.
  intros Hok Hnull Hin.
  destruct (GB_tasks_ok_task t Hok Hin) as (Hb & _).
  rewrite (GB_task_entries_spec _ _ _ _ _ _ Hb).
  apply GB_merge_spec_total. intros i HiA HiB _.
  rewrite GB_fadd_plan. unfold GB_op_null_ok in Hnull.
  destruct (in_op a) as [o|]; [by eexists|].
  exfalso. rewrite forallb_forall in Hnull.
  apply list_elem_of_In in Hin. specialize (Hnull _ Hin).
  unfold GB_disjoint in Hnull. rewrite forallb_forall in Hnull.
  apply list_elem_of_In in HiA. specialize (Hnull _ HiA).
  by apply bool_decide_eq_true in Hnull.
Qed.

(** The template fills the range of every task with what the task emits. *)
Lemma GB_merged_ok :
  GB_tasks_ok cfg a = true -> GB_op_null_ok a = true ->
  GB_sched_ok a (env_sched env) = true ->
  exists s,
    GB_merged cfg env a = GB_ok (GB_with_storage (GB_shell env a) s) /\
    forall t, t ∈ GB_tasks_of a ->
      entries t
      = GB_ok (GB_entries (Ci s) (Cx s) (t_pC t) (t_pC_end t)).
Proof.
  intros Hok Hnull Hsched.
  assert (GB_tasks_partition cfg a = true) as Hpart.
  { unfold GB_tasks_ok in Hok. rewrite !andb_true_iff in Hok.
    by destruct Hok. }
  pose proof (GB_partition_writes_disjoint Hpart) as Hdis.
  set (C0 := mkStore (GB_cells (mat_i (GB_shell env a)))
               (GB_cells (mat_x (GB_shell env a)))).
  destruct (GB_run_tasks_total plan (in_M a) (in_Mask_struct a) (in_A a)
              (in_B a) (GB_tasks_of a) (env_sched env)) with (C := C0)
    as (s & Hrun & _ & _).
  { intros id t _ Ht. apply GB_task_entries_total; [done..|].
    by eapply list_elem_of_lookup_2. }
  exists s. split.
  { unfold GB_merged, GB_add_template. fold (GB_tasks_of a). fold C0.
    by rewrite Hrun. }
  intros t Hin.
  destruct (GB_task_entries_total t Hok Hnull Hin) as [es Hes].
  destruct (GB_tasks_ok_task t Hok Hin) as (_ & _ & Hend & Hcnz).
  unfold GB_task_len in Hend. rewrite Hes in Hend.
  rewrite Hes, Hend. f_equal. symmetry.
  apply list_elem_of_lookup_1 in Hin as [id Hid].
  eapply (GB_run_tasks_entries plan (in_M a) (in_Mask_struct a) (in_A a)
            (in_B a) (GB_tasks_of a) (env_sched env) C0 s id t es);
    try done.
  - rewrite (GB_sched_ok_perm _ _ Hsched).
    apply elem_of_seq. apply lookup_lt_Some in Hid. lia.
  - cbn. rewrite length_replicate. lia.
  - cbn. rewrite length_replicate. lia.
Qed.

End call.

Lemma GB_run_tasks_length (plan : GB_plan) (M : option GrB_Matrix)
    (Mask_struct : bool) (A B : GrB_Matrix) (ts : list GB_task_struct)
    (sched : list nat) (C Cf : GB_store) :
  GB_run_tasks plan M Mask_struct A B ts sched C = GB_ok Cf ->
  length (Ci Cf) = length (Ci C) /\ length (Cx Cf) = length (Cx C).
Proof.
  revert C. induction sched as [|id sched IH]; intros C Hrun.
  - cbn in Hrun. by injection Hrun as ->.
  - cbn [GB_run_tasks] in Hrun.
    destruct (ts !! id) as [t|]; [|by apply IH].
    apply GB_bind_ok in Hrun as (C1 & Hone & Hrun).
    unfold GB_run_task in Hone.
    apply GB_bind_ok in Hone as (es & _ & [= <-]).
    destruct (GB_write_length (t_pC t) es C) as [Hwi Hwx].
    destruct (IH _ Hrun) as [H1 H2]. split; congruence.
Qed.

(** ** Pruning and the return *)

Lemma GB_prune_storage (ok : bool) (C : GrB_Matrix) (hp : GB_heap) :
  mat_i (GB_hypermatrix_prune ok C hp).1.2 = mat_i C /\
  mat_x (GB_hypermatrix_prune ok C hp).1.2 = mat_x C /\
  mat_magic (GB_hypermatrix_prune ok C hp).1.2 = mat_magic C.
Proof.
  unfold GB_hypermatrix_prune.
  destruct (mat_is_hyper C); [|done]. case_decide; [done|]. by destruct ok.
Qed.

Lemma GB_prune_ok_info (C : GrB_Matrix) (hp : GB_heap) :
  (GB_hypermatrix_prune true C hp).1.1 = GrB_SUCCESS.
Proof.
  unfold GB_hypermatrix_prune.
  destruct (mat_is_hyper C); [|done]. by case_decide.
Qed.

Lemma GB_prune_info (ok : bool) (C : GrB_Matrix) (hp : GB_heap) :
  (GB_hypermatrix_prune ok C hp).1.1 = GrB_SUCCESS \/
  (GB_hypermatrix_prune ok C hp).1.1 = GrB_OUT_OF_MEMORY /\ ok = false /\
  (GB_hypermatrix_prune ok C hp).1.2 = C /\
  (GB_hypermatrix_prune ok C hp).2 = hp /\ mat_is_hyper C = true.
Proof.
  unfold GB_hypermatrix_prune.
  destruct (mat_is_hyper C); [|by left]. case_decide; [by left|].
  destruct ok; [by left|by right].
Qed.

Lemma GB_last_frame_snoc (fs : list GB_frame) (f : GB_frame) (e : GB_end) :
  GB_last_frame (fs ++ [f], e) = f.
Proof. unfold GB_last_frame. cbn [fst]. apply last_last. Qed.

Lemma GB_last_frame_finish (l1 l2 : list GB_frame) (f1 f2 : GB_frame)
    (e : GB_end) :
  GB_last_frame (l1 ++ l2 ++ [f1; f2], e) = f2.
Proof.
  change [f1; f2] with ([f1] ++ [f2]).
  rewrite !app_assoc. apply GB_last_frame_snoc.
Qed.

(** The call once the merge has completed. *)
Lemma GB_add_phase2_merged (cfg : GB_build) (env : GB_env)
    (a : GB_add_phase2_args) (C : GrB_Matrix) :
  env_create_ok env = true ->
  GB_merged cfg env a = GB_ok C ->
  GB_add_phase2 cfg env a
  = let r := GB_hypermatrix_prune (env_prune_ok env) C (GB_shell_heap env) in
    if decide (r.1.1 <> GrB_SUCCESS)
    then GB_ok (r.1.1, None, GB_MATRIX_FREE r.1.2 r.2)
    else GB_ok (GrB_SUCCESS, Some r.1.2, r.2).
Proof.
  intros Hok Hm. unfold GB_add_phase2.
  rewrite (GB_run_created _ _ _ Hok), GB_phase2_work_eq, Hm.
  unfold GB_phase2_finish. cbn zeta.
  case_decide; cbn [fst snd GB_bind]; by rewrite GB_last_frame_finish.
Qed.

(** The call when the merge calls the NULL [fadd]. *)
Lemma GB_add_phase2_stopped (cfg : GB_build) (env : GB_env)
    (a : GB_add_phase2_args) :
  env_create_ok env = true ->
  GB_merged cfg env a = GB_null_call ->
  GB_add_phase2 cfg env a = GB_null_call.
Proof.
  intros Hok Hm. unfold GB_add_phase2.
  by rewrite (GB_run_created _ _ _ Hok), GB_phase2_work_eq, Hm.
Qed.

Lemma GB_add_phase2_create_failed (cfg : GB_build) (env : GB_env)
    (a : GB_add_phase2_args) :
  env_create_ok env = false ->
  GB_add_phase2 cfg env a
  = GB_ok (GrB_OUT_OF_MEMORY, None,
           GB_FREE (in_Ch a) (GB_FREE (in_Cp a) (env_heap env))).
Proof.
  intros Hok. unfold GB_add_phase2.
  by rewrite (GB_run_create_failed _ _ _ Hok).
Qed.

(** The call under the contract: it returns C, and the range of every task
    holds the merge of what the task reads. *)
Lemma GB_add_phase2_tasks (cfg : GB_build) (env : GB_env)
    (a : GB_add_phase2_args) :
  env_create_ok env = true -> env_prune_ok env = true ->
  GB_tasks_ok cfg a = true -> GB_op_null_ok a = true ->
  GB_sched_ok a (env_sched env) = true ->
  exists s,
    GB_merged cfg env a = GB_ok (GB_with_storage (GB_shell env a) s) /\
    length (Ci s) = GB_cnz a /\ length (Cx s) = GB_cnz a /\
    (let r := GB_hypermatrix_prune true (GB_with_storage (GB_shell env a) s)
                (GB_shell_heap env) in
     GB_add_phase2 cfg env a = GB_ok (GrB_SUCCESS, Some r.1.2, r.2)) /\
    forall t, t ∈ GB_tasks_of a ->
      GB_merge_spec (GB_plan_of cfg a)
        (GB_task_mask (in_M a) (in_Mask_struct a) t)
        (GB_task_A (in_A a) t) (GB_task_B (in_B a) t)
      = GB_ok (GB_entries (Ci s) (Cx s) (t_pC t) (t_pC_end t)).
Proof.
  intros Hc Hp Hok Hnull Hsched.
  destruct (GB_merged_ok cfg env a Hok Hnull Hsched) as (s & Hm & Htasks).
  exists s. split; [exact Hm|].
  assert (length (Ci s) = GB_cnz a /\ length (Cx s) = GB_cnz a) as [Hli Hlx].
  { unfold GB_merged, GB_add_template in Hm.
    apply GB_bind_ok in Hm as (s' & Hrun & Heq).
    assert (s' = s) as ->.
    { injection Heq as Hi Hx. by apply GB_store_eq. }
    apply GB_run_tasks_length in Hrun as [Hli Hlx].
    cbn in Hli, Hlx. rewrite length_replicate in Hli.
    rewrite length_replicate in Hlx. done. }
  split; [done|]. split; [done|]. split.
  - cbn zeta. rewrite (GB_add_phase2_merged _ _ _ _ Hc Hm), Hp. cbn zeta.
    rewrite GB_prune_ok_info. by rewrite decide_False by (intros Hne; done).
  - intros t Hin.
    destruct (GB_tasks_ok_task cfg a t Hok Hin) as (Hb & _).
    by rewrite <- (GB_task_entries_spec _ _ _ _ _ _ Hb), (Htasks t Hin).
Qed.

Lemma GB_rule_result_op (plan : GB_plan) (f : GxB_binary_function)
    (x y : option GB_void) :
  fadd plan = Some f ->
  GB_rule_result plan x y = GB_ok (GB_rule plan f x y).
Proof.
  intros Hf. destruct x, y; cbn [GB_rule_result GB_rule]; try done.
  unfold GB_BINOP. by rewrite Hf.
Qed.

Lemma GB_rule_is_Some (plan : GB_plan) (f : GxB_binary_function)
    (x y : option GB_void) :
  is_Some (GB_rule plan f x y) <-> is_Some x \/ is_Some y.
Proof.
  rewrite !is_Some_alt. destruct x, y; cbn [GB_rule]; tauto.
Qed.

Lemma GB_merge_spec_length (plan : GB_plan) (mij : Z -> bool)
    (a b out : list GB_entry) :
  GB_merge_spec plan mij a b = GB_ok out -> length out <= length a + length b.
Proof.
  revert out. pattern a, b. apply GB_merge_ind; clear a b.
  - intros b out. rewrite GB_merge_spec_nil_l. intros [= <-].
    unfold GB_masked. etrans; [apply length_filter|]. by rewrite length_fmap.
  - intros a out. rewrite GB_merge_spec_nil_r. intros [= <-].
    unfold GB_masked. etrans; [apply length_filter|].
    rewrite length_fmap. lia.
  - intros ea a eb b IH1 IH2 IH3 out. rewrite GB_merge_spec_cons.
    repeat case_decide.
    + intros Hm. apply GB_fmap_ok in Hm as (out' & Hm & ->).
      specialize (IH1 _ Hm). unfold GB_emit. destruct (mij _); cbn in *; lia.
    + intros Hm. apply GB_fmap_ok in Hm as (out' & Hm & ->).
      specialize (IH2 _ Hm). unfold GB_emit. destruct (mij _); cbn in *; lia.
    + destruct (mij eb.1).
      * intros Hm. apply GB_bind_ok in Hm as (cij & _ & Hm).
        apply GB_fmap_ok in Hm as (out' & Hm & ->).
        specialize (IH3 _ Hm). cbn in *. lia.
      * intros Hm. specialize (IH3 _ Hm). cbn in *. lia.
Qed.

Lemma GB_masked_fst (mij : Z -> bool) (es : list GB_entry) (i : Z) :
  i ∈ (GB_masked mij es).*1 <-> i ∈ es.*1 /\ mij i = true.
Proof.
  induction es as [|e es IH].
  - cbn. rewrite elem_of_nil. tauto.
  - rewrite GB_masked_cons, fmap_cons, elem_of_cons. unfold GB_emit.
    destruct (mij e.1) eqn:He.
    + rewrite fmap_cons, elem_of_cons, IH. split.
      * intros [->|[? ?]]; auto.
      * intros [[->|?] ?]; auto.
    + rewrite IH. split.
      * intros [? ?]; auto.
      * intros [[->|?] ?]; [congruence|auto].
Qed.

Lemma GB_task_in_bounds_no_mask (M : option GrB_Matrix) (A B : GrB_Matrix)
    (t : GB_task_struct) :
  GB_task_in_bounds M A B t = true -> GB_task_in_bounds None A B t = true.
Proof.
  unfold GB_task_in_bounds. intros Hb.
  apply andb_true_iff in Hb as [Hb _].
  apply andb_true_iff. split; [exact Hb | reflexivity].
Qed.

(** ** No operator *)

Lemma GB_entries_value (Xi : list Z) (Xx : list GB_void) (p p_end : nat)
    (e : GB_entry) :
  e ∈ GB_entries Xi Xx p p_end -> e.2 ∈ Xx.
Proof.
  destruct e as [i v]. unfold GB_entries, GB_slice. intros He.
  apply elem_of_zip_r in He. cbn [snd].
  by apply subseteq_take, subseteq_drop in He.
Qed.

Lemma GB_fmap_cast_id (cast : GB_entry -> GB_entry) (es : list GB_entry) :
  (forall e, e ∈ es -> cast e = e) -> cast <$> es = es.
Proof.
  induction es as [|e es IH]; intros Hc; [done|].
  rewrite fmap_cons, Hc by apply list_elem_of_here. f_equal.
  apply IH. intros e' He'. apply Hc. by apply list_elem_of_further.
Qed.

Lemma GB_merge_spec_perm (plan : GB_plan) (a b out : list GB_entry) :
  (forall e, e ∈ a -> cast_A_to_C plan e.2 (asize plan) = e.2) ->
  (forall e, e ∈ b -> cast_B_to_C plan e.2 (bsize plan) = e.2) ->
  (forall i, i ∈ a.*1 -> i ∉ b.*1) ->
  GB_merge_spec plan (fun _ => true) a b = GB_ok out ->
  out ≡ₚ a ++ b.
Proof.
  revert out. pattern a, b. apply GB_merge_ind; clear a b.
  - intros b out _ Hb _. rewrite GB_merge_spec_nil_l, GB_masked_true.
    intros [= <-]. cbn [app]. rewrite GB_fmap_cast_id; [done|].
    intros e He. unfold GB_cast_B. rewrite (Hb e He).
    by rewrite <- surjective_pairing.
  - intros a out Ha _ _. rewrite GB_merge_spec_nil_r, GB_masked_true.
    intros [= <-]. rewrite app_nil_r, GB_fmap_cast_id; [done|].
    intros e He. unfold GB_cast_A. rewrite (Ha e He).
    by rewrite <- surjective_pairing.
  - intros ea a eb b IH1 IH2 IH3 out Ha Hb Hd.
    rewrite GB_merge_spec_cons. repeat case_decide.
    + intros Hm. apply GB_fmap_ok in Hm as (out' & Hm & ->).
      cbn [GB_emit]. unfold GB_cast_A.
      rewrite (Ha ea) by apply list_elem_of_here.
      rewrite <- surjective_pairing. cbn [app]. f_equiv.
      apply IH1; [| done | | done].
      * intros e He. apply Ha. by apply list_elem_of_further.
      * intros i Hi. apply Hd. rewrite fmap_cons.
        by apply list_elem_of_further.
    + intros Hm. apply GB_fmap_ok in Hm as (out' & Hm & ->).
      cbn [GB_emit]. unfold GB_cast_B.
      rewrite (Hb eb) by apply list_elem_of_here.
      rewrite <- surjective_pairing.
      rewrite <- Permutation_middle. f_equiv.
      apply IH2; [done | | | done].
      * intros e He. apply Hb. by apply list_elem_of_further.
      * intros i Hi Hi'. apply (Hd i Hi). rewrite fmap_cons.
        by apply list_elem_of_further.
    + exfalso. apply (Hd ea.1).
      * rewrite fmap_cons. apply list_elem_of_here.
      * rewrite fmap_cons. replace ea.1 with eb.1 by lia.
        apply list_elem_of_here.
Qed.

(** With no operator, a task that finds a row in both A and B stops. *)
Lemma GB_task_entries_null (cfg : GB_build) (a : GB_add_phase2_args)
    (t : GB_task_struct) (i : Z) :
  in_op a = None -> in_M a = None ->
  GB_inputs_ok a = true -> t ∈ GB_tasks_of a ->
  i ∈ (GB_task_A (in_A a) t).*1 -> i ∈ (GB_task_B (in_B a) t).*1 ->
  GB_task_entries (GB_plan_of cfg a) (in_M a) (in_Mask_struct a)
    (in_A a) (in_B a) t = GB_null_call.
Proof.
  intros Hop HM Hin Ht HiA HiB.
  unfold GB_inputs_ok in Hin. rewrite andb_true_iff, !forallb_forall in Hin.
  destruct Hin as [Hb Hs]. apply list_elem_of_In in Ht.
  specialize (Hb _ Ht). specialize (Hs _ Ht).
  unfold GB_task_sorted in Hs.
  rewrite andb_true_iff, !GB_ascending_StronglySorted in Hs.
  destruct Hs as [HsA HsB].
  rewrite (GB_task_entries_spec _ _ _ _ _ _ Hb).
  destruct (GB_merge_spec _ _ _ _) as [out|] eqn:Hm; [|done].
  exfalso.
  pose proof (GB_merge_spec_lookup _ _ _ _ _ HsA HsB Hm i) as Hl.
  unfold GB_task_mask in Hl. rewrite HM in Hl.
  apply GB_lookup_is_Some in HiA as [x Hx].
  apply GB_lookup_is_Some in HiB as [y Hy].
  rewrite Hx, Hy in Hl. cbn [GB_rule_result] in Hl.
  unfold GB_BINOP in Hl. rewrite GB_fadd_plan, Hop in Hl. done.
Qed.

Lemma GB_merged_stopped (cfg : GB_build) (env : GB_env)
    (a : GB_add_phase2_args) (t : GB_task_struct) :
  GB_sched_ok a (env_sched env) = true -> t ∈ GB_tasks_of a ->
  GB_task_entries (GB_plan_of cfg a) (in_M a) (in_Mask_struct a)
    (in_A a) (in_B a) t = GB_null_call ->
  GB_merged cfg env a = GB_null_call.
Proof.
  intros Hsched Hin Hfail.
  apply list_elem_of_lookup_1 in Hin as [id Hid].
  unfold GB_merged, GB_add_template. fold (GB_tasks_of a).
  rewrite (GB_run_tasks_fail _ _ _ _ _ _ (env_sched env) id t); try done.
  rewrite (GB_sched_ok_perm _ _ Hsched). apply elem_of_seq.
  apply lookup_lt_Some in Hid. lia.
Qed.

(** ** Another schedule, another number of threads *)

Lemma GB_merged_sched (cfg : GB_build) (env : GB_env)
    (a : GB_add_phase2_args) (sched : list nat) (nthreads : nat) :
  GB_tasks_partition cfg a = true ->
  GB_sched_ok a (env_sched env) = true -> GB_sched_ok a sched = true ->
  GB_merged cfg (GB_with_sched env sched) (GB_with_nthreads a nthreads)
  = GB_merged cfg env a.
Proof.
  intros Hpart Hs1 Hs2.
  pose proof (GB_partition_writes_disjoint cfg a Hpart) as Hdis.
  assert (sched ≡ₚ env_sched env) as Hperm.
  { by rewrite (GB_sched_ok_perm _ _ Hs1), (GB_sched_ok_perm _ _ Hs2). }
  unfold GB_merged, GB_add_template.
  change (env_sched (GB_with_sched env sched)) with sched.
  change (GB_shell (GB_with_sched env sched) (GB_with_nthreads a nthreads))
    with (GB_shell env a).
  change (GB_plan_of cfg (GB_with_nthreads a nthreads))
    with (GB_plan_of cfg a).
  cbn [GB_with_nthreads in_M in_Mask_struct in_A in_B in_ntasks in_TaskList].
  fold (GB_tasks_of a).
  by rewrite (GB_run_tasks_perm _ _ _ _ _ _ _ _ Hdis Hperm).
Qed.

(** ** The shape of a trace *)

Lemma GB_run_shape (cfg : GB_build) (env : GB_env) (a : GB_add_phase2_args) :
  GB_add_phase2_run cfg env a
  = if env_create_ok env then
      match GB_merged cfg env a with
      | GB_null_call =>
          (GB_prefix env a ++ GB_work_frames cfg env a, GB_null_call)
      | GB_ok C =>
          let r := GB_phase2_finish env (GB_kernel_done cfg a)
                     (GB_shell_heap env) C in
          (GB_prefix env a ++ GB_work_frames cfg env a ++ r.1, r.2)
      end
    else
      ([ mkFrame at_entry None None GrB_SUCCESS false (env_heap env) ;
         mkFrame at_create_failed None None GrB_OUT_OF_MEMORY false
           (GB_FREE (in_Ch a) (GB_FREE (in_Cp a) (env_heap env))) ],
       GB_ok GrB_OUT_OF_MEMORY).
Proof.
  destruct (env_create_ok env) eqn:Hc.
  - rewrite (GB_run_created _ _ _ Hc), GB_phase2_work_eq.
    by destruct (GB_merged cfg env a).
  - by apply GB_run_create_failed.
Qed.

Lemma GB_merged_shape (cfg : GB_build) (env : GB_env)
    (a : GB_add_phase2_args) (C : GrB_Matrix) :
  GB_merged cfg env a = GB_ok C ->
  exists s, C = GB_with_storage (GB_shell env a) s.
Proof.
  unfold GB_merged, GB_add_template. intros Hm.
  apply GB_bind_ok in Hm as (s & _ & [= <-]). by exists s.
Qed.

(** The frames of the workers: C is the shell, the handle is NULL. *)
Lemma GB_work_frames_elem (cfg : GB_build) (env : GB_env)
    (a : GB_add_phase2_args) (f : GB_frame) :
  f ∈ GB_work_frames cfg env a ->
  (fr_point f = at_kernel \/ fr_point f = at_generic) /\
  fr_Chandle f = None /\ fr_C f = Some (GB_shell env a) /\
  fr_heap f = GB_shell_heap env.
Proof.
  unfold GB_work_frames.
  destruct (GB_launch cfg a), (GB_kernel_done cfg a); cbn [app];
    rewrite ?elem_of_cons, ?elem_of_nil; intros Hf;
    repeat (destruct Hf as [->|Hf]); try done; cbn; auto.
Qed.

Lemma GB_work_frames_kernel (cfg : GB_build) (env : GB_env)
    (a : GB_add_phase2_args) :
  (exists f, f ∈ GB_work_frames cfg env a /\ fr_point f = at_kernel)
  <-> is_Some (GB_launch cfg a).
Proof.
  unfold GB_work_frames, GB_kernel_done.
  destruct (GB_launch cfg a) as [[opcode xcode]|]; cbn [app].
  - split; [by eexists|]. intros _. eexists. split; [apply list_elem_of_here|done].
  - split; [|by intros [? ?]].
    intros (f & Hf & Hpt). apply list_elem_of_singleton in Hf. by subst.
Qed.

Lemma GB_work_frames_generic (cfg : GB_build) (env : GB_env)
    (a : GB_add_phase2_args) :
  (exists f, f ∈ GB_work_frames cfg env a /\ fr_point f = at_generic)
  <-> GB_kernel_done cfg a = false.
Proof.
  unfold GB_work_frames.
  destruct (GB_kernel_done cfg a); rewrite app_nil_r || idtac.
  - split; [|done]. intros (f & Hf & Hpt).
    destruct (GB_launch cfg a); [|by apply elem_of_nil in Hf].
    apply list_elem_of_singleton in Hf. by subst.
  - split; [done|]. intros _. eexists.
    split; [apply elem_of_app; right; apply list_elem_of_here | reflexivity].
Qed.

Lemma GB_launch_cond (cfg : GB_build) (a : GB_add_phase2_args) :
  is_Some (GB_launch cfg a) <-> GBCOMPACT cfg = false /\ GB_kernel_cond cfg a.
Proof.
  unfold GB_launch, GB_kernel_cond.
  destruct (GBCOMPACT cfg).
  { split; [by intros [? ?]|by intros [? _]]. }
  destruct (GB_binop_builtin _ _ _ _ _ _ _) as [[[[opcode xcode] ycode] zcode]|].
  - case_decide as Hz.
    + split; [|by eexists]. intros _. split; [done|]. by exists opcode, xcode, ycode, zcode.
    + split; [by intros [? ?]|].
      intros [_ (o' & x' & y' & z' & [= <- <- <- <-] & Hz')]. done.
  - split; [by intros [? ?]|]. by intros [_ (o' & x' & y' & z' & ? & _)].
Qed.

(** Where the trace of a call reaches a worker. *)
Lemma GB_reaches_worker (cfg : GB_build) (env : GB_env)
    (a : GB_add_phase2_args) (pt : GB_point) :
  env_create_ok env = true -> pt = at_kernel \/ pt = at_generic ->
  GB_reaches (GB_add_phase2_run cfg env a) pt
  <-> exists f, f ∈ GB_work_frames cfg env a /\ fr_point f = pt.
Proof.
  intros Hc Hpt. unfold GB_reaches. rewrite GB_run_shape, Hc.
  destruct (GB_merged cfg env a) as [C|]; cbn [fst].
  - unfold GB_phase2_finish, GB_prefix. cbn zeta. split.
    + intros (f & Hf & Hp).
      rewrite !elem_of_app in Hf. destruct Hf as [Hf|[Hf|Hf]].
      * rewrite !elem_of_cons, elem_of_nil in Hf.
        destruct Hpt; subst; destruct Hf as [->|[->|[->|[->|[]]]]]; done.
      * by exists f.
      * case_decide; cbn [fst] in Hf; rewrite !elem_of_cons, elem_of_nil in Hf;
          destruct Hpt; subst; destruct Hf as [->|[->|[]]]; done.
    + intros (f & Hf & Hp). exists f. split; [|done].
      rewrite !elem_of_app. auto.
  - unfold GB_prefix. split.
    + intros (f & Hf & Hp).
      rewrite !elem_of_app in Hf. destruct Hf as [Hf|Hf].
      * rewrite !elem_of_cons, elem_of_nil in Hf.
        destruct Hpt; subst; destruct Hf as [->|[->|[->|[->|[]]]]]; done.
      * by exists f.
    + intros (f & Hf & Hp). exists f. split; [|done].
      rewrite !elem_of_app. auto.
Qed.

(** ** The states of a trace *)

Lemma GB_prefix_kinds (env : GB_env) (a : GB_add_phase2_args) :
  Forall GB_frame_kind (GB_prefix env a).
Proof.
  unfold GB_prefix. repeat apply Forall_cons_2; [| | | |apply Forall_nil_2].
  - left. cbn. auto.
  - right. left. cbn. split; [done|]. split; [by eexists|auto].
  - right. left. cbn. split; [done|]. split; [by eexists|auto].
  - right. right. left. cbn. split; [done|]. split; [by eexists|auto].
Qed.

Lemma GB_work_frames_kinds (cfg : GB_build) (env : GB_env)
    (a : GB_add_phase2_args) :
  Forall GB_frame_kind (GB_work_frames cfg env a).
Proof.
  apply Forall_forall. intros f Hf.
  apply GB_work_frames_elem in Hf as (Hpt & Hh & HC & _).
  right. right. left. split; [done|]. split; [by eexists|].
  destruct Hpt; auto.
Qed.

Lemma GB_finish_kinds (env : GB_env) (done : bool) (hp : GB_heap)
    (C : GrB_Matrix) :
  mat_magic C = GB_MAGIC ->
  Forall GB_frame_kind (GB_phase2_finish env done hp C).1.
Proof.
  intros Hmagic. unfold GB_phase2_finish.
  destruct (GB_prune_storage (env_prune_ok env) C hp) as (_ & _ & Hm).
  rewrite Hmagic in Hm. cbn zeta.
  set (r := GB_hypermatrix_prune (env_prune_ok env) C hp) in *.
  case_decide; cbn [fst]; repeat apply Forall_cons_2; try apply Forall_nil_2.
  - right. right. left. cbn. split; [done|]. split; [by eexists|auto].
  - left. cbn. auto.
  - right. right. left. cbn. split; [done|]. split; [by eexists|auto].
  - right. right. right. cbn. split; [by eexists|done].
Qed.

Lemma GB_run_kinds (cfg : GB_build) (env : GB_env) (a : GB_add_phase2_args) :
  Forall GB_frame_kind (GB_add_phase2_run cfg env a).1.
Proof.
  rewrite GB_run_shape. destruct (env_create_ok env).
  - destruct (GB_merged cfg env a) as [C|] eqn:Hm; cbn [fst].
    + rewrite !Forall_app. split; [apply GB_prefix_kinds|].
      split; [apply GB_work_frames_kinds|].
      apply GB_finish_kinds.
      by destruct (GB_merged_shape _ _ _ _ Hm) as [s ->].
    + rewrite !Forall_app. split; [apply GB_prefix_kinds|].
      apply GB_work_frames_kinds.
  - cbn [fst]. repeat apply Forall_cons_2; [| |apply Forall_nil_2].
    + left. cbn. auto.
    + left. cbn. auto.
Qed.

Lemma GB_finish_points (env : GB_env) (done : bool) (hp : GB_heap)
    (C : GrB_Matrix) :
  fr_point <$> (GB_phase2_finish env done hp C).1 = [at_pruned; at_return] \/
  fr_point <$> (GB_phase2_finish env done hp C).1
  = [at_pruned; at_prune_failed].
Proof. unfold GB_phase2_finish. case_decide; cbn; auto. Qed.

Lemma GB_run_points (cfg : GB_build) (env : GB_env) (a : GB_add_phase2_args) :
  env_create_ok env = true ->
  exists rest,
    GB_points (GB_add_phase2_run cfg env a)
    = [at_entry; at_created; at_transplanted; at_magic] ++ rest /\
    Forall (fun pt => pt = at_kernel \/ pt = at_generic \/ pt = at_pruned \/
                      pt = at_prune_failed \/ pt = at_return) rest.
Proof.
  intros Hc. unfold GB_points. rewrite GB_run_shape, Hc.
  assert (Forall (fun pt => pt = at_kernel \/ pt = at_generic \/
                    pt = at_pruned \/ pt = at_prune_failed \/ pt = at_return)
            (fr_point <$> GB_work_frames cfg env a)) as Hwork.
  { apply Forall_fmap, Forall_forall. intros f Hf.
    apply GB_work_frames_elem in Hf as ([Hp|Hp] & _); cbn; rewrite Hp; auto. }
  destruct (GB_merged cfg env a) as [C|]; cbn [fst]; rewrite !fmap_app.
  - eexists. split; [reflexivity|]. apply Forall_app. split; [done|].
    destruct (GB_finish_points env (GB_kernel_done cfg a) (GB_shell_heap env) C)
      as [-> | ->]; repeat apply Forall_cons_2; auto 10.
  - eexists. split; [reflexivity|]. done.
Qed.


(** ** Pieces of a vector *)

Lemma GB_slice_app {T} (X : list T) (a b c : nat) :
  a <= b <= c -> GB_slice X a c = GB_slice X a b ++ GB_slice X b c.
Proof.
  intros [Hab Hbc]. unfold GB_slice.
  replace (c - a) with ((b - a) + (c - b)) by lia.
  rewrite <- take_take_drop, drop_drop. do 3 f_equal. lia.
Qed.

Lemma GB_entries_app (Xi : list Z) (Xx : list GB_void) (a b c : nat) :
  a <= b <= c -> length Xi = length Xx ->
  GB_entries Xi Xx a c = GB_entries Xi Xx a b ++ GB_entries Xi Xx b c.
Proof.
  intros Habc Hlen. unfold GB_entries.
  rewrite (GB_slice_app Xi a b c), (GB_slice_app Xx a b c) by done.
  apply zip_with_app.
  unfold GB_slice. by rewrite !length_take, !length_drop, Hlen.
Qed.

Lemma GB_chain_le (rs : list (nat * nat)) (s e : nat) :
  GB_chain rs s e = true -> s <= e.
Proof.
  revert s. induction rs as [|r rs IH]; intros s; cbn [GB_chain].
  - rewrite bool_decide_eq_true. lia.
  - rewrite !andb_true_iff, !bool_decide_eq_true.
    intros [[<- Hle] Hrs]. specialize (IH _ Hrs). lia.
Qed.

Lemma GB_chain_entries (Xi : list Z) (Xx : list GB_void)
    (rs : list (nat * nat)) (s e : nat) :
  length Xi = length Xx -> GB_chain rs s e = true ->
  GB_entries Xi Xx s e = concat ((fun r => GB_entries Xi Xx r.1 r.2) <$> rs).
Proof.
  intros Hlen. revert s. induction rs as [|r rs IH]; intros s; cbn [GB_chain].
  - rewrite bool_decide_eq_true. intros <-. by rewrite GB_entries_nil.
  - rewrite !andb_true_iff, !bool_decide_eq_true.
    intros [[<- Hle] Hrs]. pose proof (GB_chain_le _ _ _ Hrs) as Hle'.
    rewrite fmap_cons, concat_cons, <- (IH _ Hrs).
    by apply GB_entries_app.
Qed.

Lemma GB_elem_of_concat {T} (x : T) (ls : list (list T)) :
  x ∈ concat ls <-> exists l, x ∈ l /\ l ∈ ls.
Proof.
  induction ls as [|l0 ls IH]; cbn [concat].
  - split; [by intros ?%elem_of_nil|]. by intros (l & _ & ?%elem_of_nil).
  - rewrite elem_of_app, IH. split.
    + intros [Hx|(l & Hx & Hl)].
      * exists l0. split; [done|apply list_elem_of_here].
      * exists l. split; [done|by apply list_elem_of_further].
    + intros (l & Hx & Hl). apply elem_of_cons in Hl as [->|Hl]; eauto.
Qed.

Lemma GB_rows_split_cons (l : list Z) (ls : list (list Z)) :
  GB_rows_split (l :: ls) = true <->
  (forall i i', i ∈ l -> i' ∈ concat ls -> (i < i')%Z) /\
  GB_rows_split ls = true.
Proof.
  cbn [GB_rows_split]. rewrite andb_true_iff, forallb_forall.
  split; intros [Hl Hls]; (split; [|done]).
  - intros i i' Hi Hi'. apply list_elem_of_In in Hi.
    specialize (Hl _ Hi). rewrite forallb_forall in Hl.
    apply GB_elem_of_concat in Hi' as (l' & Hi' & Hl').
    apply list_elem_of_In in Hl'. specialize (Hl _ Hl').
    rewrite forallb_forall in Hl. apply list_elem_of_In in Hi'.
    specialize (Hl _ Hi'). by apply bool_decide_eq_true in Hl.
  - intros i Hi. apply forallb_forall. intros l' Hl'.
    apply forallb_forall. intros i' Hi'. apply bool_decide_eq_true.
    apply list_elem_of_In in Hi, Hl', Hi'. apply Hl; [done|].
    apply GB_elem_of_concat. eauto.
Qed.

(** ** The merge of a vector cut into pieces *)

Section merge_pieces.

Variable plan : GB_plan.
Variable mij : Z -> bool.

Lemma GB_masked_app (es1 es2 : list GB_entry) :
  GB_masked mij (es1 ++ es2) = GB_masked mij es1 ++ GB_masked mij es2.
Proof. apply filter_app. Qed.

Lemma GB_emit_app (keep : bool) (e : GB_entry) (es1 es2 : list GB_entry) :
  GB_emit keep e es1 ++ es2 = GB_emit keep e (es1 ++ es2).
Proof. by destruct keep. Qed.

Lemma GB_merge_spec_app_l (a1 a2 b2 o2 : list GB_entry) :
  (forall i i', i ∈ a1.*1 -> i' ∈ b2.*1 -> (i < i')%Z) ->
  GB_merge_spec plan mij a2 b2 = GB_ok o2 ->
  GB_merge_spec plan mij (a1 ++ a2) b2
  = GB_ok (GB_masked mij (GB_cast_A plan <$> a1) ++ o2).
Proof.
  intros Hsep Hm. induction a1 as [|ea a1 IH]; [done|].
  destruct b2 as [|eb b2].
  - rewrite GB_merge_spec_nil_r in Hm. injection Hm as <-.
    by rewrite GB_merge_spec_nil_r, <- GB_masked_app, <- fmap_app.
  - cbn [app]. rewrite GB_merge_spec_cons.
    rewrite decide_True by (apply Hsep; rewrite fmap_cons; apply list_elem_of_here).
    rewrite IH.
    + cbn [GB_fmap GB_bind]. by rewrite fmap_cons, GB_masked_cons, GB_emit_app.
    + intros i i' Hi. apply Hsep. rewrite fmap_cons.
      by apply list_elem_of_further.
Qed.

Lemma GB_merge_spec_app_r (b1 a2 b2 o2 : list GB_entry) :
  (forall i i', i ∈ b1.*1 -> i' ∈ a2.*1 -> (i < i')%Z) ->
  GB_merge_spec plan mij a2 b2 = GB_ok o2 ->
  GB_merge_spec plan mij a2 (b1 ++ b2)
  = GB_ok (GB_masked mij (GB_cast_B plan <$> b1) ++ o2).
Proof.
  intros Hsep Hm. induction b1 as [|eb b1 IH]; [done|].
  destruct a2 as [|ea a2].
  - rewrite GB_merge_spec_nil_l in Hm. injection Hm as <-.
    by rewrite GB_merge_spec_nil_l, <- GB_masked_app, <- fmap_app.
  - cbn [app]. rewrite GB_merge_spec_cons.
    assert (eb.1 < ea.1)%Z as Hlt.
    { apply Hsep; rewrite fmap_cons; apply list_elem_of_here. }
    rewrite decide_False by lia. rewrite decide_True by done.
    rewrite IH.
    + cbn [GB_fmap GB_bind]. by rewrite fmap_cons, GB_masked_cons, GB_emit_app.
    + intros i i' Hi. apply Hsep. rewrite fmap_cons.
      by apply list_elem_of_further.
Qed.

(** The merge of two vectors cut at a row index is the merge of the parts
    below the cut followed by the merge of the parts above it. *)
Lemma GB_merge_spec_app (a1 b1 a2 b2 o1 o2 : list GB_entry) :
  (forall i i', i ∈ (a1 ++ b1).*1 -> i' ∈ (a2 ++ b2).*1 -> (i < i')%Z) ->
  GB_merge_spec plan mij a1 b1 = GB_ok o1 ->
  GB_merge_spec plan mij a2 b2 = GB_ok o2 ->
  GB_merge_spec plan mij (a1 ++ a2) (b1 ++ b2) = GB_ok (o1 ++ o2).
Proof.
  intros Hsep H1 H2. revert o1 Hsep H1. pattern a1, b1.
  apply GB_merge_ind; clear a1 b1.
  - intros b1 o1 Hsep. rewrite GB_merge_spec_nil_l. intros [= <-].
    apply GB_merge_spec_app_r; [|done].
    intros i i' Hi Hi'. apply Hsep; rewrite fmap_app, elem_of_app; auto.
  - intros a1 o1 Hsep. rewrite GB_merge_spec_nil_r. intros [= <-].
    apply GB_merge_spec_app_l; [|done].
    intros i i' Hi Hi'. rewrite app_nil_r in Hsep.
    apply Hsep; [done|]. rewrite fmap_app, elem_of_app. auto.
  - intros ea a eb b IH1 IH2 IH3 o1 Hsep.
    cbn [app]. rewrite !GB_merge_spec_cons.
    assert (forall a' b', a' ⊆ ea :: a -> b' ⊆ eb :: b ->
              forall i i', i ∈ (a' ++ b').*1 -> i' ∈ (a2 ++ b2).*1 ->
                (i < i')%Z) as Hsub.
    { intros a' b' Ha' Hb' i i' Hi. apply Hsep.
      rewrite fmap_app, elem_of_app in Hi. rewrite fmap_app, elem_of_app.
      destruct Hi as [Hi|Hi]; [left|right];
        apply list_elem_of_fmap in Hi as (e & -> & He);
        apply list_elem_of_fmap_2; auto. }
    repeat case_decide.
    + intros Hm. apply GB_fmap_ok in Hm as (o' & Hm & ->).
      assert (GB_merge_spec plan mij (a ++ a2) ((eb :: b) ++ b2)
              = GB_ok (o' ++ o2)) as IH.
      { apply IH1; [|done]. apply Hsub; [|done]. by apply list_subseteq_cons. }
      cbn [app] in IH. rewrite IH. cbn [GB_fmap GB_bind]. by rewrite GB_emit_app.
    + intros Hm. apply GB_fmap_ok in Hm as (o' & Hm & ->).
      assert (GB_merge_spec plan mij ((ea :: a) ++ a2) (b ++ b2)
              = GB_ok (o' ++ o2)) as IH.
      { apply IH2; [|done]. apply Hsub; [done|]. by apply list_subseteq_cons. }
      cbn [app] in IH. rewrite IH. cbn [GB_fmap GB_bind]. by rewrite GB_emit_app.
    + destruct (mij eb.1).
      * intros Hm. apply GB_bind_ok in Hm as (cij & -> & Hm).
        apply GB_fmap_ok in Hm as (o' & Hm & ->). cbn [GB_bind].
        rewrite (IH3 o'); [done| |done].
        apply Hsub; by apply list_subseteq_cons.
      * intros Hm. apply (IH3 o1); [|done].
        apply Hsub; by apply list_subseteq_cons.
Qed.

Lemma GB_merge_spec_concat
    (ps : list (list GB_entry * list GB_entry)) (outs : list (list GB_entry)) :
  Forall2 (fun p o => GB_merge_spec plan mij p.1 p.2 = GB_ok o) ps outs ->
  GB_rows_split ((fun p => (p.1 ++ p.2).*1) <$> ps) = true ->
  GB_merge_spec plan mij (concat ps.*1) (concat ps.*2) = GB_ok (concat outs).
Proof.
  induction 1 as [|p o ps outs Hp _ IH]; [done|].
  rewrite fmap_cons, GB_rows_split_cons. intros [Hsep Hsplit].
  rewrite !fmap_cons, !concat_cons.
  apply GB_merge_spec_app; [|done|by apply IH].
  intros i i' Hi Hi'. apply Hsep; [done|].
  rewrite fmap_app, elem_of_app in Hi'. apply GB_elem_of_concat.
  destruct Hi' as [Hi'|Hi']; apply list_elem_of_fmap in Hi' as (e & -> & He);
    apply GB_elem_of_concat in He as (l & He & Hl);
    apply list_elem_of_fmap in Hl as (q & -> & Hq);
    exists ((q.1 ++ q.2).*1).
  - split; [|by apply (list_elem_of_fmap_2 (fun p => (p.1 ++ p.2).*1))].
    rewrite fmap_app, elem_of_app. left. by apply list_elem_of_fmap_2.
  - split; [|by apply (list_elem_of_fmap_2 (fun p => (p.1 ++ p.2).*1))].
    rewrite fmap_app, elem_of_app. right. by apply list_elem_of_fmap_2.
Qed.

End merge_pieces.

Lemma GB_masked_ext_rows (m1 m2 : Z -> bool) (es : list GB_entry) :
  (forall i, i ∈ es.*1 -> m1 i = m2 i) -> GB_masked m1 es = GB_masked m2 es.
Proof.
  induction es as [|e es IH]; intros Hext; [done|].
  rewrite !GB_masked_cons, IH, Hext; [done|..].
  - rewrite fmap_cons. apply list_elem_of_here.
  - intros i Hi. apply Hext. rewrite fmap_cons. by apply list_elem_of_further.
Qed.

(** The merge consults the mask at the rows of A and of B only. *)
Lemma GB_merge_spec_ext_rows (plan : GB_plan) (m1 m2 : Z -> bool)
    (a b : list GB_entry) :
  (forall i, i ∈ (a ++ b).*1 -> m1 i = m2 i) ->
  GB_merge_spec plan m1 a b = GB_merge_spec plan m2 a b.
Proof.
  pattern a, b. apply GB_merge_ind; clear a b.
  - intros b Hext. rewrite !GB_merge_spec_nil_l. f_equal.
    apply GB_masked_ext_rows. intros i Hi. apply Hext.
    rewrite <- list_fmap_compose in Hi. done.
  - intros a Hext. rewrite !GB_merge_spec_nil_r. f_equal.
    apply GB_masked_ext_rows. intros i Hi. apply Hext.
    rewrite app_nil_r. rewrite <- list_fmap_compose in Hi. done.
  - intros ea a eb b IH1 IH2 IH3 Hext.
    assert (forall a' b', a' ⊆ ea :: a -> b' ⊆ eb :: b ->
              forall i, i ∈ (a' ++ b').*1 -> m1 i = m2 i) as Hsub.
    { intros a' b' Ha' Hb' i Hi. apply Hext.
      rewrite fmap_app, elem_of_app in Hi. rewrite fmap_app, elem_of_app.
      destruct Hi as [Hi|Hi]; [left|right];
        apply list_elem_of_fmap in Hi as (e & -> & He);
        apply list_elem_of_fmap_2; auto. }
    rewrite !GB_merge_spec_cons.
    rewrite IH1 by (apply Hsub; [by apply list_subseteq_cons|done]).
    rewrite IH2 by (apply Hsub; [done|by apply list_subseteq_cons]).
    rewrite IH3 by (apply Hsub; by apply list_subseteq_cons).
    rewrite (Hext ea.1), (Hext eb.1); [done|..];
      rewrite fmap_app, !fmap_cons, elem_of_app, !elem_of_cons; auto.
Qed.

(** ** Vectors and the pruning step *)

Lemma GB_find_vector_elem (j : Z) (vs : list (Z * list GB_entry)) :
  GB_find_vector j vs = [] \/ (j, GB_find_vector j vs) ∈ vs.
Proof.
  induction vs as [|[j' v] vs IH]; cbn [GB_find_vector fst snd]; [by left|].
  case_decide as Hj; [subst; right; apply list_elem_of_here|].
  destruct IH; [by left|right; by apply list_elem_of_further].
Qed.

Lemma GB_vector_at_sorted (A : GrB_Matrix) (j : Z) :
  GB_matrix_sorted A = true -> StronglySorted Z.lt (GB_vector_at A j).*1.
Proof.
  unfold GB_matrix_sorted, GB_vector_at. rewrite forallb_forall. intros Hs.
  destruct (GB_find_vector_elem j (GB_vectors A)) as [->|Hin]; [constructor|].
  apply GB_ascending_StronglySorted. apply list_elem_of_In in Hin.
  exact (Hs _ Hin).
Qed.

Lemma GB_ranges_cons (j : Z) (h : list Z) (pk pk1 : nat) (p : list nat) :
  GB_ranges (j :: h) (pk :: pk1 :: p)
  = (j, (pk, pk1)) :: GB_ranges h (pk1 :: p).
Proof. reflexivity. Qed.

(** Dropping empty vectors does not move the start of the first one. *)
Lemma GB_hyper_prune_head (h : list Z) (p : list nat) :
  Forall (fun r => r.1 <= r.2) (zip p (tail p)) ->
  head (GB_hyper_prune h p).2 = head p.
Proof.
  revert p. induction h as [|j h IH]; intros p Hp; [done|].
  destruct p as [|pk [|pk1 p]]; [done..|].
  cbn [GB_hyper_prune]. cbn [tail zip zip_with] in Hp.
  apply Forall_cons in Hp as [Hle Hp]. cbn [fst snd] in Hle.
  case_decide as Hlt; [done|].
  rewrite (IH (pk1 :: p) Hp). cbn [head]. f_equal. lia.
Qed.

(** The slots the pruning step keeps are the non-empty ones, each with its
    identity and its range. *)
Lemma GB_hyper_prune_ranges (h : list Z) (p : list nat) :
  Forall (fun r => r.1 <= r.2) (zip p (tail p)) ->
  GB_ranges (GB_hyper_prune h p).1 (GB_hyper_prune h p).2
  = filter (fun r => r.2.1 < r.2.2) (GB_ranges h p).
Proof.
  revert p. induction h as [|j h IH]; intros p Hp; [done|].
  destruct p as [|pk [|pk1 p]]; [done..|].
  rewrite GB_ranges_cons, filter_cons. cbn [GB_hyper_prune fst snd].
  cbn [tail zip zip_with] in Hp.
  apply Forall_cons in Hp as [Hle Hp].
  specialize (IH (pk1 :: p) Hp).
  pose proof (GB_hyper_prune_head h (pk1 :: p) Hp) as Hhd.
  destruct (GB_hyper_prune h (pk1 :: p)) as [h' p'] eqn:Hr.
  cbn [fst snd] in *.
  case_decide as Hlt; [|done]. cbn [fst snd].
  destruct p' as [|q p']; [done|]. injection Hhd as ->.
  by rewrite GB_ranges_cons, IH.
Qed.

Lemma GB_slot_entries_nonempty (Xi : list Z) (Xx : list GB_void)
    (r : Z * (nat * nat)) :
  (GB_slot_entries Xi Xx r).2 <> [] -> r.2.1 < r.2.2.
Proof.
  unfold GB_slot_entries. cbn [snd]. intros Hne.
  destruct (decide (r.2.1 < r.2.2)) as [|Hge]; [done|].
  destruct Hne. apply GB_entries_nil. lia.
Qed.

Lemma GB_vectors_hyper (C : GrB_Matrix) :
  mat_is_hyper C = true ->
  GB_vectors C
  = GB_slot_entries (GB_cells (mat_i C)) (GB_cells (mat_x C)) <$>
    GB_ranges (GB_cells (mat_h C)) (GB_cells (mat_p C)).
Proof. intros Hh. unfold GB_vectors, GB_identities. by rewrite Hh. Qed.

(** The vectors of C after the pruning step: those of C before it, the
    empty ones removed when C is hypersparse. *)
Lemma GB_prune_vectors (ok : bool) (C : GrB_Matrix) (hp : GB_heap) :
  Forall (fun r => r.1 <= r.2)
    (zip (GB_cells (mat_p C)) (tail (GB_cells (mat_p C)))) ->
  let C' := (GB_hypermatrix_prune ok C hp).1.2 in
  (forall v, v ∈ GB_vectors C' -> v ∈ GB_vectors C) /\
  (forall v, v ∈ GB_vectors C -> mat_is_hyper C = false \/ v.2 <> [] ->
     v ∈ GB_vectors C').
Proof.
  intros Hp. cbn zeta. unfold GB_hypermatrix_prune.
  destruct (mat_is_hyper C) eqn:Hh; [|done].
  case_decide as Hlen; [done|]. destruct ok; [|done].
  cbn [fst snd]. rewrite !GB_vectors_hyper by done.
  cbn [mat_h mat_p mat_i mat_x GB_cells cells].
  rewrite (GB_hyper_prune_ranges _ _ Hp).
  split.
  - intros v Hv. apply list_elem_of_fmap in Hv as (r & -> & Hr).
    apply list_elem_of_filter in Hr as [_ Hr]. by apply list_elem_of_fmap_2.
  - intros v Hv [Hf|Hne]; [done|].
    apply list_elem_of_fmap in Hv as (r & -> & Hr).
    apply list_elem_of_fmap_2, list_elem_of_filter. split; [|done].
    by apply GB_slot_entries_nonempty in Hne.
Qed.

(** ** The layout and the tasks of a call *)

Lemma GB_sorted_piece (ls : list (list GB_entry)) (l : list GB_entry) :
  StronglySorted Z.lt (concat ls).*1 -> l ∈ ls -> StronglySorted Z.lt l.*1.
Proof.
  induction ls as [|l0 ls IH]; [by intros _ ?%elem_of_nil|].
  rewrite concat_cons, fmap_app. intros Hs Hl.
  apply elem_of_cons in Hl as [->|Hl].
  - by apply StronglySorted_app_1_l in Hs.
  - apply StronglySorted_app_1_r in Hs. auto.
Qed.

Lemma GB_piece_subseteq {T} (f : GB_task_struct -> list T)
    (ts : list GB_task_struct) (t : GB_task_struct) (x : T) :
  t ∈ ts -> x ∈ f t -> x ∈ concat (f <$> ts).
Proof.
  intros Ht Hx. apply GB_elem_of_concat. exists (f t).
  split; [done|]. by apply list_elem_of_fmap_2.
Qed.

Section vectors_of_call.

Variables (cfg : GB_build) (env : GB_env) (a : GB_add_phase2_args).

Local Abbreviation plan := (GB_plan_of cfg a).
Local Abbreviation A := (in_A a).
Local Abbreviation B := (in_B a).
Local Abbreviation task_mask := (GB_task_mask (in_M a) (in_Mask_struct a)).
Local Abbreviation vector_mask := (GB_vector_mask (in_M a) (in_Mask_struct a)).

Hypothesis Hcover : GB_tasks_cover a = true.

Lemma GB_cover_Cp : length (GB_cells (in_Cp a)) = S (in_Cnvec a).
Proof.
  unfold GB_tasks_cover in Hcover.
  rewrite !andb_true_iff, bool_decide_eq_true in Hcover. by destruct Hcover as [[? _] _].
Qed.

Lemma GB_cover_slot (k : nat) : k < in_Cnvec a -> GB_slot_ok a k = true.
Proof.
  intros Hk. unfold GB_tasks_cover in Hcover.
  rewrite !andb_true_iff, !forallb_forall in Hcover.
  destruct Hcover as [[_ Hslots] _]. apply Hslots.
  apply list_elem_of_In, elem_of_seq. lia.
Qed.

Lemma GB_cover_task (t : GB_task_struct) :
  t ∈ GB_tasks_of a ->
  t_kfirst t < in_Cnvec a /\
  GB_task_in_bounds (in_M a) A B t = true /\
  t ∈ GB_pieces a (t_kfirst t).
Proof.
  intros Ht. unfold GB_tasks_cover in Hcover.
  rewrite !andb_true_iff, !forallb_forall in Hcover.
  destruct Hcover as [_ Htasks]. apply list_elem_of_In in Ht.
  specialize (Htasks _ Ht).
  rewrite andb_true_iff, bool_decide_eq_true in Htasks.
  destruct Htasks as [Hk Hb]. repeat split; [done..|].
  unfold GB_pieces. apply list_elem_of_filter. split; [done|].
  by apply list_elem_of_In.
Qed.

Lemma GB_pieces_tasks (k : nat) (t : GB_task_struct) :
  t ∈ GB_pieces a k -> t ∈ GB_tasks_of a /\ t_kfirst t = k.
Proof.
  unfold GB_pieces. intros Ht. by apply list_elem_of_filter in Ht as [? ?].
Qed.

Lemma GB_layout_length : length (GB_layout a) <= in_Cnvec a.
Proof.
  unfold GB_layout, GB_ranges. rewrite !length_zip_with.
  pose proof GB_cover_Cp as Hlen.
  destruct (GB_cells (in_Cp a)); cbn [length tail] in *; lia.
Qed.

Lemma GB_layout_lookup (k : nat) (r : Z * (nat * nat)) :
  GB_layout a !! k = Some r -> k < in_Cnvec a.
Proof.
  intros Hk. apply lookup_lt_Some in Hk. pose proof GB_layout_length. lia.
Qed.

(** What the contract says of a slot. *)
Lemma GB_slot_ok_inv (k : nat) (r : Z * (nat * nat)) :
  GB_layout a !! k = Some r ->
  GB_chain ((fun t => (t_pC t, t_pC_end t)) <$> GB_pieces a k) r.2.1 r.2.2
  = true /\
  concat (GB_task_A A <$> GB_pieces a k) = GB_vector_at A r.1 /\
  concat (GB_task_B B <$> GB_pieces a k) = GB_vector_at B r.1 /\
  GB_rows_split (GB_task_rows A B <$> GB_pieces a k) = true /\
  (forall t i, t ∈ GB_pieces a k -> i ∈ GB_task_rows A B t ->
     task_mask t i = vector_mask r.1 i).
Proof.
  intros Hr. pose proof (GB_cover_slot k (GB_layout_lookup k r Hr)) as Hok.
  unfold GB_slot_ok in Hok. rewrite Hr in Hok. cbn zeta in Hok.
  rewrite !andb_true_iff, !bool_decide_eq_true in Hok.
  destruct Hok as ((((Hch & HA) & HB) & Hsp) & Hmask).
  repeat split; try done.
  intros t i Ht Hi. rewrite forallb_forall in Hmask.
  apply list_elem_of_In in Ht. specialize (Hmask _ Ht).
  rewrite forallb_forall in Hmask. apply list_elem_of_In in Hi.
  specialize (Hmask _ Hi). by apply bool_decide_eq_true in Hmask.
Qed.

Lemma GB_layout_slot (k : nat) :
  k < in_Cnvec a -> exists r, GB_layout a !! k = Some r.
Proof.
  intros Hk. pose proof (GB_cover_slot k Hk) as Hok.
  unfold GB_slot_ok in Hok. destruct (GB_layout a !! k) as [r|]; [eauto|done].
Qed.

(** The vector pointers of the layout do not decrease. *)
Lemma GB_cover_Cp_le :
  Forall (fun r => r.1 <= r.2)
    (zip (GB_cells (in_Cp a)) (tail (GB_cells (in_Cp a)))).
Proof.
  apply Forall_lookup. intros k x Hx.
  assert (k < in_Cnvec a) as Hk.
  { apply lookup_lt_Some in Hx. rewrite length_zip_with in Hx.
    pose proof GB_cover_Cp as Hlen.
    destruct (GB_cells (in_Cp a)); cbn [length tail] in *; lia. }
  destruct (GB_layout_slot k Hk) as [r Hr].
  destruct (GB_slot_ok_inv k r Hr) as (Hch & _).
  apply GB_chain_le in Hch.
  unfold GB_layout, GB_ranges in Hr.
  apply lookup_zip_with_Some in Hr as (j & y & -> & _ & Hy).
  cbn [snd fst] in Hch. rewrite Hx in Hy. by injection Hy as ->.
Qed.

(** What a task reads is part of the vectors of its slot. *)
Lemma GB_task_rows_vector (t : GB_task_struct) :
  t ∈ GB_tasks_of a ->
  exists r, r ∈ GB_layout a /\
    GB_task_A A t ⊆ GB_vector_at A r.1 /\
    GB_task_B B t ⊆ GB_vector_at B r.1 /\
    (StronglySorted Z.lt (GB_vector_at A r.1).*1 ->
     StronglySorted Z.lt (GB_task_A A t).*1) /\
    (StronglySorted Z.lt (GB_vector_at B r.1).*1 ->
     StronglySorted Z.lt (GB_task_B B t).*1).
Proof.
  intros Ht. destruct (GB_cover_task t Ht) as (Hk & _ & Hp).
  destruct (GB_layout_slot _ Hk) as [r Hr]. exists r.
  destruct (GB_slot_ok_inv _ r Hr) as (_ & HA & HB & _).
  split; [by eapply list_elem_of_lookup_2|].
  rewrite <- HA, <- HB. repeat split.
  - intros e He. by apply (GB_piece_subseteq _ _ t).
  - intros e He. by apply (GB_piece_subseteq _ _ t).
  - intros Hs. apply (GB_sorted_piece _ _ Hs). by apply list_elem_of_fmap_2.
  - intros Hs. apply (GB_sorted_piece _ _ Hs). by apply list_elem_of_fmap_2.
Qed.

(** The contract on the layout gives the contract on each task. *)
Lemma GB_upstream_tasks_ok :
  GB_matrix_sorted A = true -> GB_matrix_sorted B = true ->
  GB_tasks_partition cfg a = true -> GB_tasks_ok cfg a = true.
Proof.
  intros HsA HsB Hpart. unfold GB_tasks_ok, GB_inputs_ok.
  rewrite Hpart, !andb_true_iff, !forallb_forall.
  repeat split; intros t Ht; apply list_elem_of_In in Ht.
  - by destruct (GB_cover_task t Ht) as (_ & ? & _).
  - destruct (GB_task_rows_vector t Ht) as (r & _ & _ & _ & HA & HB).
    unfold GB_task_sorted.
    rewrite andb_true_iff, !GB_ascending_StronglySorted.
    split; [apply HA|apply HB]; by apply GB_vector_at_sorted.
Qed.

Lemma GB_no_op_tasks_ok : GB_no_op_ok a = true -> GB_op_null_ok a = true.
Proof.
  unfold GB_no_op_ok, GB_op_null_ok. destruct (in_op a); [done|].
  rewrite !forallb_forall. intros Hdis t Ht. apply list_elem_of_In in Ht.
  destruct (GB_task_rows_vector t Ht) as (r & Hr & HA & HB & _).
  apply list_elem_of_In in Hr. specialize (Hdis _ Hr).
  unfold GB_disjoint in *. rewrite forallb_forall in Hdis.
  apply forallb_forall. intros i Hi. apply bool_decide_eq_true.
  apply list_elem_of_In in Hi. intros HiB.
  assert (i ∈ (GB_vector_at A r.1).*1) as HiA'.
  { apply list_elem_of_fmap in Hi as (e & -> & He).
    apply list_elem_of_fmap_2. by apply HA. }
  assert (i ∈ (GB_vector_at B r.1).*1) as HiB'.
  { apply list_elem_of_fmap in HiB as (e & -> & He).
    apply list_elem_of_fmap_2. by apply HB. }
  apply list_elem_of_In in HiA'. specialize (Hdis _ HiA').
  by apply bool_decide_eq_true in Hdis.
Qed.

(** The slot of a vector holds the merge of [A(:,j)] and [B(:,j)] once each
    of its tasks has written the merge of what it reads. *)
Lemma GB_slot_merged (s : GB_store) (k : nat) (r : Z * (nat * nat)) :
  length (Ci s) = length (Cx s) ->
  (forall t, t ∈ GB_tasks_of a ->
     GB_merge_spec plan (task_mask t) (GB_task_A A t) (GB_task_B B t)
     = GB_ok (GB_entries (Ci s) (Cx s) (t_pC t) (t_pC_end t))) ->
  GB_layout a !! k = Some r ->
  GB_merge_spec plan (vector_mask r.1)
    (GB_vector_at A r.1) (GB_vector_at B r.1)
  = GB_ok (GB_slot_entries (Ci s) (Cx s) r).2 /\
  GB_emitted cfg a k (GB_slot_entries (Ci s) (Cx s) r).2.
Proof.
  intros Hlen Htasks Hr.
  destruct (GB_slot_ok_inv k r Hr) as (Hch & HA & HB & Hsp & Hmask).
  set (ts := GB_pieces a k) in *.
  set (out := fun t => GB_entries (Ci s) (Cx s) (t_pC t) (t_pC_end t)).
  assert ((GB_slot_entries (Ci s) (Cx s) r).2 = concat (out <$> ts)) as ->.
  { unfold GB_slot_entries. cbn [snd].
    rewrite (GB_chain_entries _ _ _ _ _ Hlen Hch).
    by rewrite <- list_fmap_compose. }
  split.
  - rewrite <- HA, <- HB.
    pose proof (GB_merge_spec_concat plan (vector_mask r.1)
                  ((fun t => (GB_task_A A t, GB_task_B B t)) <$> ts)
                  (out <$> ts)) as Hc.
    rewrite <- !list_fmap_compose in Hc. apply Hc; [|exact Hsp].
    apply Forall2_fmap, Forall_Forall2_diag, Forall_forall.
    intros t Ht. cbn [fst snd]. unfold out.
    rewrite <- (Htasks t) by (by apply GB_pieces_tasks in Ht as [? _]).
    symmetry. apply GB_merge_spec_ext_rows. intros i Hi. by apply Hmask.
  - exists (out <$> ts). split; [|done].
    apply Forall2_fmap_r, Forall_Forall2_diag, Forall_forall.
    intros t Ht. apply GB_pieces_tasks in Ht as [Ht _].
    destruct (GB_cover_task t Ht) as (_ & Hb & _).
    rewrite (GB_task_entries_spec _ _ _ _ _ _ Hb). unfold out.
    by apply Htasks.
Qed.

(** C as the merge leaves it has the vectors of the layout. *)
Lemma GB_vectors_merged (s : GB_store) :
  GB_vectors (GB_with_storage (GB_shell env a) s)
  = GB_slot_entries (Ci s) (Cx s) <$> GB_layout a.
Proof.
  unfold GB_vectors, GB_layout, GB_Ai, GB_Ax.
  cbn -[GB_C_is_hyper GB_ranges GB_identities]. rewrite GB_cover_Cp.
  replace (S (in_Cnvec a) - 1) with (in_Cnvec a) by lia.
  unfold GB_identities. by destruct (GB_C_is_hyper a).
Qed.

End vectors_of_call.

(** ** The vectors of the matrix a call returns *)

(** The call under the contract: it returns C; every vector of C is a
    vector of the layout and holds the merge of [A(:,j)] and [B(:,j)], as
    the loops of its tasks emit it; every vector of the layout is a vector
    of C, unless C is hypersparse and the vector is empty. *)
Lemma GB_add_phase2_vectors (cfg : GB_build) (env : GB_env)
    (a : GB_add_phase2_args) :
  env_create_ok env = true -> env_prune_ok env = true ->
  GB_matrix_sorted (in_A a) = true -> GB_matrix_sorted (in_B a) = true ->
  GB_upstream_ok cfg a = true -> GB_no_op_ok a = true ->
  GB_sched_ok a (env_sched env) = true ->
  exists C hp,
    GB_add_phase2 cfg env a = GB_ok (GrB_SUCCESS, Some C, hp) /\
    (forall j Cj, (j, Cj) ∈ GB_vectors C ->
       exists k r, GB_layout a !! k = Some r /\ r.1 = j /\
         GB_merge_spec (GB_plan_of cfg a)
           (GB_vector_mask (in_M a) (in_Mask_struct a) j)
           (GB_vector_at (in_A a) j) (GB_vector_at (in_B a) j) = GB_ok Cj /\
         GB_emitted cfg a k Cj) /\
    (forall j, j ∈ (GB_layout a).*1 ->
       exists Cj,
         GB_merge_spec (GB_plan_of cfg a)
           (GB_vector_mask (in_M a) (in_Mask_struct a) j)
           (GB_vector_at (in_A a) j) (GB_vector_at (in_B a) j) = GB_ok Cj /\
         (GB_C_is_hyper a = false \/ Cj <> [] -> (j, Cj) ∈ GB_vectors C)).
Proof.
  intros Hc Hp HsA HsB Hup Hnull Hsched.
  unfold GB_upstream_ok in Hup. apply andb_true_iff in Hup as [Hcover Hpart].
  pose proof (GB_upstream_tasks_ok cfg a Hcover HsA HsB Hpart) as Hok.
  pose proof (GB_no_op_tasks_ok a Hcover Hnull) as Hnull'.
  destruct (GB_add_phase2_tasks cfg env a Hc Hp Hok Hnull' Hsched)
    as (s & Hm & Hli & Hlx & Hcall & Htasks).
  cbn zeta in Hcall.
  set (C1 := GB_with_storage (GB_shell env a) s) in *.
  assert (length (Ci s) = length (Cx s)) as Hlen by congruence.
  destruct (GB_prune_vectors true C1 (GB_shell_heap env)) as [Hin Hout].
  { exact (GB_cover_Cp_le a Hcover). }
  cbn zeta in Hin, Hout.
  pose proof (GB_vectors_merged env a Hcover s) as Hvec. fold C1 in Hvec.
  eexists _, _. split; [exact Hcall|]. split.
  - intros j Cj Hv. apply Hin in Hv. rewrite Hvec in Hv.
    apply list_elem_of_fmap in Hv as (r & Heq & Hr).
    apply list_elem_of_lookup_1 in Hr as [k Hk].
    destruct (GB_slot_merged cfg a Hcover s k r Hlen Htasks Hk) as [Hmg Hem].
    unfold GB_slot_entries in Heq. injection Heq as -> ->.
    by exists k, r.
  - intros j Hj. apply list_elem_of_fmap in Hj as (r & -> & Hr).
    pose proof Hr as Hr'. apply list_elem_of_lookup_1 in Hr' as [k Hk].
    destruct (GB_slot_merged cfg a Hcover s k r Hlen Htasks Hk) as [Hmg _].
    eexists. split; [exact Hmg|]. intros Hne. apply Hout.
    + rewrite Hvec. apply (list_elem_of_fmap_2 (GB_slot_entries _ _) _ _ Hr).
    + destruct Hne as [Hh|Hne]; [left|by right]. exact Hh.
Qed.

(** ** The rules, the mask and the no-operator call on vectors *)

Lemma GB_rule_add_rule (cfg : GB_build) (a : GB_add_phase2_args)
    (o : GrB_BinaryOp) (x y : option GB_void) :
  in_op a = Some o ->
  GB_rule (GB_plan_of cfg a) (op_function o) x y
  = GB_add_rule cfg (in_ctype a) o (in_A a) (in_B a) x y.
Proof.
  intros Hop. unfold GB_plan_of, GB_generic_plan, GB_rule, GB_add_rule.
  rewrite Hop. by destruct x, y.
Qed.

Lemma GB_vector_at_value (A : GrB_Matrix) (j : Z) (e : GB_entry) :
  e ∈ GB_vector_at A j -> e.2 ∈ GB_Ax A.
Proof.
  unfold GB_vector_at. intros He.
  destruct (GB_find_vector_elem j (GB_vectors A)) as [Hnil|Hin].
  - rewrite Hnil in He. by apply elem_of_nil in He.
  - set (es := GB_find_vector j (GB_vectors A)) in *.
    unfold GB_vectors in Hin. apply list_elem_of_fmap in Hin as (r & Heq & _).
    unfold GB_slot_entries in Heq. injection Heq as _ Heq.
    rewrite Heq in He. by apply GB_entries_value in He.
Qed.

Lemma GB_rows_split_lookup (ls : list (list Z)) (k1 k2 : nat)
    (l1 l2 : list Z) (i i' : Z) :
  GB_rows_split ls = true -> ls !! k1 = Some l1 -> ls !! k2 = Some l2 ->
  k1 < k2 -> i ∈ l1 -> i' ∈ l2 -> (i < i')%Z.
Proof.
  revert k1 k2. induction ls as [|l ls IH]; intros k1 k2; [done|].
  rewrite GB_rows_split_cons. intros [Hsep Hsplit] H1 H2 Hlt Hi Hi'.
  destruct k1 as [|k1], k2 as [|k2]; try lia; cbn in H1, H2.
  - injection H1 as ->. apply Hsep; [done|].
    apply GB_elem_of_concat. exists l2. split; [done|].
    by eapply list_elem_of_lookup_2.
  - apply (IH k1 k2); [done..|lia|done|done].
Qed.

Lemma GB_launch_no_op (cfg : GB_build) (a : GB_add_phase2_args) :
  in_op a = None -> GB_launch cfg a = None.
Proof.
  intros Hop. unfold GB_launch, GB_binop_builtin. rewrite Hop.
  by destruct (GBCOMPACT cfg).
Qed.

Section no_operator.

Variables (cfg : GB_build) (env : GB_env) (a : GB_add_phase2_args).

Hypothesis Hcover : GB_tasks_cover a = true.
Hypothesis HsA : GB_matrix_sorted (in_A a) = true.
Hypothesis HsB : GB_matrix_sorted (in_B a) = true.

Lemma GB_cover_inputs_ok : GB_inputs_ok a = true.
Proof.
  unfold GB_inputs_ok. rewrite !andb_true_iff, !forallb_forall.
  split; intros t Ht; apply list_elem_of_In in Ht.
  - by destruct (GB_cover_task a Hcover t Ht) as (_ & ? & _).
  - destruct (GB_task_rows_vector a Hcover t Ht) as (r & _ & _ & _ & HA & HB).
    unfold GB_task_sorted.
    rewrite andb_true_iff, !GB_ascending_StronglySorted.
    split; [apply HA|apply HB]; by apply GB_vector_at_sorted.
Qed.

(** A row index in both [A(:,j)] and [B(:,j)] is met by one task. *)
Lemma GB_overlap_task :
  GB_overlap a ->
  exists t i, t ∈ GB_tasks_of a /\
    i ∈ (GB_task_A (in_A a) t).*1 /\ i ∈ (GB_task_B (in_B a) t).*1.
Proof.
  intros (j & i & Hj & HiA & HiB).
  apply list_elem_of_fmap in Hj as (r & -> & Hr).
  apply list_elem_of_lookup_1 in Hr as [k Hk].
  destruct (GB_slot_ok_inv a Hcover k r Hk) as (_ & HA & HB & Hsp & _).
  rewrite <- HA in HiA. rewrite <- HB in HiB.
  apply list_elem_of_fmap in HiA as (ea & Hea & HiA).
  apply GB_elem_of_concat in HiA as (la & HiA & Hla).
  apply list_elem_of_lookup_1 in Hla as [ka Hka].
  rewrite list_lookup_fmap in Hka.
  destruct (GB_pieces a k !! ka) as [t|] eqn:Ht; [|done].
  injection Hka as <-.
  apply list_elem_of_fmap in HiB as (eb & Heb & HiB).
  apply GB_elem_of_concat in HiB as (lb & HiB & Hlb).
  apply list_elem_of_lookup_1 in Hlb as [kb Hkb].
  rewrite list_lookup_fmap in Hkb.
  destruct (GB_pieces a k !! kb) as [u|] eqn:Hu; [|done].
  injection Hkb as <-.
  assert (i ∈ GB_task_rows (in_A a) (in_B a) t) as Hit.
  { unfold GB_task_rows. rewrite fmap_app, elem_of_app. left.
    rewrite Hea. by apply list_elem_of_fmap_2. }
  assert (i ∈ GB_task_rows (in_A a) (in_B a) u) as Hiu.
  { unfold GB_task_rows. rewrite fmap_app, elem_of_app. right.
    rewrite Heb. by apply list_elem_of_fmap_2. }
  assert (forall k1 k2 t1 t2, GB_pieces a k !! k1 = Some t1 ->
            GB_pieces a k !! k2 = Some t2 -> k1 < k2 ->
            i ∈ GB_task_rows (in_A a) (in_B a) t1 ->
            i ∈ GB_task_rows (in_A a) (in_B a) t2 -> False) as Hord.
  { intros k1 k2 t1 t2 H1 H2 Hlt Hi1 Hi2.
    assert (i < i)%Z; [|lia].
    apply (GB_rows_split_lookup _ k1 k2
             (GB_task_rows (in_A a) (in_B a) t1)
             (GB_task_rows (in_A a) (in_B a) t2) i i Hsp); try done.
    - by rewrite list_lookup_fmap, H1.
    - by rewrite list_lookup_fmap, H2. }
  assert (ka = kb) as Heq.
  { destruct (Nat.lt_trichotomy ka kb) as [Hlt|[Heq|Hgt]]; [|done|].
    - destruct (Hord ka kb t u); done.
    - destruct (Hord kb ka u t); done. }
  subst kb. rewrite Ht in Hu. injection Hu as <-.
  exists t, i. split; [|split].
  - apply (GB_pieces_tasks a k). by eapply list_elem_of_lookup_2.
  - rewrite Hea. by apply list_elem_of_fmap_2.
  - rewrite Heb. by apply list_elem_of_fmap_2.
Qed.

(** With no operator, the merge of overlapping matrices calls the NULL
    [fadd]. *)
Lemma GB_overlap_stops :
  in_op a = None -> in_M a = None ->
  GB_sched_ok a (env_sched env) = true -> GB_overlap a ->
  GB_merged cfg env a = GB_null_call.
Proof.
  intros Hop HM Hsched Hov.
  destruct (GB_overlap_task Hov) as (t & i & Ht & HiA & HiB).
  apply (GB_merged_stopped cfg env a t Hsched Ht).
  apply (GB_task_entries_null cfg a t i); try done.
  apply GB_cover_inputs_ok.
Qed.

End no_operator.

(** With an operator and no mask, the merge emits the union of the rows. *)
Lemma GB_merge_spec_union (plan : GB_plan) (f : GxB_binary_function)
    (a b out : list GB_entry) :
  fadd plan = Some f ->
  StronglySorted Z.lt a.*1 -> StronglySorted Z.lt b.*1 ->
  GB_merge_spec plan (fun _ => true) a b = GB_ok out ->
  (forall i, GB_lookup i out = GB_rule plan f (GB_lookup i a) (GB_lookup i b)) /\
  (forall i, i ∈ out.*1 <-> i ∈ a.*1 \/ i ∈ b.*1).
Proof.
  intros Hf Ha Hb Hm.
  assert (forall i, GB_lookup i out
                    = GB_rule plan f (GB_lookup i a) (GB_lookup i b)) as Hrule.
  { intros i. pose proof (GB_merge_spec_lookup _ _ _ _ _ Ha Hb Hm i) as Hl.
    cbn beta iota in Hl. rewrite (GB_rule_result_op _ _ _ _ Hf) in Hl.
    by injection Hl as ->. }
  split; [done|]. intros i.
  rewrite <- !GB_lookup_is_Some, Hrule. apply GB_rule_is_Some.
Qed.

Lemma GB_nonempty_rows (es : list GB_entry) :
  es <> [] <-> exists i, i ∈ es.*1.
Proof.
  destruct es as [|e es].
  - split; [done|]. by intros [i ?%elem_of_nil].
  - split; [|done]. intros _. exists e.1. rewrite fmap_cons.
    apply list_elem_of_here.
Qed.

(** ** The heap of a call *)

Lemma GB_FREE_freed {T} (p : option (GB_array T)) (hp : GB_heap) :
  heap_freed (GB_FREE p hp) = heap_freed hp ++ GB_ptr_blocks p /\
  heap_next (GB_FREE p hp) = heap_next hp.
Proof. destruct p; cbn; [done|]. by rewrite app_nil_r. Qed.

Lemma GB_FREE_two {T U} (p : option (GB_array T)) (q : option (GB_array U))
    (hp : GB_heap) :
  heap_freed (GB_FREE q (GB_FREE p hp))
  = heap_freed hp ++ GB_ptr_blocks p ++ GB_ptr_blocks q /\
  heap_next (GB_FREE q (GB_FREE p hp)) = heap_next hp.
Proof.
  destruct (GB_FREE_freed q (GB_FREE p hp)) as [-> ->].
  destruct (GB_FREE_freed p hp) as [-> ->]. by rewrite <- app_assoc.
Qed.

(** The pruning step on C as the merge leaves it. *)
Lemma GB_prune_merged (ok : bool) (env : GB_env) (a : GB_add_phase2_args)
    (s : GB_store) (hp : GB_heap) :
  let C1 := GB_with_storage (GB_shell env a) s in
  let r := GB_hypermatrix_prune ok C1 hp in
  (if GB_compacts a then
     if ok then
       r.1.1 = GrB_SUCCESS /\
       r.2 = GB_FREE (in_Ch a)
               (GB_FREE (in_Cp a) (mkHeap (2 + heap_next hp) (heap_freed hp)))
     else r = (GrB_OUT_OF_MEMORY, C1, hp)
   else r = (GrB_SUCCESS, C1, hp)) /\
  (GB_compacts a = true -> in_Ch a <> None).
Proof.
  cbn zeta. unfold GB_hypermatrix_prune, GB_compacts.
  cbn -[GB_C_is_hyper GB_hyper_prune].
  destruct (GB_C_is_hyper a) eqn:Hh; cbn [andb]; [|done].
  split; [|intros _; by apply bool_decide_eq_true in Hh].
  case_decide as Hlen; [by rewrite bool_decide_eq_true_2|].
  rewrite bool_decide_eq_false_2 by done. cbn [negb]. by destruct ok.
Qed.

(** What a call that returns has done to the heap. *)
Lemma GB_add_phase2_heap (cfg : GB_build) (env : GB_env)
    (a : GB_add_phase2_args) (info : GrB_Info) (Chandle : option GrB_Matrix)
    (hp : GB_heap) :
  GB_add_phase2 cfg env a = GB_ok (info, Chandle, hp) ->
  heap_freed hp = heap_freed (env_heap env) ++ GB_freed_by_call env a info /\
  heap_next hp = GB_allocated_by_call env a info + heap_next (env_heap env).
Proof.
  unfold GB_freed_by_call, GB_allocated_by_call.
  destruct (env_create_ok env) eqn:Hc.
  - destruct (GB_merged cfg env a) as [C1|] eqn:Hm.
    + rewrite (GB_add_phase2_merged _ _ _ _ Hc Hm). cbn zeta.
      destruct (GB_merged_shape _ _ _ _ Hm) as [s ->].
      destruct (GB_prune_merged (env_prune_ok env) env a s (GB_shell_heap env))
        as [Hr Hhyper]. cbn zeta in Hr.
      destruct (GB_compacts a) eqn:Hcomp;
        [destruct (env_prune_ok env)|].
      * destruct Hr as [Hi Hh]. rewrite Hi, Hh.
        rewrite decide_False by (intros Hne; done). intros [= <- <- <-].
        rewrite !decide_True by done.
        match goal with
        | |- context [GB_FREE _ (GB_FREE _ ?h)] =>
            destruct (GB_FREE_two (in_Cp a) (in_Ch a) h) as [-> ->]
        end.
        cbn. split; [done|lia].
      * rewrite Hr. cbn [fst snd]. rewrite decide_True by done.
        intros [= <- <- <-]. rewrite !decide_False by done.
        specialize (Hhyper eq_refl).
        unfold GB_MATRIX_FREE, GB_FREE, GB_shell_heap.
        cbn -[GB_C_is_hyper]. unfold GB_C_is_hyper.
        rewrite bool_decide_eq_true_2 by done.
        destruct (in_Cp a), (in_Ch a); cbn; try done;
          by rewrite <- ?app_assoc.
      * rewrite Hr. cbn [fst snd]. rewrite decide_False by (intros Hne; done).
        intros [= <- <- <-]. rewrite !decide_True by done.
        cbn. split; [by rewrite app_nil_r|lia].
    + by rewrite (GB_add_phase2_stopped _ _ _ Hc Hm).
  - rewrite (GB_add_phase2_create_failed _ _ _ Hc). intros [= <- <- <-].
    rewrite !decide_False by done.
    destruct (GB_FREE_two (in_Cp a) (in_Ch a) (env_heap env)) as [-> ->].
    by rewrite app_nil_r.
Qed.

(** What the pruning step keeps of C. *)
Lemma GB_prune_header (ok : bool) (C : GrB_Matrix) (hp : GB_heap) :
  let C' := (GB_hypermatrix_prune ok C hp).1.2 in
  mat_magic C' = mat_magic C /\ mat_type C' = mat_type C /\
  mat_vlen C' = mat_vlen C /\ mat_vdim C' = mat_vdim C /\
  mat_is_hyper C' = mat_is_hyper C /\ mat_is_csc C' = mat_is_csc C /\
  mat_hyper_ratio C' = mat_hyper_ratio C /\
  (mat_is_hyper C = false -> C' = C).
Proof.
  unfold GB_hypermatrix_prune. cbn zeta.
  destruct (mat_is_hyper C) eqn:Hh; [case_decide; [|destruct ok]|];
    cbn; rewrite ?Hh; repeat split; done.
Qed.

(** The two ways a call returns. *)
Lemma GB_add_phase2_outcome (cfg : GB_build) (env : GB_env)
    (a : GB_add_phase2_args) (info : GrB_Info) (Chandle : option GrB_Matrix)
    (hp : GB_heap) :
  GB_add_phase2 cfg env a = GB_ok (info, Chandle, hp) ->
  (info = GrB_SUCCESS /\ env_create_ok env = true /\
   exists s,
     GB_merged cfg env a = GB_ok (GB_with_storage (GB_shell env a) s) /\
     Chandle = Some (GB_hypermatrix_prune (env_prune_ok env)
                       (GB_with_storage (GB_shell env a) s)
                       (GB_shell_heap env)).1.2) \/
  (info = GrB_OUT_OF_MEMORY /\ Chandle = None).
Proof.
  destruct (env_create_ok env) eqn:Hc.
  - destruct (GB_merged cfg env a) as [C1|] eqn:Hm.
    + rewrite (GB_add_phase2_merged _ _ _ _ Hc Hm). cbn zeta.
      destruct (GB_merged_shape _ _ _ _ Hm) as [s ->].
      case_decide as Hinfo; intros [= <- <- <-].
      * right. split; [|done].
        by destruct (GB_prune_info (env_prune_ok env)
                       (GB_with_storage (GB_shell env a) s)
                       (GB_shell_heap env)) as [?|[? _]].
      * left. repeat split; try done. by exists s.
    + by rewrite (GB_add_phase2_stopped _ _ _ Hc Hm).
  - rewrite (GB_add_phase2_create_failed _ _ _ Hc). intros [= <- <- <-].
    by right.
Qed.

Lemma GB_count_occ_fresh (l : list nat) (k : nat) :
  k ∉ l -> count_occ Nat.eq_dec l k = 0.
Proof. intros Hk. apply count_occ_not_In. by rewrite <- list_elem_of_In. Qed.

Lemma GB_count_occ_cons (x k : nat) (l : list nat) :
  count_occ Nat.eq_dec (x :: l) k
  = (if decide (x = k) then 1 else 0) + count_occ Nat.eq_dec l k.
Proof.
  cbn [count_occ]. destruct (Nat.eq_dec x k); case_decide; done.
Qed.


(** ** The pruning step of a call *)

Lemma GB_hyper_prune_length (h : list Z) (p : list nat) :
  length (GB_hyper_prune h p).1 <= length h.
Proof.
  revert p. induction h as [|j h IH]; intros p; [done|].
  destruct p as [|pk [|pk1 p]]; cbn [GB_hyper_prune fst length]; [lia..|].
  specialize (IH (pk1 :: p)).
  case_decide; cbn [fst length]; lia.
Qed.

(** Pruning a matrix with no empty vector is a no-op. *)
Lemma GB_hyper_prune_id (h : list Z) (p : list nat) :
  length (GB_hyper_prune h p).1 = length h -> GB_hyper_prune h p = (h, p).
Proof.
  revert p. induction h as [|j h IH]; intros p; [done|].
  destruct p as [|pk [|pk1 p]]; cbn [GB_hyper_prune fst length]; [done..|].
  pose proof (GB_hyper_prune_length h (pk1 :: p)) as Hle.
  specialize (IH (pk1 :: p)).
  case_decide; cbn [fst snd length]; [|lia].
  intros [= Hlen]. by rewrite (IH Hlen).
Qed.

Lemma GB_pointers_ok_Forall (p : list nat) :
  GB_pointers_ok p = true -> Forall (fun r => r.1 <= r.2) (zip p (tail p)).
Proof.
  unfold GB_pointers_ok. rewrite forallb_forall, Forall_forall.
  intros Hp r Hr. apply list_elem_of_In in Hr.
  specialize (Hp _ Hr). by apply bool_decide_eq_true in Hp.
Qed.

(** What the pruning step does to a matrix. *)
Lemma GB_prune_spec (ok : bool) (C : GrB_Matrix) (hp : GB_heap) :
  GB_pointers_ok (GB_cells (mat_p C)) = true ->
  let r := GB_hypermatrix_prune ok C hp in
  (r.1.1 = GrB_SUCCESS /\
   mat_i r.1.2 = mat_i C /\ mat_x r.1.2 = mat_x C /\
   if mat_is_hyper C
   then GB_ranges (GB_cells (mat_h r.1.2)) (GB_cells (mat_p r.1.2))
        = filter (fun s => s.2.1 < s.2.2)
            (GB_ranges (GB_cells (mat_h C)) (GB_cells (mat_p C)))
   else r.1.2 = C) \/
  (r = (GrB_OUT_OF_MEMORY, C, hp) /\ ok = false /\ mat_is_hyper C = true /\
   length (GB_hyper_prune (GB_cells (mat_h C)) (GB_cells (mat_p C))).1
   <> length (GB_cells (mat_h C))).
Proof.
  intros Hp. apply GB_pointers_ok_Forall in Hp. cbn zeta.
  unfold GB_hypermatrix_prune.
  destruct (mat_is_hyper C) eqn:Hh; [|by left].
  case_decide as Hlen.
  - left. cbn [fst snd]. repeat split.
    rewrite <- (GB_hyper_prune_ranges _ _ Hp).
    by rewrite (GB_hyper_prune_id _ _ Hlen).
  - destruct ok; [left|by right]. cbn [fst snd mat_i mat_x mat_h mat_p].
    repeat split. cbn [GB_cells cells].
    apply (GB_hyper_prune_ranges _ _ Hp).
Qed.

(** * The claims *)



(** C5.  When the row indices of every vector of A and of B are strictly
    ascending (the data-model invariant) and the upstream contract holds,
    the call returns C, and the row indices of every vector of C, read
    through the vector pointers of C, are strictly ascending.  The vector is
    in a slot of the layout and holds what the two-pointer loops of the
    tasks of that slot emit, one task after the other, in the order of
    emission: nothing is sorted afterwards.  It has at most one entry for
    each entry of [A(:,j)] and of [B(:,j)]. *)
Theorem GB_add_phase2_ascending (cfg : GB_build) (env : GB_env)
    (a : GB_add_phase2_args) :
  GB_matrix_sorted (in_A a) = true -> GB_matrix_sorted (in_B a) = true ->
  GB_upstream_ok cfg a = true -> GB_no_op_ok a = true ->
  GB_sched_ok a (env_sched env) = true ->
  env_create_ok env = true -> env_prune_ok env = true ->
  exists C hp,
    GB_add_phase2 cfg env a = GB_ok (GrB_SUCCESS, Some C, hp) /\
    forall j Cj, (j, Cj) ∈ GB_vectors C ->
      GB_ascending Cj.*1 = true /\
      (exists k, fst <$> GB_layout a !! k = Some j /\ GB_emitted cfg a k Cj) /\
      length Cj
      <= length (GB_vector_at (in_A a) j) + length (GB_vector_at (in_B a) j).
Proof.
  intros HsA HsB Hup Hnull Hsched Hc Hp.
  destruct (GB_add_phase2_vectors cfg env a Hc Hp HsA HsB Hup Hnull Hsched)
    as (C & hp & Hcall & Hin & _).
  exists C, hp. split; [exact Hcall|].
  intros j Cj Hv. destruct (Hin j Cj Hv) as (k & r & Hk & <- & Hm & Hem).
  split; [|split].
  - apply GB_ascending_StronglySorted.
    by destruct (GB_merge_spec_sorted _ _ _ _ _
                   (GB_vector_at_sorted _ r.1 HsA)
                   (GB_vector_at_sorted _ r.1 HsB) Hm).
  - exists k. by rewrite Hk.
  - by eapply GB_merge_spec_length.
Qed.

Lemma GB_add_phase2_ascending_witness :
  GB_upstream_ok (ex_build false) ex_split_args = true /\
  GB_pieces ex_split_args 0
  = [mkTask 0 0 2 0 0 0 1 0 1; mkTask 0 2 4 0 0 1 2 1 2] /\
  GB_add_phase2 (ex_build false) (ex_env true true [2; 0; 1]) ex_split_args
  = GB_ok (GrB_SUCCESS, Some ex_split_sum, mkHeap 103 []) /\
  GB_vectors ex_split_sum
  = [(0%Z, [(1%Z, [x0a]); (3%Z, [x07]); (5%Z, [x01]); (6%Z, [x02])]);
     (1%Z, [(2%Z, [x14])])] /\
  (forall j Cj, (j, Cj) ∈ GB_vectors ex_split_sum ->
     GB_ascending Cj.*1 = true /\
     length Cj
     <= length (GB_vector_at ex_A_long j) + length (GB_vector_at ex_B_long j)).
Proof.
  assert (GB_add_phase2 (ex_build false) (ex_env true true [2; 0; 1])
            ex_split_args
          = GB_ok (GrB_SUCCESS, Some ex_split_sum, mkHeap 103 [])) as Hcall
    by (vm_compute; reflexivity).
  split; [reflexivity|]. split; [reflexivity|]. split; [exact Hcall|].
  split; [reflexivity|].
  destruct (GB_add_phase2_ascending (ex_build false)
              (ex_env true true [2; 0; 1]) ex_split_args)
    as (C & hp & HC & Hv); try reflexivity.
  rewrite Hcall in HC. injection HC as <- <-.
  intros j Cj Hin. destruct (Hv j Cj Hin) as (Hasc & _ & Hlen).
  split; assumption.
Defined.






(** C7.  Once every task of the merge has completed (C1 is C as the merge
    leaves it), the pruning step runs, once, after the workers.  When it
    succeeds, the row-index and value storage of C is as the merge left it.
    If C is hypersparse, the slots of C are the slots of the layout whose
    vector is not empty, each with its identity and its range: every vector
    the counting stage reported empty ([Cp [k] = Cp [k+1]]) is gone from
    the hyperlist and the vector pointers are compacted accordingly; no
    vector with entries is lost and none appears.  If C is not hypersparse,
    its vector pointers are [Cp] as before and nothing is removed.  When the
    pruning step fails (the allocation of the compacted arrays fails), the
    call returns [GrB_OUT_OF_MEMORY] with a NULL handle and has freed all
    of C: its vector pointers, hyperlist, row indices, values and header. *)
Theorem GB_add_phase2_prune (cfg : GB_build) (env : GB_env)
    (a : GB_add_phase2_args) (C1 : GrB_Matrix) :
  env_create_ok env = true ->
  GB_pointers_ok (GB_cells (in_Cp a)) = true ->
  GB_merged cfg env a = GB_ok C1 ->
  (exists workers tail,
     GB_points (GB_add_phase2_run cfg env a)
     = [at_entry; at_created; at_transplanted; at_magic] ++ workers ++
       at_pruned :: tail /\
     Forall (fun pt => pt = at_kernel \/ pt = at_generic) workers /\
     (tail = [at_return] \/ tail = [at_prune_failed])) /\
  (env_prune_ok env = true \/ GB_compacts a = false ->
   exists C hp,
     GB_add_phase2 cfg env a = GB_ok (GrB_SUCCESS, Some C, hp) /\
     mat_i C = mat_i C1 /\ mat_x C = mat_x C1 /\
     (if GB_C_is_hyper a
      then GB_ranges (GB_cells (mat_h C)) (GB_cells (mat_p C))
           = filter (fun r => r.2.1 < r.2.2)
               (GB_ranges (GB_cells (in_Ch a)) (GB_cells (in_Cp a)))
      else mat_p C = in_Cp a /\ mat_h C = None) /\
     (forall v, v ∈ GB_vectors C -> v ∈ GB_vectors C1) /\
     (forall v, v ∈ GB_vectors C1 -> v.2 <> [] -> v ∈ GB_vectors C)) /\
  (env_prune_ok env = false -> GB_compacts a = true ->
   exists hp,
     GB_add_phase2 cfg env a = GB_ok (GrB_OUT_OF_MEMORY, None, hp) /\
     mat_p C1 = in_Cp a /\ mat_h C1 = in_Ch a /\
     heap_freed hp
     = heap_freed (env_heap env) ++
       GB_ptr_blocks (mat_p C1) ++ GB_ptr_blocks (mat_h C1) ++
       GB_ptr_blocks (mat_i C1) ++ GB_ptr_blocks (mat_x C1) ++ [mat_hdr C1]).
Proof.
  intros Hc Hp Hm.
  destruct (GB_merged_shape _ _ _ _ Hm) as [s ->].
  set (C1 := GB_with_storage (GB_shell env a) s) in *.
  assert (mat_p C1 = in_Cp a) as HpC by reflexivity.
  assert (mat_is_hyper C1 = GB_C_is_hyper a) as HhC by reflexivity.
  assert (mat_h C1 = in_Ch a) as HlC.
  { cbn -[GB_C_is_hyper]. unfold GB_C_is_hyper.
    case_bool_decide as HCh; [done|]. by destruct (in_Ch a). }
  pose proof (GB_add_phase2_merged _ _ _ _ Hc Hm) as Hcall. cbn zeta in Hcall.
  split; [|split].
  - unfold GB_points. rewrite GB_run_shape, Hc, Hm. cbn [fst].
    rewrite !fmap_app.
    exists (fr_point <$> GB_work_frames cfg env a).
    destruct (GB_finish_points env (GB_kernel_done cfg a) (GB_shell_heap env)
                C1) as [-> | ->].
    + exists [at_return]. split; [done|]. split; [|by left].
      apply Forall_fmap, Forall_forall. intros f Hf.
      by apply GB_work_frames_elem in Hf as (? & _).
    + exists [at_prune_failed]. split; [done|]. split; [|by right].
      apply Forall_fmap, Forall_forall. intros f Hf.
      by apply GB_work_frames_elem in Hf as (? & _).
  - intros Hok.
    assert (GB_pointers_ok (GB_cells (mat_p C1)) = true) as Hp'
      by (by rewrite HpC).
    destruct (GB_prune_vectors (env_prune_ok env) C1 (GB_shell_heap env)
                (GB_pointers_ok_Forall _ Hp')) as [Hin Hout].
    cbn zeta in Hin, Hout.
    destruct (GB_prune_spec (env_prune_ok env) C1 (GB_shell_heap env) Hp')
      as [(Hinfo & Hi & Hx & Hslots)|(_ & Hfalse & Hhyper & Hlen)].
    + rewrite Hinfo in Hcall. rewrite decide_False in Hcall by (intros Hne; done).
      eexists _, _. split; [exact Hcall|].
      split; [exact Hi|]. split; [exact Hx|]. split; [|split].
      * rewrite HhC, HlC, HpC in Hslots.
        destruct (GB_C_is_hyper a) eqn:Hh; [exact Hslots|].
        rewrite Hslots. split; [done|]. rewrite HlC.
        unfold GB_C_is_hyper in Hh. apply bool_decide_eq_false in Hh.
        destruct (in_Ch a); [|done]. by destruct Hh.
      * exact Hin.
      * intros v Hv Hne. apply Hout; auto.
    + exfalso. destruct Hok as [Hok|Hok]; [congruence|].
      unfold GB_compacts in Hok. rewrite <- HhC, Hhyper in Hok.
      rewrite HlC, HpC in Hlen.
      rewrite bool_decide_eq_false_2 in Hok by done. done.
  - intros Hfail Hcomp.
    destruct (GB_prune_merged (env_prune_ok env) env a s (GB_shell_heap env))
      as [Hr _]. cbn zeta in Hr. rewrite Hcomp, Hfail in Hr.
    fold C1 in Hr. rewrite Hfail in Hcall. rewrite Hr in Hcall.
    cbn [fst snd] in Hcall. rewrite decide_True in Hcall by done.
    eexists. split; [exact Hcall|]. split; [done|]. split; [done|].
    unfold GB_MATRIX_FREE. cbn [heap_freed].
    destruct (GB_FREE_freed (mat_x C1)
                (GB_FREE (mat_i C1)
                   (GB_FREE (mat_h C1)
                      (GB_FREE (mat_p C1) (GB_shell_heap env))))) as [-> _].
    destruct (GB_FREE_freed (mat_i C1)
                (GB_FREE (mat_h C1)
                   (GB_FREE (mat_p C1) (GB_shell_heap env)))) as [-> _].
    destruct (GB_FREE_two (mat_p C1) (mat_h C1) (GB_shell_heap env))
      as [-> _].
    by rewrite <- !app_assoc.
Qed.

Lemma GB_add_phase2_prune_witness :
  GB_merged (ex_build false) (ex_env true true [0; 1]) ex_hyper_args
  = GB_ok (GB_with_storage (GB_shell (ex_env true true [0; 1]) ex_hyper_args)
             (mkStore [3%Z] [[x07]])) /\
  GB_compacts ex_hyper_args = true /\
  (GB_add_phase2 (ex_build false) (ex_env true true [0; 1]) ex_hyper_args
   = GB_ok (GrB_SUCCESS, Some ex_hyper_sum, mkHeap 105 [50; 51]) /\
   GB_ranges (GB_cells (mat_h ex_hyper_sum)) (GB_cells (mat_p ex_hyper_sum))
   = filter (fun r => r.2.1 < r.2.2) [(0%Z, (0, 1)); (1%Z, (1, 1))]) /\
  exists hp,
    GB_add_phase2 (ex_build false) (ex_env true false [0; 1]) ex_hyper_args
    = GB_ok (GrB_OUT_OF_MEMORY, None, hp) /\
    heap_freed hp = [50; 51; 101; 102; 100].
Proof.
  assert (GB_merged (ex_build false) (ex_env true true [0; 1]) ex_hyper_args
          = GB_ok (GB_with_storage
                     (GB_shell (ex_env true true [0; 1]) ex_hyper_args)
                     (mkStore [3%Z] [[x07]]))) as Hm
    by (vm_compute; reflexivity).
  assert (GB_add_phase2 (ex_build false) (ex_env true true [0; 1])
            ex_hyper_args
          = GB_ok (GrB_SUCCESS, Some ex_hyper_sum, mkHeap 105 [50; 51]))
    as Hcall by (vm_compute; reflexivity).
  split; [exact Hm|]. split; [reflexivity|]. split.
  - split; [exact Hcall|].
    destruct (GB_add_phase2_prune (ex_build false) (ex_env true true [0; 1])
                ex_hyper_args _ eq_refl eq_refl Hm) as (_ & Hok & _).
    destruct (Hok (or_introl eq_refl)) as (C & hp & HC & _ & _ & Hslots & _).
    rewrite Hcall in HC. injection HC as <- <-. exact Hslots.
  - destruct (GB_add_phase2_prune (ex_build false) (ex_env true false [0; 1])
                ex_hyper_args _ eq_refl eq_refl Hm) as (_ & _ & Hfail).
    destruct (Hfail eq_refl eq_refl) as (hp & HC & _ & _ & Hfreed).
    exists hp. split; [exact HC|]. exact Hfreed.
Defined.

(** C9.  The result is a function of the inputs and the task list alone:
    when the tasks own disjoint output ranges (the counting stage fixed them
    in advance), the call run with any number of threads, the tasks taken up
    in any order, goes through the same states and returns the same C, with
    the same row-index and value arrays, as the call run with any other
    number of threads and any other order. *)
Theorem GB_add_phase2_deterministic (cfg : GB_build) (env : GB_env)
    (a : GB_add_phase2_args) (sched : list nat) (nthreads : nat) :
  GB_tasks_partition cfg a = true ->
  GB_sched_ok a (env_sched env) = true -> GB_sched_ok a sched = true ->
  GB_add_phase2_run cfg (GB_with_sched env sched) (GB_with_nthreads a nthreads)
  = GB_add_phase2_run cfg env a /\
  GB_add_phase2 cfg (GB_with_sched env sched) (GB_with_nthreads a nthreads)
  = GB_add_phase2 cfg env a.
Proof.
  intros Hpart Hs1 Hs2.
  assert (GB_add_phase2_run cfg (GB_with_sched env sched)
            (GB_with_nthreads a nthreads)
          = GB_add_phase2_run cfg env a) as Hrun.
  { destruct (env_create_ok env) eqn:Hc.
    - rewrite (GB_run_created cfg env a Hc).
      rewrite (GB_run_created cfg (GB_with_sched env sched)
                 (GB_with_nthreads a nthreads) Hc).
      rewrite !GB_phase2_work_eq.
      rewrite (GB_merged_sched cfg env a sched nthreads Hpart Hs1 Hs2).
      reflexivity.
    - rewrite (GB_run_create_failed cfg env a Hc).
      by rewrite (GB_run_create_failed cfg (GB_with_sched env sched)
                    (GB_with_nthreads a nthreads) Hc). }
  split; [exact Hrun|]. unfold GB_add_phase2. by rewrite Hrun.
Qed.

Lemma GB_add_phase2_deterministic_witness :
  GB_tasks_partition (ex_build false) (ex_add_args (Some ex_plus)) = true /\
  GB_add_phase2 (ex_build false)
    (GB_with_sched (ex_env true true [0; 1]) [1; 0])
    (GB_with_nthreads (ex_add_args (Some ex_plus)) 8)
  = GB_add_phase2 (ex_build false) (ex_env true true [0; 1])
      (ex_add_args (Some ex_plus)).
Proof.
  split; [reflexivity|].
  apply (GB_add_phase2_deterministic (ex_build false)
           (ex_env true true [0; 1]) (ex_add_args (Some ex_plus)) [1; 0] 8);
    reflexivity.
Defined.

(** C6, as the specification words it, fails in a GBCOMPACT build: the
    operator is built-in and the type code of C is the code of its result,
    yet no specialized kernel is called. *)
Lemma GB_dispatch_compact_counterexample :
  ~ GB_dispatch_by_cond (ex_build true) (ex_env true true [0; 1])
      (ex_add_args (Some ex_plus)).
Proof.
  intros [[_ Hsel] _]. destruct Hsel as (f & Hf & Hpt).
  - exists 7%Z, 2%Z, 2%Z, 2%Z. split; reflexivity.
  - apply (list_elem_of_fmap_2 fr_point) in Hf. rewrite Hpt in Hf.
    replace (fr_point <$> _)
      with [at_entry; at_created; at_transplanted; at_magic; at_generic;
            at_pruned; at_return] in Hf by (vm_compute; reflexivity).
    rewrite !elem_of_cons, elem_of_nil in Hf.
    repeat (destruct Hf as [Hf|Hf]; [discriminate Hf|]). exact Hf.
Qed.

(** C6, amended.  Once C is allocated, a specialized kernel is called if and
    only if the library is not built with GBCOMPACT, the operator is
    recognized as built-in and the type code of C equals the code of the
    operator's result; whenever no kernel is called, and so with no operator
    and in every GBCOMPACT build, the generic worker is executed. *)
Theorem GB_add_phase2_dispatch (cfg : GB_build) (env : GB_env)
    (a : GB_add_phase2_args) :
  env_create_ok env = true ->
  (GB_reaches (GB_add_phase2_run cfg env a) at_kernel
   <-> GBCOMPACT cfg = false /\ GB_kernel_cond cfg a) /\
  (~ GB_reaches (GB_add_phase2_run cfg env a) at_kernel ->
   GB_reaches (GB_add_phase2_run cfg env a) at_generic) /\
  (in_op a = None -> ~ GB_reaches (GB_add_phase2_run cfg env a) at_kernel).
Proof.
  intros Hc.
  rewrite !(GB_reaches_worker cfg env a) by auto.
  rewrite GB_work_frames_kernel, GB_work_frames_generic, <- GB_launch_cond.
  split; [done|]. split.
  - unfold GB_kernel_done. destruct (GB_launch cfg a) as [[opcode xcode]|];
      [|done]. intros Hn. destruct Hn. by eexists.
  - intros Hop. rewrite GB_launch_cond. intros [_ (o & x & y & z & Hb & _)].
    unfold GB_binop_builtin in Hb. by rewrite Hop in Hb.
Qed.

Lemma GB_add_phase2_dispatch_witness :
  (GB_reaches (GB_add_phase2_run (ex_build false) (ex_env true true [0; 1])
                 (ex_add_args (Some ex_plus))) at_kernel
   <-> GBCOMPACT (ex_build false) = false /\
       GB_kernel_cond (ex_build false) (ex_add_args (Some ex_plus))) /\
  (~ GB_reaches (GB_add_phase2_run (ex_build false) (ex_env true true [0; 1])
                   (ex_add_args (Some ex_plus))) at_kernel ->
   GB_reaches (GB_add_phase2_run (ex_build false) (ex_env true true [0; 1])
                 (ex_add_args (Some ex_plus))) at_generic) /\
  (in_op (ex_add_args (Some ex_plus)) = None ->
   ~ GB_reaches (GB_add_phase2_run (ex_build false) (ex_env true true [0; 1])
                   (ex_add_args (Some ex_plus))) at_kernel).
Proof.
  apply (GB_add_phase2_dispatch (ex_build false) (ex_env true true [0; 1])
           (ex_add_args (Some ex_plus))).
  reflexivity.
Defined.

(** C8, as the specification words it, fails: at line 134, before the merge
    and before the pruning step, C is already marked valid. *)
Lemma GB_valid_before_prune_counterexample :
  ~ GB_valid_only_after_prune
      (GB_add_phase2_run (ex_build false) (ex_env true true [0; 1])
         (ex_add_args (Some ex_plus))).
Proof.
  intros Hclaim.
  specialize (Hclaim
    (mkFrame at_magic None
       (Some (GB_shell (ex_env true true [0; 1]) (ex_add_args (Some ex_plus))))
       GrB_SUCCESS false (GB_shell_heap (ex_env true true [0; 1])))
    (GB_shell (ex_env true true [0; 1]) (ex_add_args (Some ex_plus)))).
  assert (false = true) as Hcontra; [|discriminate Hcontra].
  apply Hclaim; [|reflexivity|reflexivity].
  vm_compute. do 3 apply list_elem_of_further. apply list_elem_of_here.
Qed.

(** C8, amended.  C is marked valid at line 133, as soon as Cp and Ch have
    been transplanted into it and before the workers and the pruning step
    run, and it stays valid from there on; what waits for the pruning step
    to complete is the assignment of [*Chandle], made at the return of
    success only. *)
Theorem GB_add_phase2_valid_early (cfg : GB_build) (env : GB_env)
    (a : GB_add_phase2_args) (f : GB_frame) (C : GrB_Matrix) :
  f ∈ (GB_add_phase2_run cfg env a).1 -> fr_C f = Some C ->
  (mat_magic C = GB_MAGIC
   <-> fr_point f <> at_created /\ fr_point f <> at_transplanted) /\
  (is_Some (fr_Chandle f) <-> fr_point f = at_return) /\
  exists rest,
    GB_points (GB_add_phase2_run cfg env a)
    = [at_entry; at_created; at_transplanted; at_magic] ++ rest /\
    (at_magic ∉ rest) /\ (at_created ∉ rest) /\ (at_transplanted ∉ rest).
Proof.
  intros Hf HC.
  pose proof (GB_run_kinds cfg env a) as Hkinds.
  rewrite Forall_forall in Hkinds. specialize (Hkinds f Hf).
  assert (env_create_ok env = true) as Hc.
  { destruct (env_create_ok env) eqn:Hc; [done|]. exfalso.
    rewrite (GB_run_create_failed _ _ _ Hc) in Hf. cbn [fst] in Hf.
    rewrite !elem_of_cons, elem_of_nil in Hf.
    destruct Hf as [->|[->|[]]]; discriminate HC. }
  split; [|split].
  - destruct Hkinds
      as [(_ & HN & _)|[(_ & (C' & HC' & Hm) & Hpt)
         |[(_ & (C' & HC' & Hm) & Hpt)|((C' & _ & HC' & Hm) & Hpt)]]].
    + rewrite HN in HC. discriminate HC.
    + rewrite HC' in HC. injection HC as <-. rewrite Hm.
      split; [discriminate|]. intros [H1 H2]. by destruct Hpt.
    + rewrite HC' in HC. injection HC as <-. rewrite Hm.
      split; [|done]. intros _.
      destruct Hpt as [->|[->|[->| ->]]]; split; discriminate.
    + rewrite HC' in HC. injection HC as <-. rewrite Hm, Hpt.
      split; [|done]. intros _. split; discriminate.
  - destruct Hkinds
      as [(Hh & _ & Hpt)|[(Hh & _ & Hpt)|[(Hh & _ & Hpt)|((C' & Hh & _) & Hpt)]]].
    + rewrite Hh. split; [by intros [? ?]|].
      destruct Hpt as [->|[->| ->]]; discriminate.
    + rewrite Hh. split; [by intros [? ?]|].
      destruct Hpt as [->| ->]; discriminate.
    + rewrite Hh. split; [by intros [? ?]|].
      destruct Hpt as [->|[->|[->| ->]]]; discriminate.
    + rewrite Hh, Hpt. split; [done|by eexists].
  - destruct (GB_run_points cfg env a Hc) as (rest & Hrest & Hall).
    exists rest. split; [exact Hrest|].
    rewrite Forall_forall in Hall.
    repeat split; intros Hin;
      destruct (Hall _ Hin) as [?|[?|[?|[?|?]]]]; discriminate.
Qed.

Lemma GB_add_phase2_valid_early_witness :
  let env := ex_env true true [0; 1] in
  let a := ex_add_args (Some ex_plus) in
  let f := mkFrame at_magic None (Some (GB_shell env a)) GrB_SUCCESS false
             (GB_shell_heap env) in
  f ∈ (GB_add_phase2_run (ex_build false) env a).1 /\
  (mat_magic (GB_shell env a) = GB_MAGIC
   <-> fr_point f <> at_created /\ fr_point f <> at_transplanted) /\
  (is_Some (fr_Chandle f) <-> fr_point f = at_return) /\
  exists rest,
    GB_points (GB_add_phase2_run (ex_build false) env a)
    = [at_entry; at_created; at_transplanted; at_magic] ++ rest /\
    (at_magic ∉ rest) /\ (at_created ∉ rest) /\ (at_transplanted ∉ rest).
Proof.
  intros env a f.
  assert (f ∈ (GB_add_phase2_run (ex_build false) env a).1) as Hf.
  { vm_compute. do 3 apply list_elem_of_further. apply list_elem_of_here. }
  split; [exact Hf|].
  apply (GB_add_phase2_valid_early (ex_build false) env a f (GB_shell env a) Hf).
  reflexivity.
Defined.

(** C10.  On every failure return the caller's [*Chandle] is NULL: it is set
    to NULL at line 99, before anything is allocated, and it is NULL at
    every place the call goes through; the constructed matrix is assigned
    to it on the return of success only. *)
Theorem GB_add_phase2_handle (cfg : GB_build) (env : GB_env)
    (a : GB_add_phase2_args) (info : GrB_Info) (Chandle : option GrB_Matrix)
    (hp : GB_heap) :
  GB_add_phase2 cfg env a = GB_ok (info, Chandle, hp) ->
  info <> GrB_SUCCESS ->
  Chandle = None /\
  head (GB_add_phase2_run cfg env a).1
  = Some (mkFrame at_entry None None GrB_SUCCESS false (env_heap env)) /\
  (forall f, f ∈ (GB_add_phase2_run cfg env a).1 -> fr_Chandle f = None) /\
  at_return ∉ GB_points (GB_add_phase2_run cfg env a).
Proof.
  unfold GB_add_phase2, GB_points. rewrite GB_run_shape.
  destruct (env_create_ok env).
  2:{ cbn. intros [= <- <- <-] _. repeat split; try done.
      - intros f Hf. rewrite !elem_of_cons, elem_of_nil in Hf.
        by destruct Hf as [->|[->|[]]].
      - rewrite !not_elem_of_cons. repeat split; first [done|apply not_elem_of_nil]. }
  assert (forall g, g ∈ GB_work_frames cfg env a ->
            fr_Chandle g = None /\ fr_point g <> at_return) as Hwork.
  { intros g Hg. apply GB_work_frames_elem in Hg as ([Hp|Hp] & ? & _);
      rewrite Hp; done. }
  destruct (GB_merged cfg env a) as [C1|] eqn:Hm; [|done].
  unfold GB_phase2_finish. cbn zeta. case_decide as Hinfo; cbn [fst snd GB_bind].
  - rewrite GB_last_frame_finish. cbn [fr_Chandle fr_heap].
    intros [= <- <- <-] _. repeat split; try done.
    + intros f Hf. rewrite !elem_of_app in Hf. destruct Hf as [Hf|[Hf|Hf]].
      * unfold GB_prefix in Hf. rewrite !elem_of_cons, elem_of_nil in Hf.
        by destruct Hf as [->|[->|[->|[->|[]]]]].
      * by destruct (Hwork f Hf).
      * rewrite !elem_of_cons, elem_of_nil in Hf. by destruct Hf as [->|[->|[]]].
    + rewrite !fmap_app, !not_elem_of_app. repeat split.
      * unfold GB_prefix. cbn. rewrite !not_elem_of_cons.
        repeat split; first [done|apply not_elem_of_nil].
      * intros Hin. apply list_elem_of_fmap in Hin as (g & Hp & Hg).
        by destruct (Hwork g Hg).
      * cbn. rewrite !not_elem_of_cons.
        repeat split; first [done|apply not_elem_of_nil].
  - rewrite GB_last_frame_finish. cbn [fr_Chandle fr_heap].
    intros [= <- <- <-] Hne. done.
Qed.

Lemma GB_add_phase2_handle_witness :
  GB_add_phase2 (ex_build false) (ex_env false true [0; 1])
    (ex_add_args (Some ex_plus))
  = GB_ok (GrB_OUT_OF_MEMORY, None, mkHeap 100 [50]) /\
  GrB_OUT_OF_MEMORY <> GrB_SUCCESS /\
  (forall f, f ∈ (GB_add_phase2_run (ex_build false) (ex_env false true [0; 1])
                    (ex_add_args (Some ex_plus))).1 -> fr_Chandle f = None).
Proof.
  split; [reflexivity|]. split; [discriminate|].
  apply (GB_add_phase2_handle (ex_build false) (ex_env false true [0; 1])
           (ex_add_args (Some ex_plus)) GrB_OUT_OF_MEMORY None
           (mkHeap 100 [50]));
    [reflexivity | discriminate].
Defined.

(** * Further properties of the call *)

(** ** Ownership of [Cp] and [Ch] *)

(** C once [Cp] and [Ch] are transplanted into it. *)
Lemma GB_transplant_fields (a : GB_add_phase2_args) (C : GrB_Matrix) :
  mat_h C = None -> mat_is_hyper C = GB_C_is_hyper a ->
  let C' := GB_transplant a (GB_C_is_hyper a) C in
  mat_p C' = in_Cp a /\ mat_h C' = in_Ch a /\
  mat_is_hyper C' = bool_decide (in_Ch a <> None) /\
  (in_Ch a <> None -> mat_nvec C' = in_Cnvec a).
Proof.
  intros Hh Hhyper. cbn -[GB_C_is_hyper]. rewrite Hh, Hhyper.
  unfold GB_C_is_hyper. split; [done|]. split; [|split; [done|]].
  - case_bool_decide as HCh; [done|]. by destruct (in_Ch a).
  - intros HCh. by rewrite bool_decide_eq_true_2.
Qed.

(** X1.  Lines 112-130.  When [GB_create] fails, the call frees [Cp], then
    [Ch], and nothing else, before it returns.  When it succeeds, line 121
    makes [Cp] the vector pointers of C and, exactly when [Ch] is not NULL,
    lines 126-127 make [Ch] its hyperlist and [Cnvec] its number of
    vectors: this is C at line 130, at line 134 and when the kernel and the
    generic worker are called, and up to there the call has freed
    nothing. *)
Theorem GB_add_phase2_transplants (cfg : GB_build) (env : GB_env)
    (a : GB_add_phase2_args) (f : GB_frame) :
  f ∈ (GB_add_phase2_run cfg env a).1 ->
  (fr_point f = at_create_failed ->
   env_create_ok env = false /\
   fr_heap f = GB_FREE (in_Ch a) (GB_FREE (in_Cp a) (env_heap env))) /\
  (fr_point f = at_transplanted \/ fr_point f = at_magic \/
   fr_point f = at_kernel \/ fr_point f = at_generic ->
   env_create_ok env = true /\
   exists C, fr_C f = Some C /\
     mat_p C = in_Cp a /\ mat_h C = in_Ch a /\
     mat_is_hyper C = bool_decide (in_Ch a <> None) /\
     (in_Ch a <> None -> mat_nvec C = in_Cnvec a) /\
     heap_freed (fr_heap f) = heap_freed (env_heap env)).
Proof.
  intros Hf.
  pose proof (GB_transplant_fields a
                (GB_new (in_ctype a) (mat_vlen (in_A a)) (mat_vdim (in_A a))
                   (in_C_is_csc a) (GB_C_is_hyper a)
                   (mat_hyper_ratio (in_A a)) (in_Cnvec a) (GB_cnz a)
                   (heap_next (env_heap env))) eq_refl eq_refl) as Htr.
  cbn zeta in Htr.
  assert (forall g, g ∈ GB_prefix env a ++ GB_work_frames cfg env a ->
            fr_point g <> at_create_failed /\
            (fr_point g = at_transplanted \/ fr_point g = at_magic \/
             fr_point g = at_kernel \/ fr_point g = at_generic ->
             exists C, fr_C g = Some C /\
               mat_p C = in_Cp a /\ mat_h C = in_Ch a /\
               mat_is_hyper C = bool_decide (in_Ch a <> None) /\
               (in_Ch a <> None -> mat_nvec C = in_Cnvec a) /\
               heap_freed (fr_heap g) = heap_freed (env_heap env))) as Hearly.
  { intros g Hg. apply elem_of_app in Hg as [Hg|Hg].
    - unfold GB_prefix in Hg. rewrite !elem_of_cons, elem_of_nil in Hg.
      destruct Hg as [->|[->|[->|[->|[]]]]]; (split; [done|]);
        cbn [fr_point fr_C fr_heap]; intros Hpt.
      + by destruct Hpt as [?|[?|[?|?]]].
      + by destruct Hpt as [?|[?|[?|?]]].
      + eexists. split; [done|]. by destruct Htr as (? & ? & ? & ?).
      + eexists. split; [done|]. by destruct Htr as (? & ? & ? & ?).
    - apply GB_work_frames_elem in Hg as (Hpt & _ & HC & Hhp).
      split; [by destruct Hpt as [-> | ->]|]. intros _.
      eexists. split; [exact HC|]. rewrite Hhp.
      by destruct Htr as (? & ? & ? & ?). }
  rewrite GB_run_shape in Hf. destruct (env_create_ok env).
  - assert (f ∈ GB_prefix env a ++ GB_work_frames cfg env a \/
            fr_point f = at_pruned \/ fr_point f = at_return \/
            fr_point f = at_prune_failed) as [Hin|Hlate].
    { destruct (GB_merged cfg env a) as [C|]; cbn [fst] in Hf.
      - rewrite app_assoc in Hf. apply elem_of_app in Hf as [Hf|Hf]; [by left|].
        right. apply (list_elem_of_fmap_2 fr_point) in Hf.
        destruct (GB_finish_points env (GB_kernel_done cfg a)
                    (GB_shell_heap env) C) as [Hpts|Hpts];
          rewrite Hpts, !elem_of_cons, elem_of_nil in Hf;
          destruct Hf as [->|[->|[]]]; auto.
      - by left. }
    + destruct (Hearly f Hin) as [Hne Hpt]. split.
      * intros Hfail. by destruct Hne.
      * intros Hpt'. split; [done|]. by apply Hpt.
    + split.
      * intros Hpt. rewrite Hpt in Hlate. by destruct Hlate as [?|[?|?]].
      * intros Hpt.
        destruct Hlate as [Hl|[Hl|Hl]]; rewrite Hl in Hpt;
          by destruct Hpt as [?|[?|[?|?]]].
  - cbn [fst] in Hf. rewrite !elem_of_cons, elem_of_nil in Hf.
    destruct Hf as [->|[->|[]]]; cbn [fr_point fr_heap].
    + split; [done|]. intros Hpt. by destruct Hpt as [?|[?|[?|?]]].
    + split; [done|]. intros Hpt. by destruct Hpt as [?|[?|[?|?]]].
Qed.

Lemma GB_add_phase2_transplants_witness :
  let env := ex_env true true [0; 1] in
  let f := mkFrame at_generic None (Some (GB_shell env ex_hyper_args))
             GrB_NO_VALUE false (GB_shell_heap env) in
  f ∈ (GB_add_phase2_run (ex_build_no_kernels) env ex_hyper_args).1 /\
  exists C, fr_C f = Some C /\
    mat_p C = Some (mkArray 50 [0; 1; 1]) /\
    mat_h C = Some (mkArray 51 [0; 1]%Z) /\
    mat_is_hyper C = true /\
    heap_freed (fr_heap f) = [].
Proof.
  intros env f.
  assert (f ∈ (GB_add_phase2_run (ex_build_no_kernels) env ex_hyper_args).1)
    as Hf.
  { vm_compute. do 5 apply list_elem_of_further. apply list_elem_of_here. }
  split; [exact Hf|].
  destruct (GB_add_phase2_transplants _ _ _ _ Hf) as [_ Hlate].
  destruct Hlate as (_ & C & HC & Hp & Hh & Hhyper & _ & Hfreed); [auto|].
  exists C. repeat split; assumption.
Defined.

(** X3.  The call frees nothing of the caller's but Cp and Ch: a block that
    was allocated before the call and is neither of the two has been freed
    as often after the call as before it.  The caller still owns C_to_M,
    C_to_A, C_to_B, the task list and the matrices A, B and M. *)
Theorem GB_add_phase2_frees_only_Cp_Ch (cfg : GB_build) (env : GB_env)
    (a : GB_add_phase2_args) (info : GrB_Info) (Chandle : option GrB_Matrix)
    (hp : GB_heap) (k : nat) :
  GB_add_phase2 cfg env a = GB_ok (info, Chandle, hp) ->
  k < heap_next (env_heap env) ->
  k ∉ GB_ptr_blocks (in_Cp a) -> k ∉ GB_ptr_blocks (in_Ch a) ->
  count_occ Nat.eq_dec (heap_freed hp) k
  = count_occ Nat.eq_dec (heap_freed (env_heap env)) k.
Proof.
  intros Hcall Hk HCp HCh.
  destruct (GB_add_phase2_heap _ _ _ _ _ _ Hcall) as [Hfreed _].
  rewrite Hfreed, count_occ_app. unfold GB_freed_by_call.
  case_decide.
  { destruct (GB_compacts a); [|cbn; lia].
    rewrite !count_occ_app, (GB_count_occ_fresh _ _ HCp),
      (GB_count_occ_fresh _ _ HCh). lia. }
  rewrite !count_occ_app, (GB_count_occ_fresh _ _ HCp),
    (GB_count_occ_fresh _ _ HCh).
  destruct (env_create_ok env); [|cbn; lia].
  rewrite !GB_count_occ_cons, !decide_False by lia. cbn. lia.
Qed.

Lemma GB_add_phase2_frees_only_Cp_Ch_witness :
  GB_add_phase2 (ex_build false) (ex_env true false [0; 1]) ex_hyper_args
  = GB_ok (GrB_OUT_OF_MEMORY, None, mkHeap 103 [50; 51; 101; 102; 100]) /\
  GB_ptr_blocks (in_C_to_M ex_hyper_args) = [52] /\
  count_occ Nat.eq_dec [50; 51; 101; 102; 100] 52 = count_occ Nat.eq_dec [] 52.
Proof.
  split; [reflexivity|]. split; [reflexivity|].
  apply (GB_add_phase2_frees_only_Cp_Ch (ex_build false)
           (ex_env true false [0; 1]) ex_hyper_args GrB_OUT_OF_MEMORY None
           (mkHeap 103 [50; 51; 101; 102; 100]) 52).
  - reflexivity.
  - cbn. lia.
  - cbn. rewrite list_elem_of_singleton. lia.
  - cbn. rewrite list_elem_of_singleton. lia.
Defined.

(** ** What the caller receives *)

Lemma GB_C_is_hyper_true (a : GB_add_phase2_args) :
  GB_C_is_hyper a = true <-> in_Ch a <> None.
Proof. unfold GB_C_is_hyper. apply bool_decide_eq_true. Qed.

Lemma GB_C_is_hyper_false (a : GB_add_phase2_args) :
  in_Ch a = None -> GB_C_is_hyper a = false.
Proof.
  intros HCh. unfold GB_C_is_hyper. apply bool_decide_eq_false.
  intros Hne. by apply Hne.
Qed.

(** X4.  The call returns [GrB_SUCCESS] or [GrB_OUT_OF_MEMORY], never the
    [GrB_NO_VALUE] of a kernel; it returns [GrB_SUCCESS] exactly when the
    handle is not NULL.  The matrix in the handle is marked valid; it has
    the type [ctype], the dimensions and the hyper ratio of A and the format
    [C_is_csc]; it is hypersparse exactly when Ch was supplied, and when it
    is not, its vector pointers are Cp, it has no hyperlist and its count of
    non-empty vectors is [Cnvec_nonempty]. *)
Theorem GB_add_phase2_result (cfg : GB_build) (env : GB_env)
    (a : GB_add_phase2_args) (info : GrB_Info) (Chandle : option GrB_Matrix)
    (hp : GB_heap) :
  GB_add_phase2 cfg env a = GB_ok (info, Chandle, hp) ->
  (info = GrB_SUCCESS \/ info = GrB_OUT_OF_MEMORY) /\
  (info = GrB_SUCCESS <-> is_Some Chandle) /\
  forall C, Chandle = Some C ->
    mat_magic C = GB_MAGIC /\
    mat_type C = in_ctype a /\
    mat_vlen C = mat_vlen (in_A a) /\ mat_vdim C = mat_vdim (in_A a) /\
    mat_hyper_ratio C = mat_hyper_ratio (in_A a) /\
    mat_is_csc C = in_C_is_csc a /\
    (mat_is_hyper C = true <-> in_Ch a <> None) /\
    (in_Ch a = None ->
     mat_p C = in_Cp a /\ mat_h C = None /\
     mat_nvec_nonempty C = in_Cnvec_nonempty a).
Proof.
  intros Hcall.
  destruct (GB_add_phase2_outcome _ _ _ _ _ _ Hcall)
    as [(-> & _ & s & _ & ->)|[-> ->]].
  - split; [by left|]. split; [by split; [eexists|]|].
    intros C [= <-].
    destruct (GB_prune_header (env_prune_ok env)
                (GB_with_storage (GB_shell env a) s) (GB_shell_heap env))
      as (-> & -> & -> & -> & -> & -> & -> & Hsame).
    cbn -[GB_C_is_hyper].
    do 6 (split; [done|]). split; [apply GB_C_is_hyper_true|].
    intros HCh. rewrite Hsame by (cbn -[GB_C_is_hyper]; by apply GB_C_is_hyper_false).
    cbn -[GB_C_is_hyper]. by rewrite (GB_C_is_hyper_false _ HCh).
  - split; [by right|]. split; [|done].
    split; [done|]. by intros [? ?].
Qed.

Lemma GB_add_phase2_result_witness :
  GB_add_phase2 (ex_build false) (ex_env true true [0; 1])
    (ex_add_args (Some ex_plus))
  = GB_ok (GrB_SUCCESS, Some ex_sum, mkHeap 103 []) /\
  (GrB_SUCCESS = GrB_SUCCESS <-> is_Some (Some ex_sum)) /\
  mat_magic ex_sum = GB_MAGIC /\ mat_type ex_sum = ex_type /\
  mat_vlen ex_sum = mat_vlen ex_A /\ mat_vdim ex_sum = mat_vdim ex_A.
Proof.
  assert (GB_add_phase2 (ex_build false) (ex_env true true [0; 1])
            (ex_add_args (Some ex_plus))
          = GB_ok (GrB_SUCCESS, Some ex_sum, mkHeap 103 [])) as Hcall
    by (vm_compute; reflexivity).
  split; [exact Hcall|].
  destruct (GB_add_phase2_result _ _ _ _ _ _ Hcall) as (_ & Hiff & HC).
  split; [exact Hiff|].
  destruct (HC ex_sum eq_refl) as (Hm & Ht & Hl & Hd & _).
  repeat split; assumption.
Defined.

(** ** The workers *)

(** X5.  [done = (info != GrB_NO_VALUE)]: once C is allocated, the generic
    worker is entered exactly when no specialized kernel has done the work,
    that is when none was called or the one called is compiled out; in the
    second case both workers are called, the kernel first. *)
Theorem GB_add_phase2_fallback (cfg : GB_build) (env : GB_env)
    (a : GB_add_phase2_args) :
  env_create_ok env = true ->
  (GB_reaches (GB_add_phase2_run cfg env a) at_generic <->
   forall opcode xcode, GB_launch cfg a = Some (opcode, xcode) ->
     GB_disabled cfg opcode xcode = true) /\
  (forall opcode xcode, GB_launch cfg a = Some (opcode, xcode) ->
     GB_disabled cfg opcode xcode = true ->
     exists rest,
       GB_points (GB_add_phase2_run cfg env a)
       = [at_entry; at_created; at_transplanted; at_magic;
          at_kernel; at_generic] ++ rest).
Proof.
  intros Hc. split.
  - rewrite (GB_reaches_worker cfg env a) by auto.
    rewrite GB_work_frames_generic. unfold GB_kernel_done.
    destruct (GB_launch cfg a) as [[opcode xcode]|].
    + split.
      * intros Hd o x [= <- <-]. by apply negb_false_iff.
      * intros Hd. apply negb_false_iff. by apply Hd.
    + split; [by intros _ o x|done].
  - intros opcode xcode Hl Hd. unfold GB_points.
    rewrite GB_run_shape, Hc.
    assert (fr_point <$> GB_work_frames cfg env a = [at_kernel; at_generic])
      as Hw.
    { unfold GB_work_frames, GB_kernel_done. by rewrite Hl, Hd. }
    destruct (GB_merged cfg env a); cbn [fst]; rewrite !fmap_app, Hw.
    + by eexists.
    + exists []. by rewrite app_nil_r.
Qed.

Lemma GB_add_phase2_fallback_witness :
  GB_launch ex_build_no_kernels (ex_add_args (Some ex_plus))
  = Some (7%Z, 2%Z) /\
  GB_reaches (GB_add_phase2_run ex_build_no_kernels (ex_env true true [0; 1])
                (ex_add_args (Some ex_plus))) at_generic /\
  exists rest,
    GB_points (GB_add_phase2_run ex_build_no_kernels
                 (ex_env true true [0; 1]) (ex_add_args (Some ex_plus)))
    = [at_entry; at_created; at_transplanted; at_magic;
       at_kernel; at_generic] ++ rest.
Proof.
  split; [reflexivity|].
  destruct (GB_add_phase2_fallback ex_build_no_kernels
              (ex_env true true [0; 1]) (ex_add_args (Some ex_plus)) eq_refl)
    as [Hgen Hboth].
  split.
  - apply Hgen. intros opcode xcode _. reflexivity.
  - apply (Hboth 7%Z 2%Z); reflexivity.
Defined.

(** X6.  The phases of a call come in one order.  A call whose allocation
    fails goes from the entry to the failure return.  Every other call
    allocates C, transplants Cp and Ch, marks C valid, calls the kernel, the
    generic worker or the kernel then the generic worker, and, unless an
    ASSERT stops the merge, prunes and returns: the pruning step runs once,
    after the workers, in every call whose merge completes, and success is
    never returned without it. *)
Theorem GB_add_phase2_phases (cfg : GB_build) (env : GB_env)
    (a : GB_add_phase2_args) :
  (GB_points (GB_add_phase2_run cfg env a) = [at_entry; at_create_failed] /\
   (GB_add_phase2_run cfg env a).2 = GB_ok GrB_OUT_OF_MEMORY) \/
  exists workers tail,
    GB_points (GB_add_phase2_run cfg env a)
    = [at_entry; at_created; at_transplanted; at_magic] ++ workers ++ tail /\
    (workers = [at_kernel] \/ workers = [at_kernel; at_generic] \/
     workers = [at_generic]) /\
    (tail = [] /\ (GB_add_phase2_run cfg env a).2 = GB_null_call \/
     tail = [at_pruned; at_return] /\
       (GB_add_phase2_run cfg env a).2 = GB_ok GrB_SUCCESS \/
     tail = [at_pruned; at_prune_failed] /\
       (GB_add_phase2_run cfg env a).2 = GB_ok GrB_OUT_OF_MEMORY).
Proof.
  unfold GB_points. rewrite GB_run_shape.
  destruct (env_create_ok env); [right|by left].
  assert (fr_point <$> GB_work_frames cfg env a = [at_kernel] \/
          fr_point <$> GB_work_frames cfg env a = [at_kernel; at_generic] \/
          fr_point <$> GB_work_frames cfg env a = [at_generic]) as Hw.
  { unfold GB_work_frames, GB_kernel_done.
    destruct (GB_launch cfg a) as [[opcode xcode]|];
      [destruct (GB_disabled cfg opcode xcode)|]; cbn; auto. }
  exists (fr_point <$> GB_work_frames cfg env a).
  destruct (GB_merged cfg env a) as [C|]; cbn [fst snd].
  - exists (fr_point <$> (GB_phase2_finish env (GB_kernel_done cfg a)
                            (GB_shell_heap env) C).1).
    rewrite !fmap_app. split; [reflexivity|]. split; [exact Hw|].
    unfold GB_phase2_finish. cbn zeta. right.
    case_decide as Hd; cbn [fst snd fmap list_fmap fr_point].
    + right. split; [done|].
      by destruct (GB_prune_info (env_prune_ok env) C (GB_shell_heap env))
        as [Hs|(-> & _)].
    + by left.
  - exists []. rewrite !fmap_app, app_nil_r. split; [reflexivity|].
    split; [exact Hw|]. by left.
Qed.

(** X7.  With no operator there is no typecasting: under the ASSERTs of
    lines 81-82 the generic worker reads A and B with the element sizes of
    their own types, as it does with an operator, and a value of A or of B
    is copied to C byte for byte. *)
Theorem GB_generic_plan_sizes (cfg : GB_build) (a : GB_add_phase2_args) :
  GB_ASSERT_inputs a ->
  csize (GB_plan_of cfg a) = ty_size (in_ctype a) /\
  asize (GB_plan_of cfg a) = ty_size (mat_type (in_A a)) /\
  bsize (GB_plan_of cfg a) = ty_size (mat_type (in_B a)) /\
  (in_op a = None ->
   forall (Xx : list GB_void) (p : nat) (v : GB_void), Xx !! p = Some v ->
     (length v = ty_size (mat_type (in_A a)) ->
      GB_COPY_A_TO_C (GB_plan_of cfg a) Xx p = v) /\
     (length v = ty_size (mat_type (in_B a)) ->
      GB_COPY_B_TO_C (GB_plan_of cfg a) Xx p = v)).
Proof.
  unfold GB_ASSERT_inputs, GB_plan_of, GB_generic_plan,
    GB_COPY_A_TO_C, GB_COPY_B_TO_C.
  intros (_ & _ & Hop).
  destruct (in_op a) as [o|]; cbn [csize asize bsize cast_A_to_C cast_B_to_C].
  - repeat split; done.
  - destruct Hop as (HA & HB & _). rewrite <- HA, <- HB.
    split; [done|]. split; [done|]. split; [done|].
    intros _ Xx p v Hv. rewrite (list_lookup_total_correct _ _ _ Hv).
    unfold GB_copy_user_user.
    split; intros Hlen; apply take_ge; by rewrite Hlen.
Qed.

Lemma GB_generic_plan_sizes_witness :
  GB_ASSERT_inputs ex_wait_args /\
  asize (GB_plan_of (ex_build false) ex_wait_args) = 1 /\
  GB_COPY_A_TO_C (GB_plan_of (ex_build false) ex_wait_args) [[x0a]; [x14]] 1
  = [x14].
Proof.
  assert (GB_ASSERT_inputs ex_wait_args) as Hpre.
  { repeat split; discriminate. }
  split; [exact Hpre|].
  destruct (GB_generic_plan_sizes (ex_build false) ex_wait_args Hpre)
    as (_ & HA & _ & Hcopy).
  split; [exact HA|].
  destruct (Hcopy eq_refl [[x0a]; [x14]] 1 [x14] eq_refl) as [HcA _].
  by apply HcA.
Defined.

(** ** The storage of C *)

(** X9.  [cnz = Cp [Cnvec]]: the row-index array and the value array of the
    matrix the call returns have exactly [Cp [Cnvec]] entries each, the
    count the counting stage left in the last vector pointer. *)
Theorem GB_add_phase2_nnz (cfg : GB_build) (env : GB_env)
    (a : GB_add_phase2_args) (C : GrB_Matrix) (hp : GB_heap) :
  GB_add_phase2 cfg env a = GB_ok (GrB_SUCCESS, Some C, hp) ->
  length (GB_Ai C) = GB_cells (in_Cp a) !!! in_Cnvec a /\
  length (GB_Ax C) = GB_cells (in_Cp a) !!! in_Cnvec a.
Proof.
  intros Hcall.
  destruct (GB_add_phase2_outcome _ _ _ _ _ _ Hcall)
    as [(_ & _ & s & Hm & [= ->])|[[=] _]].
  unfold GB_Ai, GB_Ax.
  destruct (GB_prune_storage (env_prune_ok env)
              (GB_with_storage (GB_shell env a) s) (GB_shell_heap env))
    as (-> & -> & _).
  unfold GB_merged, GB_add_template in Hm.
  apply GB_bind_ok in Hm as (s' & Hrun & [= Hi Hx]).
  apply GB_run_tasks_length in Hrun as [Hli Hlx].
  cbn in Hli, Hlx. rewrite length_replicate in Hli.
  rewrite length_replicate in Hlx.
  cbn. by rewrite <- Hi, <- Hx, Hli, Hlx.
Qed.

Lemma GB_add_phase2_nnz_witness :
  GB_add_phase2 (ex_build false) (ex_env true true [0; 1])
    (ex_add_args (Some ex_plus))
  = GB_ok (GrB_SUCCESS, Some ex_sum, mkHeap 103 []) /\
  length (GB_Ai ex_sum) = 3 /\ length (GB_Ax ex_sum) = 3.
Proof.
  assert (GB_add_phase2 (ex_build false) (ex_env true true [0; 1])
            (ex_add_args (Some ex_plus))
          = GB_ok (GrB_SUCCESS, Some ex_sum, mkHeap 103 [])) as Hcall
    by (vm_compute; reflexivity).
  split; [exact Hcall|].
  exact (GB_add_phase2_nnz _ _ _ _ _ Hcall).
Defined.
